(** * A Sudoku solver: recursive backtracking with four deduction rules

    Shallow embedding of the [Sudoku] class (constructor, accessors, the
    validity checks, the candidate engine, rules 1-4 and the backtracking
    [solve]) together with the properties of its specification.

    Modelling conventions.
    - Cell values and coordinates are JavaScript numbers; here they are
      integers ([Z]), so that negative coordinates and values exist.
    - A board is an array of row arrays.  Row arrays are mutable objects:
      they live in a [heap] and are denoted by their address.  The outer
      array of a [Sudoku] object is created by the constructor and is never
      written afterwards, so it is a list of row addresses.
    - A method is a computation in the monad [M]: it reads and writes the
      heap and either returns or throws.
    - The progress display written to the terminal by [backtrack] is
      omitted: it reads the board and changes nothing.
    - [x / 3 | 0] and [x % 3] are taken on coordinates in [0,8], where they
      are the integer quotient and remainder. *)

From Stdlib Require Import String Ascii.
From Stdlib Require Import ZArith List Bool Lia Arith Sorted Permutation.
From Stdlib Require Import DecimalString.
Import ListNotations.
Local Open Scope Z_scope.

(** * Definitions *)

(** ** Errors, heap and the monad of methods *)

Inductive error : Type :=
| TypeError (msg : string)
| RangeError (msg : string).

Definition OutOfBounds : error := RangeError "position out of bounds".
Definition InvalidValue : error := RangeError "value must be 0-9".
Definition StructureError : error := TypeError "board should be 9x9".
Definition CellRangeError : error := RangeError "cell values must be 0-9".

Abbreviation loc := nat.
Definition heap := list (list Z).

(** The outcome of a method on a heap: it returns, or it throws, or (for
    the recursive search only) the bound on the depth of the recursion is
    reached; [solve_spec] shows that the bound of [solve] never is. *)
Inductive result (A : Type) : Type :=
| Ok (a : A) (h : heap)
| Throw (e : error) (h : heap)
| OutOfFuel.

Arguments Ok {A} a h.
Arguments Throw {A} e h.
Arguments OutOfFuel {A}.

Definition M (A : Type) : Type := heap -> result A.

Definition ret {A} (a : A) : M A := fun h => Ok a h.
Definition throw {A} (e : error) : M A := fun h => Throw e h.
Definition bind {A B} (m : M A) (k : A -> M B) : M B :=
  fun h => match m h with
           | Ok a h' => k a h'
           | Throw e h' => Throw e h'
           | OutOfFuel => OutOfFuel
           end.

Notation "x <- m ;; k" := (bind m (fun x => k))
  (at level 61, m at next level, right associativity).
Notation "m ;;; k" := (bind m (fun _ => k))
  (at level 61, right associativity).

(** [forEach l f]: [l.forEach(f)]. *)
Fixpoint forEach {A} (f : A -> M unit) (l : list A) : M unit :=
  match l with
  | [] => ret tt
  | a :: l' => f a ;;; forEach f l'
  end.

(** A loop that carries a local accumulator (the [modified] arrays, the
    [solutions] array). *)
Fixpoint foldM {A B} (f : B -> A -> M B) (l : list A) (b : B) : M B :=
  match l with
  | [] => ret b
  | a :: l' => b' <- f b a ;; foldM f l' b'
  end.

(** Heap primitives. *)
Definition read (l : loc) : M (list Z) := fun h => Ok (nth l h []) h.

Fixpoint update {A} (n : nat) (a : A) (l : list A) : list A :=
  match l, n with
  | [], _ => []
  | _ :: t, O => a :: t
  | x :: t, S n' => x :: update n' a t
  end.

Definition write (l : loc) (row : list Z) : M unit :=
  fun h => Ok tt (update l row h).

Definition alloc (row : list Z) : M loc :=
  fun h => Ok (length h) (h ++ [row]).

(** ** Pure helpers of the module *)

Definition grid := list (list Z).

Definition Boolean (v : Z) : bool := negb (v =? 0).
Definition includes (v : Z) (l : list Z) : bool := existsb (Z.eqb v) l.

(** [range a b]: the values of a loop [for (let i = a; i < b; i++)]. *)
Definition range (a b : Z) : list Z :=
  map (fun k => a + Z.of_nat k) (seq 0 (Z.to_nat (b - a))).

(** [[...Array(9).keys()]] *)
Definition keys9 : list Z := range 0 9.

(** [l[i]] and [g[i]].  The accessors check the bounds first and boards are
    9x9, so no read is out of range; there the model gives 0 and the empty
    row, which [Boolean] and [includes] treat as [undefined] is treated. *)
Definition at_ (l : list Z) (i : Z) : Z := nth (Z.to_nat i) l 0.
Definition row_at (g : grid) (i : Z) : list Z := nth (Z.to_nat i) g [].

(** [transpose]: [matrix.map((_, i) => matrix.map((row) => row[i]))] *)
Definition transpose (matrix : grid) : grid :=
  map (fun i => map (fun row => nth i row 0) matrix) (seq 0 (length matrix)).

(** [isUnique]: the set of the nonzero members is as large as their list. *)
Definition isUnique (list : list Z) : bool :=
  (length (nodup Z.eq_dec (filter Boolean list))
   =? length (filter Boolean list))%nat.

(** [difference(...arrays)]: a reduce without initial value, always called
    with at least one array. *)
Definition difference (a : list Z) (others : list (list Z)) : list Z :=
  fold_left (fun a b => filter (fun x => negb (includes x b)) a) others a.

Definition slice {A} (a b : Z) (l : list A) : list A :=
  firstn (Z.to_nat (b - a)) (skipn (Z.to_nat a) l).

(** [findIndex] and [indexOf], [-1] when nothing is found. *)
Fixpoint findIndex {A} (p : A -> bool) (l : list A) : Z :=
  match l with
  | [] => -1
  | a :: l' => if p a then 0
               else let r := findIndex p l' in if r <? 0 then -1 else r + 1
  end.

Definition indexOf (v : Z) (l : list Z) : Z := findIndex (Z.eqb v) l.

(** [filter((_, j) => j !== i)] *)
Fixpoint remove_at {A} (i : nat) (l : list A) : list A :=
  match l, i with
  | [], _ => []
  | _ :: t, O => t
  | x :: t, S i' => x :: remove_at i' t
  end.

(** The derived views, computed from a snapshot of the rows. *)
Definition columns_of (g : grid) : grid := transpose g.

Definition squares_of (g : grid) : grid :=
  map (fun i =>
         flat_map (fun row => slice ((i mod 3) * 3) ((i mod 3) * 3 + 3) row)
                  (slice ((i / 3) * 3) ((i / 3) * 3 + 3) g))
      keys9.

Definition okay_of (g : grid) : bool :=
  let rows := forallb isUnique g in
  let columns := forallb isUnique (columns_of g) in
  let squares := forallb isUnique (squares_of g) in
  rows && columns && squares.

Definition solved_of (g : grid) : bool :=
  okay_of g && forallb Boolean (concat g).

Definition candidates_of (g : grid) (x y : Z) : list Z :=
  filter (fun v => negb (includes v (row_at (squares_of g) ((y / 3) * 3 + x / 3))))
    (filter (fun v => negb (includes v (row_at (columns_of g) x)))
       (filter (fun v => negb (includes v (row_at g y)))
          (map (fun v => v + 1) keys9))).

Definition nextOpenCell_of (g : grid) : Z * Z :=
  let y := findIndex (fun row => includes 0 row) g in
  let x := if y >=? 0 then indexOf 0 (row_at g y) else -1 in
  (x, y).

(** ** The class *)

Record Sudoku : Type := mkSudoku {
  board_ : list loc;       (* #board *)
  original_ : list loc     (* #original *)
}.

Definition out_of_bounds (x y : Z) : bool :=
  (x <? 0) || (x >? 8) || (y <? 0) || (y >? 8).

(** [board.map((row) => [...row])] as a value: the rows read from the heap. *)
Definition rows_of (h : heap) (b : list loc) : grid :=
  map (fun l => nth l h []) b.

(** [#rows]: a fresh copy of the rows. *)
Definition rows (this : Sudoku) : M grid :=
  fun h => Ok (rows_of h (board_ this)) h.

(** The copy as fresh row arrays. *)
Definition copy_rows (b : list loc) : M (list loc) :=
  foldM (fun acc l => row <- read l ;; l' <- alloc row ;; ret (acc ++ [l'])) b [].

(** The constructor, for a matrix argument ([number[][]]); the textual form
    is the work of a parser in front of it and is not modelled. *)
Definition constructor (board : list loc) : M Sudoku :=
  b <- copy_rows board ;;
  g <- (fun h => Ok (rows_of h b) h) ;;
  if negb (length b =? 9)%nat || existsb (fun row => negb (length row =? 9)%nat) g
  then throw StructureError
  else if existsb (fun cell => (cell <? 0) || (cell >? 9)) (concat g)
  then throw CellRangeError
  else o <- copy_rows b ;; ret (mkSudoku b o).

Definition board (this : Sudoku) : M grid := rows this.

Definition okay (this : Sudoku) : M bool :=
  g <- rows this ;; ret (okay_of g).

Definition solved (this : Sudoku) : M bool :=
  g <- rows this ;; ret (solved_of g).

Definition candidates (this : Sudoku) (x y : Z) : M (list Z) :=
  if out_of_bounds x y then throw OutOfBounds
  else
    g <- rows this ;;
    if Boolean (at_ (row_at g y) x) then ret []
    else ret (candidates_of g x y).

Definition set (this : Sudoku) (x y value : Z) : M unit :=
  if out_of_bounds x y then throw OutOfBounds
  else if (value <? 0) || (value >? 9) then throw InvalidValue
  else
    let l := nth (Z.to_nat y) (board_ this) O in
    row <- read l ;;
    write l (update (Z.to_nat x) value row).

Definition get (this : Sudoku) (x y : Z) : M Z :=
  if out_of_bounds x y then throw OutOfBounds
  else
    row <- read (nth (Z.to_nat y) (board_ this) O) ;;
    ret (at_ row x).

Definition delete (this : Sudoku) (x y : Z) : M unit :=
  if out_of_bounds x y then throw OutOfBounds
  else
    let l := nth (Z.to_nat y) (board_ this) O in
    row <- read l ;;
    write l (update (Z.to_nat x) 0 row).

Definition nextOpenCell (this : Sudoku) : M (Z * Z) :=
  g <- rows this ;; ret (nextOpenCell_of g).

Definition clone (this : Sudoku) : M Sudoku := constructor (board_ this).

(** *** The deduction rules *)

Abbreviation cell := (Z * Z)%type.

Definition rule1 (this : Sudoku) (x y : Z) : M (list cell) :=
  foldM (fun modified i =>
    foldM (fun modified j =>
      cs <- candidates this j i ;;
      if negb (length cs =? 1)%nat then ret modified
      else set this j i (nth 0 cs 0) ;;; ret (modified ++ [(j, i)]))
      (range (x + 1) 9) modified)
    (range y 9) [].

(** [allowed.map((candidates, i) =>
       difference(candidates, ...allowed.filter((_, j) => j !== i)))] *)
Definition diffs_of (allowed : list (list Z)) : list (list Z) :=
  map (fun i => difference (nth i allowed []) (remove_at i allowed))
      (seq 0 (length allowed)).

(** [array.map((v, k) => f(v, k))] for an index-only callback that runs
    methods. *)
Definition mapM {A B} (f : A -> M B) (l : list A) : M (list B) :=
  foldM (fun acc a => b <- f a ;; ret (acc ++ [b])) l [].

Definition rule2 (this : Sudoku) (x y : Z) : M (list cell) :=
  foldM (fun modified i =>
    g <- rows this ;;
    allowed <- mapM (fun j => candidates this j i) (range 0 (Z.of_nat (length (row_at g i)))) ;;
    let diffs := diffs_of allowed in
    foldM (fun modified '(j, diff) =>
      if (length diff =? 1)%nat
      then set this j i (nth 0 diff 0) ;;; ret (modified ++ [(j, i)])
      else ret modified)
      (combine (range 0 (Z.of_nat (length diffs))) diffs) modified)
    (range y 9) [].

Definition rule3 (this : Sudoku) (x y : Z) : M (list cell) :=
  foldM (fun modified j =>
    g <- rows this ;;
    allowed <- mapM (fun i => candidates this j i)
                 (range 0 (Z.of_nat (length (row_at (columns_of g) j)))) ;;
    let diffs := diffs_of allowed in
    foldM (fun modified '(i, diff) =>
      if (length diff =? 1)%nat
      then set this j i (nth 0 diff 0) ;;; ret (modified ++ [(j, i)])
      else ret modified)
      (combine (range 0 (Z.of_nat (length diffs))) diffs) modified)
    (range x 9) [].

Definition rule4 (this : Sudoku) (x y : Z) : M (list cell) :=
  let index := (y / 3) * 3 + x / 3 in
  foldM (fun modified k =>
    let indices := map (fun v => v + 3 * k + 18 * (k / 3))
                       [0; 1; 2; 9; 10; 11; 18; 19; 20] in
    allowed <- mapM (fun i => candidates this (i mod 9) (i / 9)) indices ;;
    let diffs := diffs_of allowed in
    foldM (fun modified '(i, diff) =>
      if (length diff =? 1)%nat
      then set this (at_ indices i mod 9) (at_ indices i / 9) (nth 0 diff 0) ;;;
           ret (modified ++ [(at_ indices i mod 9, at_ indices i / 9)])
      else ret modified)
      (combine (range 0 (Z.of_nat (length diffs))) diffs) modified)
    (range index 9) [].

(** *** The search *)

(** The first half of a candidate trial: the undo log [modified] of the
    pivot and of every cell filled by rules 1-4. *)
Definition propagate (board : Sudoku) (x y : Z) : M (list cell) :=
  let modified := [(x, y)] in
  m1 <- rule1 board x y ;;
  let modified := modified ++ m1 in
  m2 <- rule2 board x y ;;
  let modified := modified ++ m2 in
  m3 <- rule3 board x y ;;
  let modified := modified ++ m3 in
  m4 <- rule4 board x y ;;
  ret (modified ++ m4).

Definition undo (board : Sudoku) (modified : list cell) : M unit :=
  forEach (fun '(x, y) => delete board x y) modified.

(** The recursive closure of [solve].  [fuel] bounds the depth of the
    recursion; [solutions] is the array the closure pushes to. *)
Fixpoint backtrack (fuel : nat) (board : Sudoku) (solutions : list Sudoku)
  : M (list Sudoku) :=
  match fuel with
  | O => fun _ => OutOfFuel
  | S fuel' =>
    ok <- okay board ;;
    if negb ok then ret solutions
    else
      sv <- solved board ;;
      if sv then c <- clone board ;; ret (solutions ++ [c])
      else
        xy <- nextOpenCell board ;;
        let '(x, y) := xy in
        if (x =? -1) || (y =? -1) then ret solutions
        else
          cs <- candidates board x y ;;
          foldM (fun solutions candidate =>
                   modified <- propagate board x y ;;
                   set board x y candidate ;;;
                   solutions <- backtrack fuel' board solutions ;;
                   undo board modified ;;;
                   ret solutions)
                cs solutions
  end.

(** One candidate trial, as run by the loop of [backtrack]. *)
Definition trial (fuel : nat) (board : Sudoku) (x y : Z)
  (solutions : list Sudoku) (candidate : Z) : M (list Sudoku) :=
  modified <- propagate board x y ;;
  set board x y candidate ;;;
  solutions <- backtrack fuel board solutions ;;
  undo board modified ;;;
  ret solutions.

(** The recursion fills a cell at each level: 82 levels are never
    exhausted on a 9x9 board. *)
Definition depth : nat := 82.

Definition solve (this : Sudoku) : M (option (list Sudoku)) :=
  ok <- okay this ;;
  if negb ok then ret None
  else
    board <- constructor (board_ this) ;;
    solutions <- backtrack depth board [] ;;
    ret (if (0 <? length solutions)%nat then Some solutions else None).

(** *** The earlier version of the search (src/index.ts) *)

Module IndexTs.

(** The closure of [solve] in the earlier file: the scan of rule 1 is
    written inline and rules 2-4 do not exist. *)
Fixpoint backtrack (fuel : nat) (board : Sudoku) (solutions : list Sudoku)
  : M (list Sudoku) :=
  match fuel with
  | O => fun _ => OutOfFuel
  | S fuel' =>
    ok <- okay board ;;
    if negb ok then ret solutions
    else
      sv <- solved board ;;
      if sv then c <- clone board ;; ret (solutions ++ [c])
      else
        xy <- nextOpenCell board ;;
        let '(x, y) := xy in
        if (x =? -1) || (y =? -1) then ret solutions
        else
          cs <- candidates board x y ;;
          foldM (fun solutions candidate =>
                   modified <-
                     foldM (fun modified i =>
                       foldM (fun modified j =>
                         cs <- candidates board j i ;;
                         if negb (length cs =? 1)%nat then ret modified
                         else set board j i (nth 0 cs 0) ;;;
                              ret (modified ++ [(j, i)]))
                         (range (x + 1) 9) modified)
                       (range y 9) [(x, y)] ;;
                   set board x y candidate ;;;
                   solutions <- backtrack fuel' board solutions ;;
                   undo board modified ;;;
                   ret solutions)
                cs solutions
  end.

Definition solve (this : Sudoku) : M (option (list Sudoku)) :=
  ok <- okay this ;;
  if negb ok then ret None
  else
    board <- constructor (board_ this) ;;
    solutions <- backtrack depth board [] ;;
    ret (if (0 <? length solutions)%nat then Some solutions else None).

End IndexTs.

(** ** Test inputs *)

(** Test inputs: a matrix literal allocated on the heap. *)
Definition matrix (g : grid) : M (list loc) :=
  foldM (fun acc row => l <- alloc row ;; ret (acc ++ [l])) g [].

Definition scenarioB : grid :=
  [ [1;0;0;0;6;0;0;0;0];
    [9;8;0;0;0;0;6;0;5];
    [0;0;0;0;0;5;0;0;1];
    [0;0;0;0;0;0;3;0;4];
    [0;6;0;0;0;0;9;0;0];
    [0;4;0;7;2;0;0;0;0];
    [0;9;3;0;7;6;1;0;0];
    [0;0;6;4;8;0;0;0;7];
    [5;0;0;9;0;2;4;6;0] ].

(** ** Abstraction: the grid held by an object *)

Definition cell_of (g : grid) (c : cell) : Z := at_ (row_at g (snd c)) (fst c).

Definition gset (g : grid) (c : cell) (v : Z) : grid :=
  update (Z.to_nat (snd c)) (update (Z.to_nat (fst c)) v (row_at g (snd c))) g.

Definition inb (c : cell) : Prop := 0 <= fst c <= 8 /\ 0 <= snd c <= 8.

Definition wf_grid (g : grid) : Prop :=
  length g = 9%nat /\ Forall (fun r => length r = 9%nat) g.

Definition in_range (g : grid) : Prop :=
  Forall (Forall (fun v => 0 <= v <= 9)) g.

(** A 9x9 grid of values in [0,9]: what the constructor accepts. *)
Definition good (g : grid) : Prop := wf_grid g /\ in_range g.

(** The row-major list of the 81 coordinates. *)
Definition row_cells (i : Z) : list cell := map (fun j => (j, i)) keys9.
Definition col_cells (j : Z) : list cell := map (fun i => (j, i)) keys9.
Definition box_cells (k : Z) : list cell :=
  map (fun v => let i := v + 3 * k + 18 * (k / 3) in (i mod 9, i / 9))
      [0; 1; 2; 9; 10; 11; 18; 19; 20].
Definition all_cells : list cell := flat_map row_cells keys9.

Definition wf_obj (h : heap) (o : Sudoku) : Prop :=
  NoDup (board_ o) /\ Forall (fun l => (l < length h)%nat) (board_ o).

(** What a method may do to the heap: allocate, and write rows of [o]. *)
Definition frame (o : Sudoku) (h h' : heap) : Prop :=
  (length h <= length h')%nat /\
  forall l, (l < length h)%nat -> ~ In l (board_ o) -> nth l h' [] = nth l h [].

(** ** The judgement of a method run, and tactics *)

Ltac list9 l H :=
  do 9 (destruct l as [|? l]; [discriminate H|]);
  destruct l; [|discriminate H]; clear H.

Definition hoare (o : Sudoku) (g : grid) {A} (m : M A) (a : A) (g' : grid) : Prop :=
  forall h, wf_obj h o -> rows_of h (board_ o) = g ->
    exists h', m h = Ok a h' /\ wf_obj h' o /\ rows_of h' (board_ o) = g'
               /\ frame o h h'.

(** The candidate set of a cell, as the method computes it. *)
Definition cands (g : grid) (c : cell) : list Z :=
  if Boolean (cell_of g c) then [] else candidates_of g (fst c) (snd c).

Ltac cases9 k :=
  let C := fresh "C" in
  assert (C : k = 0 \/ k = 1 \/ k = 2 \/ k = 3 \/ k = 4 \/ k = 5 \/ k = 6
              \/ k = 7 \/ k = 8) by lia;
  repeat destruct C as [C|C]; subst k.

(** The box of a cell. *)
Definition box_of (c : cell) : Z := (snd c / 3) * 3 + fst c / 3.

(** A new object from a matrix literal, on the empty heap. *)
Definition new (g : grid) : result Sudoku :=
  (input <- matrix g ;; constructor input) [].

(** ** The rules as functions of the grid *)

(** One conditional write of a rule: [vs] is the list whose length decides,
    the state is the grid together with the [modified] log. *)
Definition fill (st : grid * list cell) (c : cell) (vs : list Z)
  : grid * list cell :=
  if (length vs =? 1)%nat
  then (gset (fst st) c (nth 0 vs 0), snd st ++ [c])
  else st.

Definition naked_step (st : grid * list cell) (c : cell) : grid * list cell :=
  fill st c (cands (fst st) c).

Definition rule1_cells (x y : Z) : list cell :=
  flat_map (fun i => map (fun j => (j, i)) (range (x + 1) 9)) (range y 9).

Definition rule1_pure (g : grid) (x y : Z) : grid * list cell :=
  fold_left naked_step (rule1_cells x y) (g, []).

(** One group (a row, a column or a box) of rules 2-4: the candidates of
    the group are computed once, then every cell whose difference is a
    singleton is written. *)
Definition hidden_pass (st : grid * list cell) (cells : list cell)
  : grid * list cell :=
  fold_left (fun st cd => fill st (fst cd) (snd cd))
            (combine cells (diffs_of (map (cands (fst st)) cells))) st.

Definition rule2_pure (g : grid) (x y : Z) : grid * list cell :=
  fold_left hidden_pass (map row_cells (range y 9)) (g, []).

Definition rule3_pure (g : grid) (x y : Z) : grid * list cell :=
  fold_left hidden_pass (map col_cells (range x 9)) (g, []).

Definition rule4_pure (g : grid) (x y : Z) : grid * list cell :=
  fold_left hidden_pass (map box_cells (range ((y / 3) * 3 + x / 3) 9)) (g, []).

(** ** Groups, completions and propagation steps *)

(** The 27 groups. *)
Definition is_group (grp : list cell) : Prop :=
  exists k, 0 <= k <= 8 /\
            (grp = row_cells k \/ grp = col_cells k \/ grp = box_cells k).

(** [S] agrees with [g] on every filled cell of [g]. *)
Definition extends (g S : grid) : Prop :=
  forall c, inb c -> cell_of g c <> 0 -> cell_of S c = cell_of g c.

(** A solved 9x9 grid of values in [0,9]. *)
Definition solution (S : grid) : Prop := good S /\ solved_of S = true.

(** From [g] to [g'] with log [m]: only empty cells are written, all of them
    are logged, and no completion is lost. *)
Definition step_ok (g g' : grid) (m : list cell) : Prop :=
  good g' /\ Forall inb m /\
  (forall c, In c m -> cell_of g c = 0) /\
  (forall c, inb c -> ~ In c m -> cell_of g' c = cell_of g c) /\
  (forall S, solution S -> extends g S -> extends g' S).

(** A write of [v] at [c] that every completion of [g0] agrees with. *)
Definition justified (g0 : grid) (c : cell) (v : Z) : Prop :=
  inb c /\ cell_of g0 c = 0 /\ 1 <= v <= 9 /\
  forall S, solution S -> extends g0 S -> cell_of S c = v.

Definition trans (st st' : grid * list cell) : Prop :=
  exists m, snd st' = snd st ++ m /\ step_ok (fst st) (fst st') m.

(** ** A candidate trial on the grid *)

Definition propagate_pure (g : grid) (x y : Z) : grid * list cell :=
  let r1 := rule1_pure g x y in
  let r2 := rule2_pure (fst r1) x y in
  let r3 := rule3_pure (fst r2) x y in
  let r4 := rule4_pure (fst r3) x y in
  (fst r4, (x, y) :: snd r1 ++ snd r2 ++ snd r3 ++ snd r4).

Definition clear_cells (g : grid) (m : list cell) : grid :=
  fold_left (fun g c => gset g c 0) m g.

(** The number of empty cells. *)
Definition zeros (g : grid) : nat :=
  length (filter (fun c => cell_of g c =? 0) all_cells).

(** The grid of a trial at the recursive call. *)
Definition trial_grid (g : grid) (x y candidate : Z) : grid :=
  gset (fst (propagate_pure g x y)) (x, y) candidate.

(** ** Outcome of the search *)

(** New solution objects: their rows were allocated between [h] and [h']. *)
Definition fresh_objs (h h' : heap) (news : list Sudoku) : Prop :=
  Forall (fun s => Forall (fun l => (length h <= l < length h')%nat) (board_ s))
         news.

Definition grids_of (h : heap) (sols : list Sudoku) : list grid :=
  map (fun s => rows_of h (board_ s)) sols.

(** The outcome of a search from grid [g] on heap [h]: it returns, the grid
    of [o] is [g] again, and the grids pushed are the completions of [g]
    that satisfy [P]. *)
Definition bt_post (o : Sudoku) (g : grid) (P : grid -> Prop) (h : heap)
  (sols : list Sudoku) (r : result (list Sudoku)) : Prop :=
  exists news h',
    r = Ok (sols ++ news) h' /\ wf_obj h' o /\ rows_of h' (board_ o) = g /\
    frame o h h' /\ fresh_objs h h' news /\
    forall S, In S (grids_of h' news) <-> solution S /\ extends g S /\ P S.

Ltac run R := unfold bind at 1; rewrite R; cbv beta iota.

(** ** Example boards *)

Definition c10_grid : grid :=
  [ [5;0;0;0;0;0;0;0;0];
    [0;0;0;0;0;0;0;0;0];
    [0;0;0;0;0;0;0;0;0];
    [0;0;0;0;0;0;0;0;0];
    [0;0;0;0;0;0;0;0;0];
    [0;0;0;0;0;0;0;0;0];
    [0;0;0;0;0;0;0;0;0];
    [0;0;0;0;0;0;0;0;0];
    [0;0;0;0;0;0;0;0;0] ].

Definition c10_obj : Sudoku := mkSudoku (seq 9 9) (seq 18 9).
Definition c10_heap : heap := c10_grid ++ c10_grid ++ c10_grid.

(** The heap that holds the matrix literal of scenario B at addresses 0..8. *)
Definition scenarioB_heap : heap := scenarioB.
Definition scenarioB_input : list loc := seq 0 9.

Definition scenarioB_obj : Sudoku := mkSudoku (seq 9 9) (seq 18 9).
Definition scenarioB_heap3 : heap := scenarioB ++ scenarioB ++ scenarioB.

(** ** Rule 1 as a scan *)

(** A scan, in the words of the specification: the cells are visited in
    the given order, and a visited cell is assigned exactly when its
    candidate set has exactly one member at that moment. *)
Definition scan_step (st : grid * list cell) (c : cell) : grid * list cell :=
  match cands (fst st) c with
  | [v] => (gset (fst st) c v, snd st ++ [c])
  | _ => st
  end.

Definition scan (cells : list cell) (g : grid) : grid * list cell :=
  fold_left scan_step cells (g, []).

(** The cells the specification says are scanned: the rest of row [y] after
    the pivot, then all nine columns of every later row. *)
Definition claimed_scan (x y : Z) : list cell :=
  filter (fun c => (y <? snd c) || ((snd c =? y) && (x <? fst c))) all_cells.

(** The cells the loops visit: columns after [x], in every row from [y]. *)
Definition actual_scan (x y : Z) : list cell :=
  filter (fun c => (y <=? snd c) && (x <? fst c)) all_cells.

(** Row-major order of cells, and its boolean test. *)
Definition row_major (c c' : cell) : Prop :=
  snd c < snd c' \/ (snd c = snd c' /\ fst c < fst c').

Definition row_majorb (c c' : cell) : bool :=
  (snd c <? snd c') || ((snd c =? snd c') && (fst c <? fst c')).

Fixpoint sortedb (l : list cell) : bool :=
  match l with
  | [] => true
  | c :: l' => forallb (row_majorb c) l' && sortedb l'
  end.

Definition c3_grid : grid :=
  [ [0;0;0;0;0;0;0;0;0];
    [0;2;3;4;5;6;7;8;9];
    [0;0;0;0;0;0;0;0;0];
    [0;0;0;0;0;0;0;0;0];
    [0;0;0;0;0;0;0;0;0];
    [0;0;0;0;0;0;0;0;0];
    [0;0;0;0;0;0;0;0;0];
    [0;0;0;0;0;0;0;0;0];
    [0;0;0;0;0;0;0;0;0] ].

Definition c3_obj : Sudoku := mkSudoku (seq 9 9) (seq 18 9).
Definition c3_heap : heap := c3_grid ++ c3_grid ++ c3_grid.

(** ** Running a rule twice *)


Definition c5_grid : grid :=
  [ [0;0;0;4;5;6;7;8;9];
    [0;0;0;0;0;0;0;0;0];
    [0;0;0;0;0;0;0;0;0];
    [0;3;0;0;0;0;0;0;0];
    [0;0;0;0;0;0;0;0;0];
    [0;0;0;0;0;0;0;0;0];
    [0;0;3;0;0;0;0;0;0];
    [0;0;2;0;0;0;0;0;0];
    [0;0;0;0;0;0;0;0;0] ].

Definition c5_obj : Sudoku := mkSudoku (seq 9 9) (seq 18 9).
Definition c5_heap : heap := c5_grid ++ c5_grid ++ c5_grid.

(** ** Rule 2 in the words of the specification *)

(** Rule 2 in the words of the specification.  For a cell [(j, i)]: the
    union of the candidate sets of the other cells of row [i], and the
    difference of its own candidate set with that union. *)
Definition others_union (g : grid) (i j : Z) : list Z :=
  flat_map (fun j' => cands g (j', i)) (filter (fun j' => negb (j' =? j)) keys9).

Definition row_difference (g : grid) (i j : Z) : list Z :=
  filter (fun v => negb (includes v (others_union g i j))) (cands g (j, i)).

(** One row: every cell whose difference is a single value receives that
    value, the other cells keep theirs; the cells written are logged from
    left to right. *)
Definition rule2_row_spec (st : grid * list cell) (i : Z) : grid * list cell :=
  let g := fst st in
  (update (Z.to_nat i)
          (map (fun j => match row_difference g i j with
                         | [v] => v
                         | _ => cell_of g (j, i)
                         end) keys9) g,
   snd st ++ filter (fun c => (length (row_difference g i (fst c)) =? 1)%nat)
                    (row_cells i)).

(** The rows from [y] on, one after the other. *)
Definition rule2_spec (g : grid) (y : Z) : grid * list cell :=
  fold_left rule2_row_spec (range y 9) (g, []).

(** ** The run of scenario B *)

(** The run of [solve] on the board of scenario B. *)
Definition scenarioB_result : result (option (list Sudoku)) :=
  Eval vm_compute in solve scenarioB_obj scenarioB_heap3.

Definition scenarioB_sols : list Sudoku :=
  match scenarioB_result with Ok (Some l) _ => l | _ => [] end.

Definition scenarioB_final : heap :=
  match scenarioB_result with Ok _ h => h | Throw _ h => h | OutOfFuel => [] end.






(** ** Definitions for the further properties *)


(** ** Further properties: what a rule does *)

(** A pass from [g] to [g'] with log [m]: as [step_ok], and moreover each
    logged cell is logged once and holds a value of 1..9 afterwards, and a
    valid grid stays valid. *)
Definition step_full (g g' : grid) (m : list cell) : Prop :=
  step_ok g g' m /\ NoDup m /\
  (forall c, In c m -> 1 <= cell_of g' c <= 9) /\
  (okay_of g = true -> okay_of g' = true).

Definition trans_full (st st' : grid * list cell) : Prop :=
  exists m, snd st' = snd st ++ m /\ step_full (fst st) (fst st') m.

(** [v] is a hidden single of [c] in the group [grp] of the grid [g0]. *)
Definition hidden_single (g0 : grid) (grp : list cell) (c : cell) (v : Z) : Prop :=
  In c grp /\ In v (cands g0 c) /\
  forall c', In c' grp -> c' <> c -> ~ In v (cands g0 c').

(** What a rule does, for the caller: it returns its log [m]; the logged
    cells are distinct in-bounds cells that were empty and now hold a value
    of 1..9; no other cell changed. *)
Definition log_exact (rule : Sudoku -> Z -> Z -> M (list cell))
  (o : Sudoku) (h : heap) (x y : Z) : Prop :=
  exists m h',
    rule o x y h = Ok m h' /\
    NoDup m /\
    (forall c, In c m ->
       inb c /\ cell_of (rows_of h (board_ o)) c = 0 /\
       1 <= cell_of (rows_of h' (board_ o)) c <= 9) /\
    (forall c, inb c -> ~ In c m ->
       cell_of (rows_of h' (board_ o)) c = cell_of (rows_of h (board_ o)) c).

(** A rule never guesses: every solved grid that agrees with the board
    before the rule agrees with the board after it. *)
Definition forced (rule : Sudoku -> Z -> Z -> M (list cell))
  (o : Sudoku) (h : heap) (x y : Z) : Prop :=
  exists m h',
    rule o x y h = Ok m h' /\
    forall S, solution S -> extends (rows_of h (board_ o)) S ->
              extends (rows_of h' (board_ o)) S.

(** A rule keeps a valid board valid. *)
Definition keeps_okay (rule : Sudoku -> Z -> Z -> M (list cell))
  (o : Sudoku) (h : heap) (x y : Z) : Prop :=
  exists m h',
    rule o x y h = Ok m h' /\
    (okay o h = Ok true h -> okay o h' = Ok true h').

(** ** Further properties: the solutions of a search *)

(** The order of two grids read row by row: at the first cell where they
    differ, the first grid holds the smaller value. *)
Definition grid_lt (S S' : grid) : Prop :=
  exists c, inb c /\ cell_of S c < cell_of S' c /\
            forall c', inb c' -> row_major c' c -> cell_of S c' = cell_of S' c'.

(** As [bt_post], and moreover: the grids pushed are pairwise different and
    in increasing order, and the objects pushed share no row. *)
Definition bt_post_nd (o : Sudoku) (g : grid) (P : grid -> Prop) (h : heap)
  (sols : list Sudoku) (r : result (list Sudoku)) : Prop :=
  exists news h',
    r = Ok (sols ++ news) h' /\ wf_obj h' o /\ rows_of h' (board_ o) = g /\
    frame o h h' /\ fresh_objs h h' news /\
    NoDup (flat_map board_ news) /\
    NoDup (grids_of h' news) /\
    StronglySorted grid_lt (grids_of h' news) /\
    forall S, In S (grids_of h' news) <-> solution S /\ extends g S /\ P S.

(** What a run of [solve] leaves: the board as it was, and either no
    completion or the list of the completions, once each and in increasing
    order, in objects of their own. *)
Definition solve_post (o : Sudoku) (h : heap)
  (res : result (option (list Sudoku))) : Prop :=
  exists r h',
    res = Ok r h' /\
    wf_obj h' o /\ rows_of h' (board_ o) = rows_of h (board_ o) /\
    match r with
    | None => forall S, ~ (solution S /\ extends (rows_of h (board_ o)) S)
    | Some sols =>
        sols <> [] /\
        Forall (fun s => Forall (fun l => (length h <= l < length h')%nat)
                                (board_ s)) sols /\
        NoDup (flat_map board_ sols) /\
        NoDup (grids_of h' sols) /\
        StronglySorted grid_lt (grids_of h' sols) /\
        forall S, In S (grids_of h' sols) <->
                  solution S /\ extends (rows_of h (board_ o)) S
    end.


(** ** The two versions of the search, by parts *)

(** One candidate trial, for the propagation [scan] that the version runs
    and for the recursive call [bt]. *)
Definition trial_with (scan : Sudoku -> Z -> Z -> M (list cell))
  (bt : Sudoku -> list Sudoku -> M (list Sudoku))
  (board : Sudoku) (x y : Z) (solutions : list Sudoku) (candidate : Z)
  : M (list Sudoku) :=
  modified <- scan board x y ;;
  set board x y candidate ;;;
  solutions <- bt board solutions ;;
  undo board modified ;;;
  ret solutions.

(** One call of the recursive closure, for the loop body [tr]. *)
Definition search_body
  (tr : Sudoku -> Z -> Z -> list Sudoku -> Z -> M (list Sudoku))
  (board : Sudoku) (solutions : list Sudoku) : M (list Sudoku) :=
  ok <- okay board ;;
  if negb ok then ret solutions
  else
    sv <- solved board ;;
    if sv then c <- clone board ;; ret (solutions ++ [c])
    else
      xy <- nextOpenCell board ;;
      let '(x, y) := xy in
      if (x =? -1) || (y =? -1) then ret solutions
      else cs <- candidates board x y ;; foldM (tr board x y) cs solutions.

(** The body of [solve], for the search [bt]. *)
Definition solve_with (bt : nat -> Sudoku -> list Sudoku -> M (list Sudoku))
  (this : Sudoku) : M (option (list Sudoku)) :=
  ok <- okay this ;;
  if negb ok then ret None
  else
    board <- constructor (board_ this) ;;
    solutions <- bt depth board [] ;;
    ret (if (0 <? length solutions)%nat then Some solutions else None).



(** ** The textual form of a board *)

(** A string is the list of its characters; the characters here are the
    code units below 256. *)
Definition newline : ascii := "010"%char.

Definition is_digit (c : ascii) : bool :=
  (48 <=? nat_of_ascii c)%nat && (nat_of_ascii c <=? 57)%nat.

(** The white space that [trim] removes. *)
Definition is_space (c : ascii) : bool :=
  existsb (Nat.eqb (nat_of_ascii c)) [9; 10; 11; 12; 13; 32; 160]%nat.

(** [.replace(/ /g, "0")] *)
Definition spaces_to_zero (s : list ascii) : list ascii :=
  map (fun c => if Ascii.eqb c " "%char then "0"%char else c) s.

(** [.replace(/[^0-9\n]/g, "")] *)
Definition strip (s : list ascii) : list ascii :=
  filter (fun c => is_digit c || Ascii.eqb c newline) s.

Fixpoint trim_start (s : list ascii) : list ascii :=
  match s with
  | [] => []
  | c :: t => if is_space c then trim_start t else s
  end.

(** [.trim()] *)
Definition trim (s : list ascii) : list ascii :=
  rev (trim_start (rev (trim_start s))).

(** [.split("\n")]: the empty string gives one empty line. *)
Fixpoint split_lines (s : list ascii) : list (list ascii) :=
  match s with
  | [] => [[]]
  | c :: t =>
      if Ascii.eqb c newline then [] :: split_lines t
      else match split_lines t with
           | l :: ls => (c :: l) :: ls
           | [] => [[c]]
           end
  end.

(** [Number] of a one-character string that holds a digit; the characters
    of a line are digits, see [parse_digits]. *)
Definition Number (c : ascii) : Z := Z.of_nat (nat_of_ascii c) - 48.

(** The matrix that the constructor reads from a string. *)
Definition parse (board : list ascii) : grid :=
  map (fun line => map Number line)
      (split_lines (trim (strip (spaces_to_zero board)))).

(** The constructor for a string argument, which [constructor] leaves out:
    the arrays made from the text are the board, without a copy. *)
Definition constructor_text (board : list ascii) : M Sudoku :=
  b <- matrix (parse board) ;;
  g <- (fun h => Ok (rows_of h b) h) ;;
  if negb (length b =? 9)%nat || existsb (fun row => negb (length row =? 9)%nat) g
  then throw StructureError
  else if existsb (fun cell => (cell <? 0) || (cell >? 9)) (concat g)
  then throw CellRangeError
  else o <- copy_rows b ;; ret (mkSudoku b o).

(** [String(v)] of an integer. *)
Definition String_ (v : Z) : list ascii :=
  list_ascii_of_string (NilZero.string_of_int (Z.to_int v)).

(** [l.join(sep)] *)
Fixpoint join (sep : list ascii) (l : list (list ascii)) : list ascii :=
  match l with
  | [] => []
  | [a] => a
  | a :: t => a ++ sep ++ join sep t
  end.

(** [toString()], for the detail "none", which is the default. *)
Definition toString_none (this : Sudoku) : M (list ascii) :=
  g <- rows this ;;
  ret (join [newline] (map (fun row => join [] (map String_ row)) g)).

(** ** The board editor of the script *)

(** [+input.rl.line.at(-1).trim() || 0], for the last character of the
    input line: a digit gives its value, anything else gives 0. *)
Definition typed (last : ascii) : Z := if is_digit last then Number last else 0.

(** The [keypress] handler of the editor: [cursor] holds the variables [x]
    and [y] of the closure, [key] is the name of the key and [last] the last
    character of the input line.  The handler returns the new cursor; what
    it draws is not modelled. *)
Definition keypress (board : Sudoku) (key : string) (last : ascii)
  (cursor : Z * Z) : M (Z * Z) :=
  let '(x, y) := cursor in
  let '(x, y) :=
    if (key =? "left")%string
    then if x >? 0 then (x - 1, y)
         else if (x <=? 0) && (y >? 0) then (8, y - 1) else (x, y)
    else (x, y) in
  let '(x, y) :=
    if (key =? "right")%string
    then if x <? 8 then (x + 1, y)
         else if (x >=? 8) && (y <? 8) then (0, y + 1) else (x, y)
    else (x, y) in
  let y := if (key =? "up")%string && (y >? 0) then y - 1 else y in
  let y := if (key =? "down")%string && (y <? 8) then y + 1 else y in
  c <- (if (key =? "number")%string || (key =? "space")%string
        then set board x y (typed last) ;;;
             let x := x + 1 in
             let '(x, y) :=
               if (x >? 8) && (y <? 8) then (0, y + 1) else (x, y) in
             ret (if x >? 8 then 8 else x, y)
        else ret (x, y)) ;;
  let '(x, y) := c in
  if (key =? "backspace")%string
  then delete board x y ;;;
       let x := x - 1 in
       let '(x, y) := if (x <? 0) && (y >? 0) then (8, y - 1) else (x, y) in
       ret (if x <? 0 then 0 else x, y)
  else ret (x, y).

(** The position of a cell in the row-by-row reading of the board. *)
Definition index_of (c : cell) : Z := 9 * snd c + fst c.

(** Where a key takes the cursor. *)
Definition cursor_after (key : string) (c : cell) : Z :=
  if existsb (String.eqb key) ["right"; "number"; "space"]%string
  then Z.min 80 (index_of c + 1)
  else if existsb (String.eqb key) ["left"; "backspace"]%string
  then Z.max 0 (index_of c - 1)
  else if (key =? "up")%string
  then (if snd c >? 0 then index_of c - 9 else index_of c)
  else if (key =? "down")%string
  then (if snd c <? 8 then index_of c + 9 else index_of c)
  else index_of c.

(** What a key writes. *)
Definition grid_after (key : string) (last : ascii) (g : grid) (c : cell)
  : grid :=
  if existsb (String.eqb key) ["number"; "space"]%string
  then gset g c (typed last)
  else if (key =? "backspace")%string then gset g c 0
  else g.

(** The digit keys pressed one after the other, each with its digit as the
    last character of the line. *)
Definition type_digits (board : Sudoku) (digits : list ascii) (cursor : Z * Z)
  : M (Z * Z) :=
  foldM (fun cursor d => keypress board "number" d cursor) digits cursor.

(** Case analysis on the tests of the handler. *)
Ltac cursor_cases :=
  repeat match goal with
         | |- context [if ?b then _ else _] => destruct b eqn:?
         end.

(** * Proofs *)

(** ** Lists *)

Lemma update_length {A} (n : nat) (a : A) l : length (update n a l) = length l.
Proof. revert n; induction l; destruct n; simpl; auto. Qed.

Lemma nth_update_eq {A} (n : nat) (a d : A) l :
  (n < length l)%nat -> nth n (update n a l) d = a.
Proof.
  revert n; induction l; destruct n; simpl; intros; try lia; auto.
  apply IHl; lia.
Qed.

Lemma nth_update_neq {A} (n m : nat) (a d : A) l :
  n <> m -> nth m (update n a l) d = nth m l d.
Proof.
  revert n m; induction l; destruct n, m; simpl; intros; try congruence; auto.
Qed.

Lemma update_same {A} (n : nat) (d : A) l :
  update n (nth n l d) l = l.
Proof.
  revert n; induction l; destruct n; simpl; intros; auto. f_equal; auto.
Qed.

Lemma range_length a b : length (range a b) = Z.to_nat (b - a).
Proof. unfold range. now rewrite length_map, length_seq. Qed.

Lemma in_range_iff a b v : In v (range a b) <-> a <= v < b.
Proof.
  unfold range. rewrite in_map_iff. split.
  - intros (k & <- & Hk). apply in_seq in Hk. lia.
  - intros H. exists (Z.to_nat (v - a)). split; [lia|]. apply in_seq. lia.
Qed.

Lemma includes_true v l : includes v l = true <-> In v l.
Proof.
  unfold includes. rewrite existsb_exists. split.
  - intros (x & Hx & E). apply Z.eqb_eq in E. now subst.
  - intros H. exists v. split; auto. apply Z.eqb_refl.
Qed.

Lemma includes_false v l : includes v l = false <-> ~ In v l.
Proof.
  rewrite <- includes_true. destruct (includes v l); split; congruence.
Qed.

(** ** Shape of a 9x9 grid *)

Lemma wf_grid_rows g :
  wf_grid g ->
  g = map (fun i => map (cell_of g) (row_cells i)) keys9.
Proof.
  intros [H F].
  list9 g H.
  repeat match goal with
         | H : Forall _ (_ :: _) |- _ => inversion H; clear H; subst
         end.
  repeat match goal with
         | H : length ?r = 9%nat |- _ => list9 r H
         end.
  reflexivity.
Qed.

Lemma wf_grid_columns g :
  wf_grid g ->
  columns_of g = map (fun j => map (cell_of g) (col_cells j)) keys9.
Proof.
  intros [H F].
  list9 g H.
  repeat match goal with
         | H : Forall _ (_ :: _) |- _ => inversion H; clear H; subst
         end.
  repeat match goal with
         | H : length ?r = 9%nat |- _ => list9 r H
         end.
  reflexivity.
Qed.

Lemma wf_grid_squares g :
  wf_grid g ->
  squares_of g = map (fun k => map (cell_of g) (box_cells k)) keys9.
Proof.
  intros [H F].
  list9 g H.
  repeat match goal with
         | H : Forall _ (_ :: _) |- _ => inversion H; clear H; subst
         end.
  repeat match goal with
         | H : length ?r = 9%nat |- _ => list9 r H
         end.
  reflexivity.
Qed.

(** ** Reading and writing one cell of a grid *)

Lemma wf_grid_row g i :
  wf_grid g -> 0 <= i <= 8 -> length (row_at g i) = 9%nat.
Proof.
  intros [H F] Hi. unfold row_at.
  rewrite Forall_forall in F. apply F. apply nth_In. lia.
Qed.

Lemma cell_of_gset_eq g c v :
  wf_grid g -> inb c -> cell_of (gset g c v) c = v.
Proof.
  intros W [Hx Hy]. unfold cell_of, gset, at_, row_at.
  rewrite nth_update_eq by (destruct W; lia).
  apply nth_update_eq.
  fold (row_at g (snd c)). rewrite wf_grid_row; auto; lia.
Qed.

Lemma cell_of_gset_neq g c c' v :
  inb c -> inb c' -> c <> c' -> cell_of (gset g c v) c' = cell_of g c'.
Proof.
  intros [Hx Hy] [Hx' Hy'] N. unfold cell_of, gset, at_, row_at.
  destruct (Z.eq_dec (snd c) (snd c')) as [E|E].
  - rewrite E.
    destruct (Nat.lt_ge_cases (Z.to_nat (snd c')) (length g)) as [L|L].
    + rewrite nth_update_eq by auto.
      apply nth_update_neq. intros E'.
      apply N. destruct c, c'; simpl in *. f_equal; lia.
    + rewrite (nth_overflow (update _ _ g)) by (now rewrite update_length).
      now rewrite (nth_overflow g) by auto.
  - rewrite nth_update_neq; auto. lia.
Qed.

Lemma gset_wf g c v : wf_grid g -> wf_grid (gset g c v).
Proof.
  intros [H F]. unfold gset. split.
  - now rewrite update_length.
  - rewrite Forall_forall in *. intros r Hr.
    apply In_nth with (d := []) in Hr. destruct Hr as (n & Hn & <-).
    rewrite update_length in Hn.
    destruct (Nat.eq_dec (Z.to_nat (snd c)) n) as [<-|N].
    + rewrite nth_update_eq by auto. rewrite update_length.
      apply F. apply nth_In. auto.
    + rewrite nth_update_neq by auto. apply F. now apply nth_In.
Qed.

Lemma Forall_update {A} (P : A -> Prop) n a l :
  Forall P l -> P a -> Forall P (update n a l).
Proof.
  intros F Pa. revert n. induction F; destruct n; simpl; auto.
Qed.

Lemma gset_in_range g c v :
  in_range g -> 0 <= v <= 9 -> in_range (gset g c v).
Proof.
  intros R Hv. unfold gset, in_range. apply Forall_update; auto.
  apply Forall_update; auto.
  unfold row_at.
  destruct (Nat.lt_ge_cases (Z.to_nat (snd c)) (length g)) as [L|L].
  - unfold in_range in R. rewrite Forall_forall in R. apply R. now apply nth_In.
  - rewrite nth_overflow; auto.
Qed.

Lemma gset_good g c v : good g -> 0 <= v <= 9 -> good (gset g c v).
Proof. intros [W R] Hv. split; [now apply gset_wf | now apply gset_in_range]. Qed.

Lemma in_row_cells c i : In c (row_cells i) <-> snd c = i /\ 0 <= fst c <= 8.
Proof.
  unfold row_cells, keys9. rewrite in_map_iff. split.
  - intros (j & <- & Hj). apply in_range_iff in Hj. simpl. lia.
  - intros [<- Hx]. exists (fst c). split; [now destruct c|].
    apply in_range_iff. lia.
Qed.

Lemma in_all_cells c : In c all_cells <-> inb c.
Proof.
  unfold all_cells. rewrite in_flat_map. split.
  - intros (i & Hi & Hc). apply in_row_cells in Hc.
    apply in_range_iff in Hi. unfold inb. lia.
  - intros [Hx Hy]. exists (snd c). split.
    + apply in_range_iff. lia.
    + apply in_row_cells. auto.
Qed.

(** Two 9x9 grids with the same 81 cells are equal. *)
Lemma grid_ext g g' :
  wf_grid g -> wf_grid g' ->
  (forall c, inb c -> cell_of g c = cell_of g' c) -> g = g'.
Proof.
  intros W W' E.
  rewrite (wf_grid_rows _ W), (wf_grid_rows _ W').
  apply map_ext_in. intros i Hi. apply map_ext_in. intros c Hc.
  apply E. apply in_row_cells in Hc. apply in_range_iff in Hi.
  unfold inb. lia.
Qed.

(** ** The methods on the abstract grid *)

Lemma nth_map_at {A B} (f : A -> B) l k d d' :
  (k < length l)%nat -> nth k (map f l) d = f (nth k l d').
Proof.
  revert k; induction l; destruct k; simpl; intros; try lia; auto.
  apply IHl; lia.
Qed.

Lemma rows_of_update h b n r :
  NoDup b -> (n < length b)%nat -> (nth n b O < length h)%nat ->
  rows_of (update (nth n b O) r h) b = update n r (rows_of h b).
Proof.
  intros ND Hn Hl. unfold rows_of.
  apply nth_ext with (d := []) (d' := []).
  - now rewrite update_length, !length_map.
  - intros k Hk. rewrite length_map in Hk.
    rewrite (nth_map_at _ _ _ [] O) by auto.
    destruct (Nat.eq_dec n k) as [<-|N].
    + rewrite (nth_update_eq n r []) by (now rewrite length_map).
      now apply nth_update_eq.
    + rewrite (nth_update_neq _ _ r [] _ N).
      rewrite (nth_map_at _ _ _ [] O) by auto.
      apply nth_update_neq.
      intros E. apply N. eapply NoDup_nth; eauto.
Qed.

Lemma frame_refl o h : frame o h h.
Proof. split; auto. Qed.

Lemma frame_trans o h1 h2 h3 : frame o h1 h2 -> frame o h2 h3 -> frame o h1 h3.
Proof.
  intros [L1 F1] [L2 F2]. split; [lia|].
  intros l Hl N. rewrite F2 by (auto; lia). now apply F1.
Qed.

Lemma hoare_ret o g {A} (a : A) : hoare o g (ret a) a g.
Proof.
  intros h W E. exists h.
  split; [reflexivity|]. split; [assumption|]. split; [assumption|].
  apply frame_refl.
Qed.

Lemma hoare_bind o g g1 g2 {A B} (m : M A) (k : A -> M B) a b :
  hoare o g m a g1 -> hoare o g1 (k a) b g2 -> hoare o g (bind m k) b g2.
Proof.
  intros H1 H2 h W E.
  destruct (H1 h W E) as (h1 & R1 & W1 & E1 & F1).
  destruct (H2 h1 W1 E1) as (h2 & R2 & W2 & E2 & F2).
  exists h2. unfold bind. rewrite R1.
  split; [assumption|]. split; [assumption|]. split; [assumption|].
  apply (frame_trans _ _ _ _ F1 F2).
Qed.

Lemma hoare_rows o g : hoare o g (rows o) g g.
Proof.
  intros h W E. exists h. unfold rows. rewrite E.
  split; [reflexivity|]. split; [assumption|]. split; [reflexivity|].
  apply frame_refl.
Qed.

Lemma inb_out_of_bounds x y : inb (x, y) -> out_of_bounds x y = false.
Proof. unfold inb, out_of_bounds. simpl. lia. Qed.


Lemma hoare_write_cell o g x y v :
  wf_grid g -> inb (x, y) ->
  hoare o g (row <- read (nth (Z.to_nat y) (board_ o) O) ;;
             write (nth (Z.to_nat y) (board_ o) O) (update (Z.to_nat x) v row))
        tt (gset g (x, y) v).
Proof.
  intros Wg [Hx Hy] h [ND FL] E. simpl in Hx, Hy.
  assert (Lb : length (board_ o) = 9%nat).
  { destruct Wg as [Lg _]. rewrite <- E in Lg. unfold rows_of in Lg.
    now rewrite length_map in Lg. }
  assert (Ll : (nth (Z.to_nat y) (board_ o) O < length h)%nat).
  { rewrite Forall_forall in FL. apply FL. apply nth_In. lia. }
  eexists. split; [reflexivity|]. split; [|split].
  - split; [assumption|].
    eapply Forall_impl; [|exact FL]. intros l Hl. simpl.
    now rewrite update_length.
  - rewrite rows_of_update by (auto; lia).
    unfold gset. simpl. rewrite E. f_equal. f_equal.
    rewrite <- E. unfold row_at, rows_of.
    now rewrite (nth_map_at _ _ _ [] O) by lia.
  - split.
    + rewrite update_length. lia.
    + intros l Hl N. apply nth_update_neq. intros <-. apply N.
      apply nth_In. lia.
Qed.

Lemma hoare_set o g x y v :
  wf_grid g -> inb (x, y) -> 0 <= v <= 9 ->
  hoare o g (set o x y v) tt (gset g (x, y) v).
Proof.
  intros Wg Hc Hv. unfold set.
  rewrite inb_out_of_bounds by auto.
  replace ((v <? 0) || (v >? 9)) with false by lia.
  now apply hoare_write_cell.
Qed.

Lemma hoare_delete o g x y :
  wf_grid g -> inb (x, y) ->
  hoare o g (delete o x y) tt (gset g (x, y) 0).
Proof.
  intros Wg Hc. unfold delete.
  rewrite inb_out_of_bounds by auto.
  now apply hoare_write_cell.
Qed.

Lemma hoare_get o g x y :
  wf_grid g -> inb (x, y) ->
  hoare o g (get o x y) (cell_of g (x, y)) g.
Proof.
  intros Wg [Hx Hy] h W E. simpl in Hx, Hy. unfold get.
  rewrite inb_out_of_bounds by (split; auto).
  exists h. split; [|split; [assumption|split; [assumption|apply frame_refl]]].
  unfold bind, read, ret. f_equal.
  unfold cell_of. simpl. f_equal. rewrite <- E.
  unfold row_at, rows_of.
  assert (Lb : length (board_ o) = 9%nat).
  { destruct Wg as [Lg _]. rewrite <- E in Lg. unfold rows_of in Lg.
    now rewrite length_map in Lg. }
  now rewrite (nth_map_at _ _ _ [] O) by lia.
Qed.

Lemma hoare_candidates o g x y :
  inb (x, y) -> hoare o g (candidates o x y) (cands g (x, y)) g.
Proof.
  intros Hc h W E. unfold candidates.
  rewrite inb_out_of_bounds by auto.
  exists h. split; [|split; [assumption|split; [assumption|apply frame_refl]]].
  unfold bind, rows, ret. rewrite E. unfold cands, cell_of. simpl.
  now destruct (Boolean _).
Qed.

(** ** The three views as lists of cells *)

Lemma nth_keys9 (k : Z) {A} (f : Z -> A) (d : A) :
  0 <= k <= 8 -> nth (Z.to_nat k) (map f keys9) d = f k.
Proof.
  intros Hk.
  assert (C : k = 0 \/ k = 1 \/ k = 2 \/ k = 3 \/ k = 4 \/ k = 5 \/ k = 6
              \/ k = 7 \/ k = 8) by lia.
  repeat destruct C as [C|C]; subst; reflexivity.
Qed.

Lemma row_at_cells g y :
  wf_grid g -> 0 <= y <= 8 -> row_at g y = map (cell_of g) (row_cells y).
Proof.
  intros W Hy.
  transitivity (row_at (map (fun i => map (cell_of g) (row_cells i)) keys9) y).
  - now rewrite <- wf_grid_rows.
  - unfold row_at. now apply nth_keys9.
Qed.

Lemma column_at_cells g x :
  wf_grid g -> 0 <= x <= 8 ->
  row_at (columns_of g) x = map (cell_of g) (col_cells x).
Proof.
  intros W Hx. rewrite wf_grid_columns by auto.
  unfold row_at. now apply nth_keys9.
Qed.

Lemma square_at_cells g k :
  wf_grid g -> 0 <= k <= 8 ->
  row_at (squares_of g) k = map (cell_of g) (box_cells k).
Proof.
  intros W Hk. rewrite wf_grid_squares by auto.
  unfold row_at. now apply nth_keys9.
Qed.

Lemma in_col_cells c j : In c (col_cells j) <-> fst c = j /\ 0 <= snd c <= 8.
Proof.
  unfold col_cells, keys9. rewrite in_map_iff. split.
  - intros (i & <- & Hi). apply in_range_iff in Hi. simpl. lia.
  - intros [<- Hy]. exists (snd c). split; [now destruct c|].
    apply in_range_iff. lia.
Qed.

Lemma box_of_range c : inb c -> 0 <= box_of c <= 8.
Proof.
  destruct c as [x y]. intros [Hx Hy]. simpl in *. unfold box_of. simpl.
  cases9 x; cases9 y; cbv; split; congruence.
Qed.

Lemma in_box_cells c k :
  0 <= k <= 8 -> (In c (box_cells k) <-> inb c /\ box_of c = k).
Proof.
  intros Hk. split.
  - intros H. cases9 k; simpl in H;
      repeat (destruct H as [<-|H]; [split; [split; cbv; split; congruence | reflexivity]|]);
      contradiction.
  - destruct c as [x y]. intros [[Hx Hy] E]. simpl in Hx, Hy.
    cases9 x; cases9 y; cbv in E; subst k; cbv; tauto.
Qed.

(** ** Errors of the accessors (C9) and unchecked writes (C10) *)


(** ** Construction *)

Lemma rows_of_app_old h t b :
  Forall (fun l => (l < length h)%nat) b -> rows_of (h ++ t) b = rows_of h b.
Proof.
  intros F. unfold rows_of. apply map_ext_in. intros l Hl.
  rewrite Forall_forall in F. now rewrite app_nth1 by auto.
Qed.

Lemma rows_of_app_new h t :
  rows_of (h ++ t) (seq (length h) (length t)) = t.
Proof.
  unfold rows_of. revert h. induction t as [|r t IH]; intros h; simpl; auto.
  f_equal.
  - rewrite app_nth2 by lia. now rewrite Nat.sub_diag.
  - specialize (IH (h ++ [r])). rewrite <- app_assoc in IH. simpl in IH.
    rewrite length_app in IH. simpl in IH.
    now rewrite Nat.add_1_r in IH.
Qed.

Lemma copy_rows_acc b : forall h acc,
  Forall (fun l => (l < length h)%nat) b ->
  foldM (fun acc l => row <- read l ;; l' <- alloc row ;; ret (acc ++ [l'])) b acc h
  = Ok (acc ++ seq (length h) (length b)) (h ++ rows_of h b).
Proof.
  induction b as [|l b IH]; intros h acc F; simpl.
  - unfold ret. now rewrite !app_nil_r.
  - inversion F as [|? ? Hl F']; subst.
    unfold bind at 1. unfold bind at 1. unfold read at 1.
    unfold bind at 1. unfold alloc at 1. unfold ret at 1.
    rewrite IH.
    + rewrite <- !app_assoc. simpl. rewrite length_app. simpl.
      rewrite Nat.add_1_r. f_equal. f_equal. f_equal.
      now apply rows_of_app_old.
    + eapply Forall_impl; [|exact F']. intros k Hk. simpl in Hk.
      rewrite length_app. lia.
Qed.

Lemma copy_rows_spec b h :
  Forall (fun l => (l < length h)%nat) b ->
  copy_rows b h = Ok (seq (length h) (length b)) (h ++ rows_of h b).
Proof. intros F. unfold copy_rows. now rewrite copy_rows_acc. Qed.

Lemma wf_grid_check g :
  wf_grid g ->
  negb (length g =? 9)%nat || existsb (fun row => negb (length row =? 9)%nat) g
  = false.
Proof.
  intros [L F]. rewrite L. simpl.
  destruct (existsb _ g) eqn:E; auto.
  apply existsb_exists in E. destruct E as (r & Hr & Er).
  rewrite Forall_forall in F. rewrite (F r Hr) in Er. discriminate.
Qed.

Lemma in_range_check g :
  in_range g ->
  existsb (fun cell => (cell <? 0) || (cell >? 9)) (concat g) = false.
Proof.
  intros R. destruct (existsb _ _) eqn:E; auto.
  apply existsb_exists in E. destruct E as (v & Hv & Ev).
  apply in_concat in Hv. destruct Hv as (r & Hr & Hv).
  unfold in_range in R. rewrite Forall_forall in R.
  specialize (R r Hr). rewrite Forall_forall in R. specialize (R v Hv). lia.
Qed.

(** The constructor on a 9x9 matrix of values in [0,9]: the new object owns
    fresh rows holding a copy, and the old heap is untouched. *)
Lemma constructor_spec input h :
  Forall (fun l => (l < length h)%nat) input ->
  good (rows_of h input) ->
  exists o t,
    constructor input h = Ok o (h ++ t) /\
    wf_obj (h ++ t) o /\
    rows_of (h ++ t) (board_ o) = rows_of h input /\
    Forall (fun l => (length h <= l)%nat) (board_ o).
Proof.
  intros F [W R]. unfold constructor.
  set (g := rows_of h input) in *.
  assert (Lg : length g = length input) by (unfold g, rows_of; apply length_map).
  exists (mkSudoku (seq (length h) (length g))
                   (seq (length (h ++ g)) (length g))).
  exists (g ++ g).
  assert (E1 : rows_of (h ++ g) (seq (length h) (length g)) = g)
    by apply rows_of_app_new.
  assert (F1 : Forall (fun l => (l < length (h ++ g))%nat)
                      (seq (length h) (length g))).
  { apply Forall_forall. intros l Hl. apply in_seq in Hl.
    rewrite length_app. lia. }
  split; [|split; [|split]].
  - unfold bind at 1. rewrite copy_rows_spec by auto. fold g.
    rewrite <- Lg.
    unfold bind at 1. rewrite E1.
    rewrite length_seq.
    rewrite wf_grid_check by auto. rewrite in_range_check by auto.
    unfold bind. rewrite copy_rows_spec by auto.
    rewrite length_seq, E1. unfold ret. now rewrite <- app_assoc.
  - split; simpl.
    + apply seq_NoDup.
    + apply Forall_forall. intros l Hl. apply in_seq in Hl.
      rewrite !length_app. lia.
  - simpl. rewrite app_assoc. rewrite rows_of_app_old by auto. apply E1.
  - simpl. apply Forall_forall. intros l Hl. apply in_seq in Hl. lia.
Qed.

Lemma get_readonly o x y h r h' : get o x y h = Ok r h' -> h' = h.
Proof.
  unfold get. destruct (out_of_bounds x y); [discriminate|].
  unfold bind, read, ret. congruence.
Qed.

Lemma candidates_readonly o x y h r h' : candidates o x y h = Ok r h' -> h' = h.
Proof.
  unfold candidates. destruct (out_of_bounds x y); [discriminate|].
  unfold bind, rows, ret. destruct (Boolean _); congruence.
Qed.

(** ** The candidate engine *)

Lemma in_one_to_nine v : In v (map (fun v => v + 1) keys9) <-> 1 <= v <= 9.
Proof.
  rewrite in_map_iff. unfold keys9. split.
  - intros (k & <- & Hk). apply in_range_iff in Hk. lia.
  - intros H. exists (v - 1). split; [lia|]. apply in_range_iff. lia.
Qed.

Lemma candidates_of_In g c v :
  wf_grid g -> inb c ->
  (In v (candidates_of g (fst c) (snd c)) <->
   1 <= v <= 9 /\
   ~ In v (map (cell_of g) (row_cells (snd c))) /\
   ~ In v (map (cell_of g) (col_cells (fst c))) /\
   ~ In v (map (cell_of g) (box_cells (box_of c)))).
Proof.
  intros W Hc. unfold candidates_of.
  rewrite !filter_In, !negb_true_iff, !includes_false, in_one_to_nine.
  fold (box_of c).
  rewrite row_at_cells, column_at_cells, square_at_cells;
    auto using box_of_range; try apply Hc.
  tauto.
Qed.

Lemma StronglySorted_filter {A} (R : A -> A -> Prop) (p : A -> bool) l :
  StronglySorted R l -> StronglySorted R (filter p l).
Proof.
  induction 1 as [|a l S IH F]; simpl; [constructor|].
  destruct (p a); auto. constructor; auto.
  rewrite Forall_forall in *. intros x Hx. apply filter_In in Hx.
  apply F, Hx.
Qed.

Lemma candidates_of_sorted g x y : StronglySorted Z.lt (candidates_of g x y).
Proof.
  unfold candidates_of. do 3 apply StronglySorted_filter.
  repeat constructor.
Qed.

Lemma candidates_of_NoDup g x y : NoDup (candidates_of g x y).
Proof.
  unfold candidates_of. do 3 apply NoDup_filter.
  repeat constructor; simpl; intuition discriminate.
Qed.

Lemma cands_In g c v :
  wf_grid g -> inb c ->
  (In v (cands g c) <->
   cell_of g c = 0 /\ 1 <= v <= 9 /\
   ~ In v (map (cell_of g) (row_cells (snd c))) /\
   ~ In v (map (cell_of g) (col_cells (fst c))) /\
   ~ In v (map (cell_of g) (box_cells (box_of c)))).
Proof.
  intros W Hc. unfold cands, Boolean.
  destruct (Z.eqb_spec (cell_of g c) 0) as [E|E]; cbn [negb].
  - rewrite candidates_of_In by auto. tauto.
  - cbn [In]. tauto.
Qed.

Lemma cands_range g c v : In v (cands g c) -> 1 <= v <= 9.
Proof.
  unfold cands. destruct (Boolean _); [intros []|].
  unfold candidates_of. rewrite !filter_In, in_one_to_nine. tauto.
Qed.

Lemma cands_empty_cell g c v : In v (cands g c) -> cell_of g c = 0.
Proof.
  unfold cands, Boolean.
  destruct (Z.eqb_spec (cell_of g c) 0); [auto|intros []].
Qed.

Lemma cands_NoDup g c : NoDup (cands g c).
Proof.
  unfold cands. destruct (Boolean _); [constructor | apply candidates_of_NoDup].
Qed.

Lemma box_of_eq c c' :
  inb c -> inb c' ->
  (box_of c = box_of c' <-> snd c / 3 = snd c' / 3 /\ fst c / 3 = fst c' / 3).
Proof.
  unfold inb, box_of. intros H H'.
  Z.div_mod_to_equations. lia.
Qed.

Lemma not_in_row g y v :
  ~ In v (map (cell_of g) (row_cells y)) <->
  (forall j, 0 <= j <= 8 -> cell_of g (j, y) <> v).
Proof.
  rewrite in_map_iff. split.
  - intros N j Hj E. apply N. exists (j, y). split; auto.
    apply in_row_cells. auto.
  - intros N (c & E & Hc). apply in_row_cells in Hc. destruct c as [j i].
    simpl in Hc. destruct Hc as [-> Hj]. now apply (N j).
Qed.

Lemma not_in_column g x v :
  ~ In v (map (cell_of g) (col_cells x)) <->
  (forall i, 0 <= i <= 8 -> cell_of g (x, i) <> v).
Proof.
  rewrite in_map_iff. split.
  - intros N i Hi E. apply N. exists (x, i). split; auto.
    apply in_col_cells. auto.
  - intros N (c & E & Hc). apply in_col_cells in Hc. destruct c as [j i].
    simpl in Hc. destruct Hc as [-> Hi]. now apply (N i).
Qed.

Lemma not_in_box g x y v :
  inb (x, y) ->
  (~ In v (map (cell_of g) (box_cells (box_of (x, y)))) <->
   (forall i j, 0 <= i <= 8 -> 0 <= j <= 8 -> i / 3 = y / 3 -> j / 3 = x / 3 ->
                cell_of g (j, i) <> v)).
Proof.
  intros Hc. rewrite in_map_iff. split.
  - intros N i j Hi Hj Ei Ej E. apply N. exists (j, i). split; auto.
    apply in_box_cells; [now apply box_of_range|].
    assert (Hc' : inb (j, i)) by (split; auto).
    split; auto. apply box_of_eq; auto.
  - intros N (c & E & Hin).
    apply in_box_cells in Hin; [|now apply box_of_range].
    destruct Hin as [Hc' B]. apply box_of_eq in B; auto.
    destruct c as [j i]. simpl in B. destruct B as [Bi Bj].
    destruct Hc' as [Hj Hi]. now apply (N i j).
Qed.

(** ** Loops *)

Lemma hoare_foldM o {A B} (f : B -> A -> M B) (F : grid * B -> A -> grid * B)
  (Inv : grid -> Prop) (P : A -> Prop) :
  (forall g b a, Inv g -> P a ->
     hoare o g (f b a) (snd (F (g, b) a)) (fst (F (g, b) a))
     /\ Inv (fst (F (g, b) a))) ->
  forall l g b, Inv g -> Forall P l ->
    hoare o g (foldM f l b) (snd (fold_left F l (g, b)))
          (fst (fold_left F l (g, b)))
    /\ Inv (fst (fold_left F l (g, b))).
Proof.
  intros Step. induction l as [|a l IH]; intros g b I FP; simpl.
  - split; [apply hoare_ret | assumption].
  - inversion FP as [|? ? Pa FP']; subst.
    destruct (Step g b a I Pa) as [H1 I1].
    destruct (IH (fst (F (g, b) a)) (snd (F (g, b) a)) I1 FP') as [H2 I2].
    rewrite <- surjective_pairing in H2, I2.
    split; [|assumption].
    eapply hoare_bind; eassumption.
Qed.

Lemma hoare_mapM_acc o g {A B} (f : A -> M B) (F : A -> B) (P : A -> Prop) :
  (forall a, P a -> hoare o g (f a) (F a) g) ->
  forall l acc, Forall P l ->
    hoare o g (foldM (fun acc a => b <- f a ;; ret (acc ++ [b])) l acc)
          (acc ++ map F l) g.
Proof.
  intros Step. induction l as [|a l IH]; intros acc FP; simpl.
  - rewrite app_nil_r. apply hoare_ret.
  - inversion FP as [|? ? Pa FP']; subst.
    eapply hoare_bind.
    + eapply hoare_bind; [apply Step, Pa | apply hoare_ret].
    + replace (acc ++ F a :: map F l) with ((acc ++ [F a]) ++ map F l)
        by (now rewrite <- app_assoc).
      now apply IH.
Qed.

Lemma hoare_mapM o g {A B} (f : A -> M B) (F : A -> B) (P : A -> Prop) l :
  (forall a, P a -> hoare o g (f a) (F a) g) -> Forall P l ->
  hoare o g (mapM f l) (map F l) g.
Proof. intros Step FP. apply (hoare_mapM_acc o g f F P Step l [] FP). Qed.

Lemma fold_left_flat_map {A B C} (f : A -> B -> A) (k : C -> list B) l s :
  fold_left f (flat_map k l) s = fold_left (fun s c => fold_left f (k c) s) l s.
Proof.
  revert s. induction l as [|c l IH]; intros s; simpl; auto.
  now rewrite fold_left_app, IH.
Qed.

Lemma fold_left_map {A B C} (f : A -> B -> A) (k : C -> B) l s :
  fold_left f (map k l) s = fold_left (fun s c => f s (k c)) l s.
Proof. revert s. induction l as [|c l IH]; intros s; simpl; auto. Qed.

Lemma fold_left_ext_in {A B} (f f' : A -> B -> A) l s :
  (forall s b, In b l -> f s b = f' s b) -> fold_left f l s = fold_left f' l s.
Proof.
  revert s. induction l as [|b l IH]; intros s E; simpl; auto.
  rewrite E by (now left). apply IH. intros; apply E. now right.
Qed.

(** ** The writes of a rule *)

Lemma fill_wf st c vs : wf_grid (fst st) -> wf_grid (fst (fill st c vs)).
Proof.
  intros W. unfold fill. destruct (length vs =? 1)%nat; simpl; auto.
  now apply gset_wf.
Qed.

Lemma hoare_fill o g b c vs :
  wf_grid g -> inb c -> (forall v, In v vs -> 1 <= v <= 9) ->
  hoare o g (if (length vs =? 1)%nat
             then set o (fst c) (snd c) (nth 0 vs 0) ;;; ret (b ++ [c])
             else ret b)
        (snd (fill (g, b) c vs)) (fst (fill (g, b) c vs)).
Proof.
  intros W Hc Hv. unfold fill.
  destruct (length vs =? 1)%nat eqn:L; simpl.
  - destruct vs as [|v [|? ?]]; try discriminate. simpl.
    eapply hoare_bind; [|apply hoare_ret].
    destruct c as [x y]. apply hoare_set; auto.
    specialize (Hv v (or_introl eq_refl)). lia.
  - apply hoare_ret.
Qed.

Lemma hoare_rule1 o g x y :
  wf_grid g -> inb (x, y) ->
  hoare o g (rule1 o x y) (snd (rule1_pure g x y)) (fst (rule1_pure g x y)).
Proof.
  intros W [Hx Hy]. simpl in Hx, Hy. unfold rule1, rule1_pure, rule1_cells.
  rewrite fold_left_flat_map.
  apply (hoare_foldM o _ _ wf_grid (fun i => 0 <= i <= 8)); auto.
  - intros g' b i W' Hi. rewrite fold_left_map.
    apply (hoare_foldM o _ _ wf_grid (fun j => 0 <= j <= 8)); auto.
    + intros g'' b' j W'' Hj. split.
      * eapply hoare_bind.
        -- apply hoare_candidates. split; auto.
        -- unfold naked_step. simpl.
           assert (Hc : inb (j, i)) by (split; auto).
           pose proof (hoare_fill o g'' b' (j, i) (cands g'' (j, i)) W'' Hc
                         (cands_range g'' (j, i))) as H.
           simpl in H.
           destruct (length (cands g'' (j, i)) =? 1)%nat; exact H.
      * now apply fill_wf.
    + apply Forall_forall. intros j Hj. apply in_range_iff in Hj. lia.
  - apply Forall_forall. intros i Hi. apply in_range_iff in Hi. lia.
Qed.

(** ** Differences of candidate lists *)

Lemma difference_In v a others :
  In v (difference a others) <-> In v a /\ forall b, In b others -> ~ In v b.
Proof.
  unfold difference. revert a. induction others as [|b others IH]; intros a; simpl.
  - firstorder.
  - rewrite IH, filter_In, negb_true_iff, includes_false. split.
    + intros [[Ha Hb] H]. split; auto. intros b' [<-|Hb']; auto.
    + intros [Ha H]. split; [split|]; auto.
Qed.

Lemma difference_NoDup a others : NoDup a -> NoDup (difference a others).
Proof.
  unfold difference. revert a. induction others as [|b others IH]; intros a N; simpl; auto.
  apply IH. now apply NoDup_filter.
Qed.

Lemma diffs_of_length al : length (diffs_of al) = length al.
Proof. unfold diffs_of. now rewrite length_map, length_seq. Qed.

Lemma nth_diffs_of al i :
  (i < length al)%nat ->
  nth i (diffs_of al) [] = difference (nth i al []) (remove_at i al).
Proof.
  intros Hi. unfold diffs_of.
  rewrite (nth_map_at _ _ _ [] O) by (now rewrite length_seq).
  now rewrite seq_nth.
Qed.

Lemma in_remove_at {A} (d : A) i l b :
  In b (remove_at i l) <->
  exists j, (j < length l)%nat /\ j <> i /\ nth j l d = b.
Proof.
  revert i. induction l as [|a l IH]; intros i.
  - destruct i; simpl; (split; [intros [] | intros (j & Hj & _); lia]).
  - destruct i as [|i]; simpl.
    + split.
      * intros H. apply In_nth with (d := d) in H. destruct H as (j & Hj & E).
        exists (S j). repeat split; auto; lia.
      * intros ([|j] & Hj & N & E); [congruence|].
        subst b. apply nth_In. lia.
    + rewrite IH. split.
      * intros [<-|(j & Hj & N & E)].
        -- exists O. repeat split; auto; lia.
        -- exists (S j). repeat split; auto; lia.
      * intros ([|j] & Hj & N & E); [now left|right].
        exists j. repeat split; auto; lia.
Qed.

(** The cells of a group paired with their differences. *)
Lemma in_combine_diffs {A} (f : A -> list Z) (cells : list A) c d (dflt : A) :
  In (c, d) (combine cells (diffs_of (map f cells))) ->
  exists i, (i < length cells)%nat /\ nth i cells dflt = c /\
            d = difference (f c) (remove_at i (map f cells)).
Proof.
  intros H. apply In_nth with (d := (dflt, [])) in H.
  destruct H as (i & Hi & E).
  rewrite length_combine, diffs_of_length, length_map, Nat.min_id in Hi.
  rewrite combine_nth in E by (now rewrite diffs_of_length, length_map).
  injection E as E1 E2. exists i. split; [assumption|]. split; [assumption|].
  rewrite nth_diffs_of in E2 by (now rewrite length_map).
  rewrite (nth_map_at _ _ _ [] dflt) in E2 by auto.
  now rewrite E1 in E2.
Qed.

Lemma in_combine_diffs_incl {A} (f : A -> list Z) (cells : list A) c d v :
  In (c, d) (combine cells (diffs_of (map f cells))) -> In v d -> In v (f c).
Proof.
  intros H Hv. destruct (in_combine_diffs f cells c d c H) as (i & _ & _ & ->).
  apply difference_In in Hv. tauto.
Qed.

Lemma combine_map_l {A B C} (k : A -> B) (l : list A) (d : list C) :
  combine (map k l) d = map (fun p => (k (fst p), snd p)) (combine l d).
Proof.
  revert d. induction l as [|a l IH]; intros [|c d]; simpl; auto.
  now rewrite IH.
Qed.

(** The write loop of rules 2-4 on one group. *)
Lemma hoare_hidden_writes o (fx fy : Z -> Z) (ks : list Z) diffs :
  Forall (fun k => inb (fx k, fy k)) ks ->
  (forall d v, In d diffs -> In v d -> 1 <= v <= 9) ->
  forall g b, wf_grid g ->
  hoare o g
    (foldM (fun modified '(k, diff) =>
              if (length diff =? 1)%nat
              then set o (fx k) (fy k) (nth 0 diff 0) ;;;
                   ret (modified ++ [(fx k, fy k)])
              else ret modified)
           (combine ks diffs) b)
    (snd (fold_left (fun st cd => fill st (fst cd) (snd cd))
                    (combine (map (fun k => (fx k, fy k)) ks) diffs) (g, b)))
    (fst (fold_left (fun st cd => fill st (fst cd) (snd cd))
                    (combine (map (fun k => (fx k, fy k)) ks) diffs) (g, b)))
  /\ wf_grid (fst (fold_left (fun st cd => fill st (fst cd) (snd cd))
                    (combine (map (fun k => (fx k, fy k)) ks) diffs) (g, b))).
Proof.
  intros FK FD g b W.
  rewrite combine_map_l, fold_left_map.
  apply (hoare_foldM o _ _ wf_grid
           (fun p => inb (fx (fst p), fy (fst p)) /\
                     forall v, In v (snd p) -> 1 <= v <= 9)); auto.
  - intros g' b' [k diff] W' [Hc Hv]. simpl in Hc, Hv. split.
    + apply (hoare_fill o g' b' (fx k, fy k) diff W' Hc Hv).
    + now apply fill_wf.
  - apply Forall_forall. intros [k d] Hin. simpl.
    rewrite Forall_forall in FK. split.
    + apply FK. eapply in_combine_l; eauto.
    + intros v Hv. eapply FD; eauto. eapply in_combine_r; eauto.
Qed.

Lemma diffs_of_range {A} (f : A -> list Z) cells d v :
  (forall c w, In w (f c) -> 1 <= w <= 9) ->
  In d (diffs_of (map f cells)) -> In v d -> 1 <= v <= 9.
Proof.
  intros R Hd Hv. apply In_nth with (d := []) in Hd.
  destruct Hd as (i & Hi & <-).
  rewrite diffs_of_length in Hi. rewrite nth_diffs_of in Hv by auto.
  apply difference_In in Hv. destruct Hv as [Hv _].
  rewrite length_map in Hi.
  destruct cells as [|c0 cells]; [simpl in Hi; lia|].
  rewrite (nth_map_at _ _ _ [] c0) in Hv by auto.
  eapply R; eauto.
Qed.

(** One group, as rules 2-4 run it: the candidates of the cells of the
    group, then the write loop over the indices of the group. *)
Lemma hoare_hidden_pass o (ax ay fx fy : Z -> Z) (ks : list Z) cells g b :
  map (fun k => (ax k, ay k)) ks = cells ->
  map (fun k => (fx k, fy k)) (range 0 (Z.of_nat (length cells))) = cells ->
  Forall inb cells -> wf_grid g ->
  hoare o g
    (allowed <- mapM (fun k => candidates o (ax k) (ay k)) ks ;;
     let diffs := diffs_of allowed in
     foldM (fun modified '(k, diff) =>
              if (length diff =? 1)%nat
              then set o (fx k) (fy k) (nth 0 diff 0) ;;;
                   ret (modified ++ [(fx k, fy k)])
              else ret modified)
           (combine (range 0 (Z.of_nat (length diffs))) diffs) b)
    (snd (hidden_pass (g, b) cells)) (fst (hidden_pass (g, b) cells))
  /\ wf_grid (fst (hidden_pass (g, b) cells)).
Proof.
  intros E1 E2 FC W.
  assert (H : hoare o g (mapM (fun k => candidates o (ax k) (ay k)) ks)
                    (map (cands g) cells) g).
  { rewrite <- E1, map_map.
    apply (hoare_mapM o g _ (fun k => cands g (ax k, ay k))
             (fun k => inb (ax k, ay k))).
    - intros k Hk. now apply hoare_candidates.
    - rewrite <- E1 in FC. rewrite Forall_forall in *. intros k Hk.
      apply FC. apply in_map_iff. eauto. }
  assert (FK : Forall (fun k => inb (fx k, fy k))
                      (range 0 (Z.of_nat (length cells)))).
  { rewrite <- E2 in FC at 1. rewrite Forall_forall in *. intros k Hk.
    apply FC. apply in_map_iff. eauto. }
  assert (FD : forall d v, In d (diffs_of (map (cands g) cells)) -> In v d ->
                           1 <= v <= 9).
  { intros d v. apply diffs_of_range. intros c w. apply cands_range. }
  destruct (hoare_hidden_writes o fx fy _ _ FK FD g b W) as [H2 W2].
  rewrite E2 in H2, W2.
  split; [|exact W2].
  eapply hoare_bind; [exact H|].
  cbv zeta. rewrite diffs_of_length, length_map. exact H2.
Qed.

Lemma Forall_inb_row i : 0 <= i <= 8 -> Forall inb (row_cells i).
Proof.
  intros Hi. apply Forall_forall. intros c Hc. apply in_row_cells in Hc.
  unfold inb. lia.
Qed.

Lemma Forall_inb_col j : 0 <= j <= 8 -> Forall inb (col_cells j).
Proof.
  intros Hj. apply Forall_forall. intros c Hc. apply in_col_cells in Hc.
  unfold inb. lia.
Qed.

Lemma Forall_inb_box k : 0 <= k <= 8 -> Forall inb (box_cells k).
Proof.
  intros Hk. apply Forall_forall. intros c Hc. apply in_box_cells in Hc; tauto.
Qed.

Lemma hoare_rule2 o g x y :
  wf_grid g -> inb (x, y) ->
  hoare o g (rule2 o x y) (snd (rule2_pure g x y)) (fst (rule2_pure g x y)).
Proof.
  intros W [Hx Hy]. simpl in Hx, Hy. unfold rule2, rule2_pure.
  rewrite fold_left_map.
  apply (hoare_foldM o _ _ wf_grid (fun i => 0 <= i <= 8)); auto.
  - intros g' b i W' Hi.
    destruct (hoare_hidden_pass o (fun j => j) (fun _ => i) (fun j => j)
                (fun _ => i) (range 0 9) (row_cells i) g' b
                eq_refl eq_refl (Forall_inb_row i Hi) W') as [H1 W1].
    split; [|exact W1].
    eapply hoare_bind; [apply hoare_rows|].
    rewrite wf_grid_row by auto. exact H1.
  - apply Forall_forall. intros i Hi. apply in_range_iff in Hi. lia.
Qed.

Lemma hoare_rule3 o g x y :
  wf_grid g -> inb (x, y) ->
  hoare o g (rule3 o x y) (snd (rule3_pure g x y)) (fst (rule3_pure g x y)).
Proof.
  intros W [Hx Hy]. simpl in Hx, Hy. unfold rule3, rule3_pure.
  rewrite fold_left_map.
  apply (hoare_foldM o _ _ wf_grid (fun j => 0 <= j <= 8)); auto.
  - intros g' b j W' Hj.
    destruct (hoare_hidden_pass o (fun _ => j) (fun i => i) (fun _ => j)
                (fun i => i) (range 0 9) (col_cells j) g' b
                eq_refl eq_refl (Forall_inb_col j Hj) W') as [H1 W1].
    split; [|exact W1].
    eapply hoare_bind; [apply hoare_rows|].
    rewrite column_at_cells by auto. exact H1.
  - apply Forall_forall. intros j Hj. apply in_range_iff in Hj. lia.
Qed.

Lemma hoare_rule4 o g x y :
  wf_grid g -> inb (x, y) ->
  hoare o g (rule4 o x y) (snd (rule4_pure g x y)) (fst (rule4_pure g x y)).
Proof.
  intros W Hc. unfold rule4, rule4_pure.
  rewrite fold_left_map. cbv zeta.
  pose proof (box_of_range _ Hc) as Hb. unfold box_of in Hb. simpl in Hb.
  apply (hoare_foldM o _ _ wf_grid (fun k => 0 <= k <= 8)); auto.
  - intros g' b k W' Hk.
    apply (hoare_hidden_pass o (fun i => i mod 9) (fun i => i / 9)
             (fun i => at_ (map (fun v => v + 3 * k + 18 * (k / 3))
                                [0; 1; 2; 9; 10; 11; 18; 19; 20]) i mod 9)
             (fun i => at_ (map (fun v => v + 3 * k + 18 * (k / 3))
                                [0; 1; 2; 9; 10; 11; 18; 19; 20]) i / 9)
             (map (fun v => v + 3 * k + 18 * (k / 3))
                  [0; 1; 2; 9; 10; 11; 18; 19; 20])
             (box_cells k) g' b); auto.
    now apply Forall_inb_box.
  - apply Forall_forall. intros k Hk. apply in_range_iff in Hk. lia.
Qed.

(** ** Validity in terms of groups of cells *)

Lemma nodup_length_le (l : list Z) :
  (length (nodup Z.eq_dec l) <= length l)%nat.
Proof.
  induction l as [|a l IH]; simpl; auto.
  destruct (in_dec Z.eq_dec a l); simpl; lia.
Qed.

Lemma isUnique_NoDup l : isUnique l = true <-> NoDup (filter Boolean l).
Proof.
  unfold isUnique. rewrite Nat.eqb_eq.
  generalize (filter Boolean l). clear l. intros l. split.
  - induction l as [|a l IH]; simpl; [constructor|].
    destruct (in_dec Z.eq_dec a l) as [I|I]; simpl; intros E.
    + pose proof (nodup_length_le l). lia.
    + constructor; auto.
  - intros N. now rewrite nodup_fixed_point.
Qed.

Lemma okay_of_groups g :
  wf_grid g ->
  (okay_of g = true <->
   forall grp, is_group grp -> isUnique (map (cell_of g) grp) = true).
Proof.
  intros W. unfold okay_of.
  rewrite wf_grid_columns, wf_grid_squares by auto.
  rewrite (wf_grid_rows g W) at 1.
  rewrite !andb_true_iff, !forallb_forall. split.
  - intros [[R C] B] grp (k & Hk & [->|[->| ->]]).
    + apply R. apply in_map_iff. exists k. split; auto. apply in_range_iff. lia.
    + apply C. apply in_map_iff. exists k. split; auto. apply in_range_iff. lia.
    + apply B. apply in_map_iff. exists k. split; auto. apply in_range_iff. lia.
  - intros H. repeat split; intros l Hl; apply in_map_iff in Hl;
      destruct Hl as (k & <- & Hk); apply in_range_iff in Hk;
      apply H; exists k; (split; [lia|]); auto.
Qed.

Lemma group_NoDup grp : is_group grp -> NoDup grp.
Proof.
  intros (k & Hk & H). cases9 k; destruct H as [->|[->| ->]];
    repeat constructor; simpl; intuition discriminate.
Qed.

Lemma group_inb grp : is_group grp -> Forall inb grp.
Proof.
  intros (k & Hk & [->|[->| ->]]);
    auto using Forall_inb_row, Forall_inb_col, Forall_inb_box.
Qed.

Lemma group_length grp : is_group grp -> length grp = 9%nat.
Proof. intros (k & Hk & [->|[->| ->]]); reflexivity. Qed.

(** The groups of a cell. *)
Lemma row_group c : inb c -> is_group (row_cells (snd c)) /\ In c (row_cells (snd c)).
Proof.
  intros [Hx Hy]. split.
  - exists (snd c). auto.
  - apply in_row_cells. auto.
Qed.

Lemma col_group c : inb c -> is_group (col_cells (fst c)) /\ In c (col_cells (fst c)).
Proof.
  intros [Hx Hy]. split.
  - exists (fst c). auto.
  - apply in_col_cells. auto.
Qed.

Lemma box_group c : inb c -> is_group (box_cells (box_of c)) /\ In c (box_cells (box_of c)).
Proof.
  intros Hc. pose proof (box_of_range c Hc). split.
  - exists (box_of c). auto.
  - apply in_box_cells; auto.
Qed.

(** A group through two cells is the row, the column or the box of both. *)
Lemma group_of_cell grp c :
  is_group grp -> In c grp ->
  grp = row_cells (snd c) \/ grp = col_cells (fst c) \/ grp = box_cells (box_of c).
Proof.
  intros (k & Hk & [->|[->| ->]]) Hc.
  - left. apply in_row_cells in Hc. now destruct Hc as [-> _].
  - right; left. apply in_col_cells in Hc. now destruct Hc as [-> _].
  - right; right. apply in_box_cells in Hc; auto. now destruct Hc as [_ ->].
Qed.

(** A candidate of a cell is held by no cell of its groups. *)
Lemma cands_not_in_group g grp c c' v :
  wf_grid g -> is_group grp -> In c grp -> In c' grp ->
  In v (cands g c) -> cell_of g c' <> v.
Proof.
  intros W G Hc Hc' Hv E.
  assert (Ic : inb c).
  { pose proof (group_inb grp G) as F. rewrite Forall_forall in F. auto. }
  apply cands_In in Hv; auto. destruct Hv as (_ & _ & NR & NC & NB).
  destruct (group_of_cell grp c G Hc) as [->|[->| ->]];
    [apply NR | apply NC | apply NB]; apply in_map_iff; eauto.
Qed.

(** ** Completions of a grid *)

Lemma extends_refl g : extends g g.
Proof. intros c _ _. reflexivity. Qed.

Lemma cell_of_in_concat g c : wf_grid g -> inb c -> In (cell_of g c) (concat g).
Proof.
  intros W [Hx Hy]. apply in_concat. exists (row_at g (snd c)). split.
  - unfold row_at. apply nth_In. destruct W. lia.
  - unfold cell_of, at_. apply nth_In. rewrite wf_grid_row; auto. lia.
Qed.

Lemma in_concat_cell_of g v :
  wf_grid g -> In v (concat g) -> exists c, inb c /\ cell_of g c = v.
Proof.
  intros W H. rewrite (wf_grid_rows g W) in H.
  apply in_concat in H. destruct H as (r & Hr & Hv).
  apply in_map_iff in Hr. destruct Hr as (i & <- & Hi).
  apply in_map_iff in Hv. destruct Hv as (c & <- & Hc).
  exists c. split; auto. apply in_row_cells in Hc. apply in_range_iff in Hi.
  unfold inb. lia.
Qed.

Lemma cell_of_range g c : good g -> inb c -> 0 <= cell_of g c <= 9.
Proof.
  intros [W R] Hc. pose proof (cell_of_in_concat g c W Hc) as H.
  apply in_concat in H. destruct H as (r & Hr & Hv).
  unfold in_range in R. rewrite Forall_forall in R. specialize (R r Hr).
  rewrite Forall_forall in R. auto.
Qed.

Lemma solution_cell S c : solution S -> inb c -> 1 <= cell_of S c <= 9.
Proof.
  intros [G Sv] Hc. pose proof (cell_of_range S c G Hc).
  unfold solved_of in Sv. apply andb_true_iff in Sv. destruct Sv as [_ F].
  rewrite forallb_forall in F.
  specialize (F _ (cell_of_in_concat S c (proj1 G) Hc)).
  unfold Boolean in F. lia.
Qed.

Lemma solution_okay S : solution S -> okay_of S = true.
Proof.
  intros [_ Sv]. unfold solved_of in Sv. now apply andb_true_iff in Sv.
Qed.

Lemma unique_distinct (f : cell -> Z) grp c c' :
  NoDup (filter Boolean (map f grp)) ->
  In c grp -> In c' grp -> c <> c' -> f c <> 0 -> f c <> f c'.
Proof.
  induction grp as [|a grp IH]; simpl; [tauto|].
  intros N Hc Hc' Ne Nz E.
  assert (Nz' : f c' <> 0) by congruence.
  assert (In_filter : forall d, In d grp -> f d <> 0 ->
                                In (f d) (filter Boolean (map f grp))).
  { intros d Hd Hz. apply filter_In. split.
    - now apply in_map.
    - unfold Boolean. lia. }
  destruct (Boolean (f a)) eqn:B.
  - inversion N as [|? ? Na N']; subst.
    destruct Hc as [->|Hc], Hc' as [->|Hc'].
    + congruence.
    + apply Na. rewrite E. now apply In_filter.
    + apply Na. rewrite <- E. now apply In_filter.
    + now apply IH.
  - unfold Boolean in B.
    destruct Hc as [->|Hc]; [lia|]. destruct Hc' as [->|Hc']; [lia|].
    now apply IH.
Qed.

(** Two cells of a group of a valid grid hold different values, unless
    empty. *)
Lemma okay_distinct g grp c c' :
  wf_grid g -> okay_of g = true -> is_group grp ->
  In c grp -> In c' grp -> c <> c' -> cell_of g c <> 0 ->
  cell_of g c <> cell_of g c'.
Proof.
  intros W O G Hc Hc' Ne Nz.
  apply (unique_distinct (cell_of g) grp); auto.
  apply isUnique_NoDup. now apply (proj1 (okay_of_groups g W) O).
Qed.

(** The value of a solution at an empty cell is one of its candidates. *)
Lemma solution_in_cands g S c :
  wf_grid g -> solution S -> extends g S -> inb c -> cell_of g c = 0 ->
  In (cell_of S c) (cands g c).
Proof.
  intros W Sol Ext Hc Z0.
  pose proof (solution_cell S c Sol Hc) as RS.
  assert (NG : forall grp, is_group grp -> In c grp ->
                           ~ In (cell_of S c) (map (cell_of g) grp)).
  { intros grp G Hin H. apply in_map_iff in H. destruct H as (c' & E & Hc').
    assert (Ic' : inb c').
    { pose proof (group_inb grp G) as F. rewrite Forall_forall in F. auto. }
    assert (Nz : cell_of g c' <> 0) by lia.
    assert (Ne : c <> c') by (intros ->; contradiction).
    apply (okay_distinct S grp c c'); auto.
    - apply Sol.
    - now apply solution_okay.
    - lia.
    - rewrite (Ext c' Ic' Nz). auto. }
  apply cands_In; auto. split; [assumption|]. split; [assumption|].
  split; [|split]; apply NG.
  - apply row_group; auto.
  - apply row_group; auto.
  - apply col_group; auto.
  - apply col_group; auto.
  - apply box_group; auto.
  - apply box_group; auto.
Qed.

(** Nine different values of 1..9 are all of 1..9. *)
Lemma nine_values l v :
  NoDup l -> length l = 9%nat -> (forall w, In w l -> 1 <= w <= 9) ->
  1 <= v <= 9 -> In v l.
Proof.
  intros N L R Hv.
  assert (I : incl [1; 2; 3; 4; 5; 6; 7; 8; 9] l).
  { apply NoDup_length_incl; auto.
    - simpl. lia.
    - intros w Hw. specialize (R w Hw). simpl. lia. }
  apply I. simpl. lia.
Qed.

(** A solution holds every value of 1..9 in every group. *)
Lemma solution_group_value S grp v :
  solution S -> is_group grp -> 1 <= v <= 9 ->
  exists c, In c grp /\ cell_of S c = v.
Proof.
  intros Sol G Hv.
  pose proof (group_inb grp G) as F. rewrite Forall_forall in F.
  assert (I : In v (map (cell_of S) grp)).
  { apply nine_values; auto.
    - pose proof (proj1 (okay_of_groups S (proj1 (proj1 Sol)))
                        (solution_okay S Sol) grp G) as U.
      apply isUnique_NoDup in U.
      rewrite forallb_filter_id in U; auto.
      apply forallb_forall. intros w Hw. apply in_map_iff in Hw.
      destruct Hw as (c & <- & Hc).
      pose proof (solution_cell S c Sol (F c Hc)). unfold Boolean. lia.
    - rewrite length_map. now apply group_length.
    - intros w Hw. apply in_map_iff in Hw. destruct Hw as (c & <- & Hc).
      apply solution_cell; auto. }
  apply in_map_iff in I. destruct I as (c & E & Hc). eauto.
Qed.

(** Hidden single: a candidate of a cell that is a candidate of no other
    cell of a group is the value of the cell in every completion. *)
Lemma hidden_single_sound g S grp c v :
  wf_grid g -> solution S -> extends g S -> is_group grp ->
  In c grp -> In v (cands g c) ->
  (forall c', In c' grp -> c' <> c -> ~ In v (cands g c')) ->
  cell_of S c = v.
Proof.
  intros W Sol Ext G Hc Hv Others.
  pose proof (group_inb grp G) as F. rewrite Forall_forall in F.
  destruct (solution_group_value S grp v Sol G (cands_range g c v Hv))
    as (c' & Hc' & E).
  assert (D : {c' = c} + {c' <> c}).
  { destruct c as [a b], c' as [a' b'].
    destruct (Z.eq_dec a' a), (Z.eq_dec b' b); [left|right|right|right];
      congruence. }
  destruct D as [->|Ne]; [assumption|]. exfalso.
  destruct (Z.eq_dec (cell_of g c') 0) as [Z0|Nz].
  - apply (Others c' Hc' Ne). rewrite <- E.
    apply solution_in_cands; auto.
  - apply (cands_not_in_group g grp c c' v W G Hc Hc' Hv).
    rewrite <- (Ext c' (F c' Hc') Nz). exact E.
Qed.

(** ** What a propagation pass may do *)

Lemma cell_eq_dec (c c' : cell) : {c = c'} + {c <> c'}.
Proof.
  destruct c as [a b], c' as [a' b'].
  destruct (Z.eq_dec a a'), (Z.eq_dec b b'); [left|right|right|right];
    congruence.
Qed.

Lemma step_ok_refl g : good g -> step_ok g g [].
Proof.
  intros G. split; [assumption|]. split; [constructor|].
  split; [intros c []|]. split; auto.
Qed.

Lemma step_ok_trans g g1 g2 m1 m2 :
  step_ok g g1 m1 -> step_ok g1 g2 m2 -> step_ok g g2 (m1 ++ m2).
Proof.
  intros (G1 & I1 & Z1 & F1 & S1) (G2 & I2 & Z2 & F2 & S2).
  split; [assumption|]. split; [now apply Forall_app|].
  rewrite Forall_forall in I1, I2.
  split; [|split].
  - intros c Hc. apply in_app_or in Hc.
    destruct (in_dec cell_eq_dec c m1) as [H1|H1]; [now apply Z1|].
    destruct Hc as [Hc|Hc]; [contradiction|].
    rewrite <- F1; auto.
  - intros c Hc N. rewrite F2, F1; auto; intros H; apply N, in_or_app; auto.
  - auto.
Qed.

Lemma step_ok_snoc g0 g m c v :
  step_ok g0 g m -> justified g0 c v -> ~ In c m ->
  step_ok g0 (gset g c v) (m ++ [c]).
Proof.
  intros (G & I & Z0 & F & So) (Hc & Zc & Hv & J) N.
  split; [|split; [|split; [|split]]].
  - apply gset_good; auto. lia.
  - apply Forall_app. split; auto.
  - intros c' H. apply in_app_or in H. destruct H as [H|[<-|[]]]; auto.
  - intros c' Hc' N'. rewrite cell_of_gset_neq; auto.
    + apply F; auto. intros H. apply N', in_or_app. auto.
    + intros <-. apply N', in_or_app. right. now left.
  - intros S Sol Ext c' Hc' Nz.
    destruct (cell_eq_dec c c') as [<-|Ne].
    + rewrite cell_of_gset_eq by (auto; apply G). now apply J.
    + rewrite cell_of_gset_neq in * by auto. now apply So.
Qed.

Lemma trans_refl st : good (fst st) -> trans st st.
Proof.
  intros G. exists []. split; [now rewrite app_nil_r | now apply step_ok_refl].
Qed.

Lemma trans_trans st1 st2 st3 : trans st1 st2 -> trans st2 st3 -> trans st1 st3.
Proof.
  intros (m1 & E1 & S1) (m2 & E2 & S2). exists (m1 ++ m2). split.
  - now rewrite E2, E1, app_assoc.
  - eapply step_ok_trans; eauto.
Qed.

Lemma trans_good st st' : trans st st' -> good (fst st').
Proof. intros (m & _ & G & _). exact G. Qed.

Lemma trans_fold {A} (F : grid * list cell -> A -> grid * list cell) l :
  (forall st a, good (fst st) -> In a l -> trans st (F st a)) ->
  forall st, good (fst st) -> trans st (fold_left F l st).
Proof.
  induction l as [|a l IH]; intros Step st G; simpl.
  - now apply trans_refl.
  - assert (T : trans st (F st a)) by (apply Step; auto; now left).
    eapply trans_trans; [exact T|].
    apply IH.
    + intros st' a' G' H. apply Step; auto. now right.
    + eapply trans_good; eauto.
Qed.

Lemma length_one {A} (l : list A) d :
  (length l =? 1)%nat = true -> l = [nth 0 l d].
Proof. destruct l as [|a [|b l]]; simpl; intros; try discriminate; auto. Qed.

(** Rule 1 *)

Lemma naked_single_justified g c v :
  good g -> inb c -> cands g c = [v] -> justified g c v.
Proof.
  intros G Hc E.
  assert (Hv : In v (cands g c)) by (rewrite E; now left).
  split; [assumption|]. split; [eapply cands_empty_cell; eauto|].
  split; [eapply cands_range; eauto|].
  intros S Sol Ext.
  pose proof (solution_in_cands g S c (proj1 G) Sol Ext Hc
                (cands_empty_cell g c v Hv)) as H.
  rewrite E in H. destruct H as [H|[]]. auto.
Qed.

Lemma naked_step_trans st c : good (fst st) -> inb c -> trans st (naked_step st c).
Proof.
  intros G Hc. unfold naked_step, fill.
  destruct (length (cands (fst st) c) =? 1)%nat eqn:L; [|now apply trans_refl].
  apply (length_one _ 0) in L.
  exists [c]. split; [reflexivity|]. simpl.
  apply (step_ok_snoc (fst st) (fst st) [] c); auto.
  - now apply step_ok_refl.
  - now apply naked_single_justified.
Qed.

Lemma in_rule1_cells c x y :
  In c (rule1_cells x y) <-> y <= snd c < 9 /\ x + 1 <= fst c < 9.
Proof.
  unfold rule1_cells. rewrite in_flat_map. split.
  - intros (i & Hi & H). apply in_map_iff in H. destruct H as (j & <- & Hj).
    apply in_range_iff in Hi, Hj. simpl. lia.
  - intros [Hy Hx]. exists (snd c). split; [now apply in_range_iff|].
    apply in_map_iff. exists (fst c). split; [now destruct c|].
    now apply in_range_iff.
Qed.

Lemma rule1_pure_trans g x y :
  good g -> inb (x, y) -> trans (g, []) (rule1_pure g x y).
Proof.
  intros G [Hx Hy]. simpl in Hx, Hy. unfold rule1_pure.
  apply trans_fold; auto.
  intros st c G' Hc. apply naked_step_trans; auto.
  apply in_rule1_cells in Hc. unfold inb. lia.
Qed.

(** Rules 2-4 *)

Lemma fold_fill_ok g0 : forall l,
  NoDup (map fst l) ->
  (forall c v, In (c, [v]) l -> justified g0 c v) ->
  forall g b m,
    step_ok g0 g m -> (forall c, In c (map fst l) -> ~ In c m) ->
    exists m',
      snd (fold_left (fun st cd => fill st (fst cd) (snd cd)) l (g, b)) = b ++ m'
      /\ step_ok g0 (fst (fold_left (fun st cd => fill st (fst cd) (snd cd)) l (g, b)))
                 (m ++ m').
Proof.
  induction l as [|[c d] l IH]; intros ND J g b m St Fresh; simpl.
  - exists []. now rewrite !app_nil_r.
  - simpl in ND. inversion ND as [|? ? Nc ND']; subst.
    unfold fill at 2. unfold fill at 3. simpl.
    destruct (length d =? 1)%nat eqn:L.
    + apply (length_one _ 0) in L.
      assert (Jc : justified g0 c (nth 0 d 0)).
      { apply J. left. now rewrite <- L. }
      destruct (IH ND' (fun c' v H => J c' v (or_intror H))
                   (gset g c (nth 0 d 0)) (b ++ [c]) (m ++ [c]))
        as (m' & E & St').
      * apply step_ok_snoc; auto. apply Fresh. now left.
      * intros c' Hc' H. apply in_app_or in H. destruct H as [H|[<-|[]]].
        -- apply (Fresh c'); auto. now right.
        -- contradiction.
      * exists (c :: m'). rewrite <- app_assoc in E, St'. simpl in E, St'.
        split; assumption.
    + apply IH; auto.
      * intros c' v H. apply J. now right.
      * intros c' Hc'. apply Fresh. now right.
Qed.

Lemma map_fst_combine {A B} (l : list A) (l' : list B) :
  length l = length l' -> map fst (combine l l') = l.
Proof.
  revert l'. induction l as [|a l IH]; intros [|b l'] E; simpl in *;
    try discriminate; auto.
  f_equal. apply IH. lia.
Qed.

Lemma hidden_pass_trans st grp :
  good (fst st) -> is_group grp -> trans st (hidden_pass st grp).
Proof.
  intros G Grp. unfold hidden_pass. destruct st as [g b]. simpl fst in *.
  pose proof (group_NoDup grp Grp) as ND.
  pose proof (group_inb grp Grp) as FI. rewrite Forall_forall in FI.
  destruct (fold_fill_ok g (combine grp (diffs_of (map (cands g) grp))))
    with (g := g) (b := b) (m := @nil cell) as (m' & E & St).
  - rewrite map_fst_combine; auto.
    now rewrite diffs_of_length, length_map.
  - intros c v H.
    destruct (in_combine_diffs (cands g) grp c [v] c H) as (i & Hi & Ei & Ed).
    assert (Hv : In v (difference (cands g c) (remove_at i (map (cands g) grp))))
      by (rewrite <- Ed; now left).
    apply difference_In in Hv. destruct Hv as [Hv Others].
    assert (Hc : In c grp) by (rewrite <- Ei; now apply nth_In).
    split; [auto|]. split; [eapply cands_empty_cell; eauto|].
    split; [eapply cands_range; eauto|].
    intros S Sol Ext.
    apply (hidden_single_sound g S grp c v); auto; [apply G|].
    intros c' Hc' Ne. apply Others.
    apply In_nth with (d := c) in Hc'. destruct Hc' as (j & Hj & Ej).
    apply (in_remove_at []). exists j.
    split; [now rewrite length_map|]. split.
    + intros ->. congruence.
    + rewrite (nth_map_at _ _ _ [] c) by auto. now rewrite Ej.
  - now apply step_ok_refl.
  - auto.
  - exists m'. simpl. split; assumption.
Qed.

Lemma rule2_pure_trans g x y :
  good g -> inb (x, y) -> trans (g, []) (rule2_pure g x y).
Proof.
  intros G [Hx Hy]. simpl in Hx, Hy. unfold rule2_pure.
  apply trans_fold; auto.
  intros st grp G' H. apply hidden_pass_trans; auto.
  apply in_map_iff in H. destruct H as (k & <- & Hk).
  apply in_range_iff in Hk. exists k. split; [lia|auto].
Qed.

Lemma rule3_pure_trans g x y :
  good g -> inb (x, y) -> trans (g, []) (rule3_pure g x y).
Proof.
  intros G [Hx Hy]. simpl in Hx, Hy. unfold rule3_pure.
  apply trans_fold; auto.
  intros st grp G' H. apply hidden_pass_trans; auto.
  apply in_map_iff in H. destruct H as (k & <- & Hk).
  apply in_range_iff in Hk. exists k. split; [lia|auto].
Qed.

Lemma rule4_pure_trans g x y :
  good g -> inb (x, y) -> trans (g, []) (rule4_pure g x y).
Proof.
  intros G Hc. unfold rule4_pure.
  pose proof (box_of_range _ Hc) as Hb. unfold box_of in Hb. simpl in Hb.
  apply trans_fold; auto.
  intros st grp G' H. apply hidden_pass_trans; auto.
  apply in_map_iff in H. destruct H as (k & <- & Hk).
  apply in_range_iff in Hk. exists k. split; [lia|auto].
Qed.

(** ** A candidate trial on the grid *)

Lemma trans_nil g r : trans (g, []) r -> step_ok g (fst r) (snd r).
Proof. intros (m & E & S). simpl in *. now rewrite E. Qed.

Lemma hoare_propagate o g x y :
  good g -> inb (x, y) ->
  hoare o g (propagate o x y) (snd (propagate_pure g x y))
        (fst (propagate_pure g x y)).
Proof.
  intros G Hc. unfold propagate, propagate_pure. cbv zeta.
  pose proof (trans_nil _ _ (rule1_pure_trans g x y G Hc)) as (G1 & _).
  pose proof (trans_nil _ _ (rule2_pure_trans _ x y G1 Hc)) as (G2 & _).
  pose proof (trans_nil _ _ (rule3_pure_trans _ x y G2 Hc)) as (G3 & _).
  eapply hoare_bind; [apply hoare_rule1; auto; apply G|].
  eapply hoare_bind; [apply hoare_rule2; auto; apply G1|].
  eapply hoare_bind; [apply hoare_rule3; auto; apply G2|].
  eapply hoare_bind; [apply hoare_rule4; auto; apply G3|].
  simpl. rewrite <- !app_assoc. apply hoare_ret.
Qed.

Lemma propagate_pure_ok g x y :
  good g -> inb (x, y) ->
  step_ok g (fst (propagate_pure g x y)) (tl (snd (propagate_pure g x y))).
Proof.
  intros G Hc. unfold propagate_pure. cbv zeta. simpl.
  pose proof (trans_nil _ _ (rule1_pure_trans g x y G Hc)) as S1.
  pose proof (trans_nil _ _ (rule2_pure_trans _ x y (proj1 S1) Hc)) as S2.
  pose proof (trans_nil _ _ (rule3_pure_trans _ x y (proj1 S2) Hc)) as S3.
  pose proof (trans_nil _ _ (rule4_pure_trans _ x y (proj1 S3) Hc)) as S4.
  eapply step_ok_trans; [exact S1|].
  eapply step_ok_trans; [exact S2|].
  eapply step_ok_trans; [exact S3|exact S4].
Qed.

Lemma clear_cells_wf m : forall g, wf_grid g -> wf_grid (clear_cells g m).
Proof.
  unfold clear_cells. induction m as [|c m IH]; intros g W; simpl; auto.
  apply IH. now apply gset_wf.
Qed.

Lemma clear_cells_spec m : forall g c,
  wf_grid g -> Forall inb m -> inb c ->
  cell_of (clear_cells g m) c
  = if in_dec cell_eq_dec c m then 0 else cell_of g c.
Proof.
  unfold clear_cells. induction m as [|a m IH]; intros g c W F Hc; simpl; auto.
  inversion F as [|? ? Ha F']; subst.
  rewrite IH by (auto using gset_wf).
  destruct (cell_eq_dec a c) as [->|Ne].
  - destruct (in_dec cell_eq_dec c m); auto. now apply cell_of_gset_eq.
  - destruct (in_dec cell_eq_dec c m); auto. now apply cell_of_gset_neq.
Qed.

Lemma hoare_undo o m : forall g,
  wf_grid g -> Forall inb m -> hoare o g (undo o m) tt (clear_cells g m).
Proof.
  unfold undo, clear_cells. induction m as [|[x y] m IH]; intros g W F; simpl.
  - apply hoare_ret.
  - inversion F as [|? ? Ha F']; subst.
    eapply hoare_bind; [now apply hoare_delete|].
    apply IH; auto. now apply gset_wf.
Qed.

Lemma trial_grid_good g x y v :
  good g -> inb (x, y) -> 0 <= v <= 9 -> good (trial_grid g x y v).
Proof.
  intros G Hc Hv. unfold trial_grid. apply gset_good; auto.
  apply (propagate_pure_ok g x y G Hc).
Qed.

Lemma propagate_log_inb g x y :
  good g -> inb (x, y) -> Forall inb (snd (propagate_pure g x y)).
Proof.
  intros G Hc. pose proof (propagate_pure_ok g x y G Hc) as (_ & F & _).
  unfold propagate_pure in *. cbv zeta in *. simpl in *. constructor; auto.
Qed.

(** Cells outside the log keep their value up to the recursive call. *)
Lemma trial_grid_frame g x y v c :
  good g -> inb (x, y) -> inb c ->
  ~ In c (snd (propagate_pure g x y)) ->
  cell_of (trial_grid g x y v) c = cell_of g c.
Proof.
  intros G Hp Hc N.
  pose proof (propagate_pure_ok g x y G Hp) as (_ & _ & _ & Fr & _).
  unfold trial_grid. unfold propagate_pure in *. cbv zeta in *. simpl in *.
  rewrite cell_of_gset_neq; auto.
Qed.

(** Every logged cell was empty before the trial. *)
Lemma propagate_log_empty g x y c :
  good g -> inb (x, y) -> cell_of g (x, y) = 0 ->
  In c (snd (propagate_pure g x y)) -> cell_of g c = 0.
Proof.
  intros G Hp Z0 Hc.
  pose proof (propagate_pure_ok g x y G Hp) as (_ & _ & Ze & _).
  unfold propagate_pure in *. cbv zeta in *. simpl in *.
  destruct Hc as [<-|Hc]; auto.
Qed.

(** Draining the log after the recursive call restores the grid. *)
Lemma trial_restore g x y v :
  good g -> inb (x, y) -> cell_of g (x, y) = 0 ->
  clear_cells (trial_grid g x y v) (snd (propagate_pure g x y)) = g.
Proof.
  intros G Hp Z0.
  pose proof (propagate_pure_ok g x y G Hp) as (G1 & _).
  assert (W2 : wf_grid (trial_grid g x y v)).
  { unfold trial_grid. apply gset_wf, G1. }
  apply grid_ext.
  - now apply clear_cells_wf.
  - apply G.
  - intros c Hc.
    rewrite clear_cells_spec; auto using propagate_log_inb.
    destruct (in_dec cell_eq_dec c (snd (propagate_pure g x y))) as [I|N].
    + symmetry. apply (propagate_log_empty g x y c G Hp Z0 I).
    + now apply trial_grid_frame.
Qed.

(** ** The next open cell *)

Lemma findIndex_spec {A} (p : A -> bool) (d : A) l :
  (findIndex p l = -1 /\ forall a, In a l -> p a = false) \/
  (0 <= findIndex p l < Z.of_nat (length l) /\
   p (nth (Z.to_nat (findIndex p l)) l d) = true).
Proof.
  induction l as [|a l IH]; simpl.
  - left. split; auto. intros a [].
  - destruct (p a) eqn:Pa.
    + right. split; [lia|]. simpl. exact Pa.
    + destruct IH as [[E N]|[R P]].
      * left. rewrite E. simpl. split; auto.
        intros b [<-|Hb]; auto.
      * right. destruct (findIndex p l <? 0) eqn:L; [lia|].
        split; [lia|].
        replace (Z.to_nat (findIndex p l + 1)) with (S (Z.to_nat (findIndex p l)))
          by lia.
        exact P.
Qed.

Lemma nextOpenCell_of_spec g x y :
  wf_grid g -> nextOpenCell_of g = (x, y) ->
  ((x =? -1) || (y =? -1) = true /\ forallb Boolean (concat g) = true) \/
  ((x =? -1) || (y =? -1) = false /\ inb (x, y) /\ cell_of g (x, y) = 0).
Proof.
  intros W E. unfold nextOpenCell_of in E.
  pose proof (findIndex_spec (fun row => includes 0 row) [] g) as Sp.
  remember (findIndex (fun row => includes 0 row) g) as r eqn:Er.
  injection E as Ex Ey. subst y.
  destruct Sp as [[E1 N]|[R P]].
  - left. split; [rewrite E1; apply orb_true_r|].
    apply forallb_forall. intros v Hv. apply in_concat in Hv.
    destruct Hv as (rw & Hr & Hv). specialize (N rw Hr).
    apply includes_false in N. unfold Boolean.
    destruct (Z.eqb_spec v 0) as [Ev|Ev]; [rewrite Ev in Hv; contradiction|reflexivity].
  - right. destruct W as [Lg Fg]. rewrite Lg in R.
    replace (r >=? 0) with true in Ex by lia.
    fold (row_at g r) in P.
    assert (Lr : length (row_at g r) = 9%nat).
    { apply wf_grid_row; [split; auto | lia]. }
    destruct (findIndex_spec (Z.eqb 0) 0 (row_at g r)) as [[E2 N]|[R2 P2]].
    + apply includes_true in P. specialize (N 0 P). discriminate.
    + unfold indexOf in Ex. rewrite Ex in R2, P2. rewrite Lr in R2.
      split; [lia|]. split; [split; simpl; lia|].
      unfold cell_of, at_. simpl. apply Z.eqb_eq in P2. auto.
Qed.

Lemma hoare_nextOpenCell o g : hoare o g (nextOpenCell o) (nextOpenCell_of g) g.
Proof.
  unfold nextOpenCell. eapply hoare_bind; [apply hoare_rows|apply hoare_ret].
Qed.

Lemma hoare_okay o g : hoare o g (okay o) (okay_of g) g.
Proof.
  unfold okay. eapply hoare_bind; [apply hoare_rows|apply hoare_ret].
Qed.

Lemma hoare_solved o g : hoare o g (solved o) (solved_of g) g.
Proof.
  unfold solved. eapply hoare_bind; [apply hoare_rows|apply hoare_ret].
Qed.

Lemma okay_readonly o h r h' : okay o h = Ok r h' -> h' = h.
Proof. unfold okay, bind, rows, ret. congruence. Qed.

Lemma solved_readonly o h r h' : solved o h = Ok r h' -> h' = h.
Proof. unfold solved, bind, rows, ret. congruence. Qed.

Lemma nextOpenCell_readonly o h r h' : nextOpenCell o h = Ok r h' -> h' = h.
Proof. unfold nextOpenCell, bind, rows, ret. congruence. Qed.

(** ** Completions and validity *)

Lemma sub_NoDup (fg fS : cell -> Z) grp :
  NoDup (map fS grp) ->
  (forall c, In c grp -> fg c <> 0 -> fS c = fg c) ->
  NoDup (filter Boolean (map fg grp)).
Proof.
  induction grp as [|a grp IH]; simpl; intros N E; [constructor|].
  inversion N as [|? ? Na N']; subst.
  assert (IHg : NoDup (filter Boolean (map fg grp))).
  { apply IH; auto. }
  destruct (Boolean (fg a)) eqn:B; auto.
  constructor; auto.
  intros H. apply filter_In in H. destruct H as [H Bc].
  apply in_map_iff in H. destruct H as (c & Ec & Hc).
  apply Na. unfold Boolean in *.
  rewrite (E a) by (auto; lia).
  rewrite <- Ec. rewrite <- (E c) by (auto; lia).
  now apply in_map.
Qed.

(** A grid that has a completion is valid. *)
Lemma extends_okay g S :
  wf_grid g -> solution S -> extends g S -> okay_of g = true.
Proof.
  intros W Sol Ext. apply okay_of_groups; auto.
  intros grp G. apply isUnique_NoDup.
  pose proof (group_inb grp G) as F. rewrite Forall_forall in F.
  apply (sub_NoDup (cell_of g) (cell_of S)).
  - pose proof (proj1 (okay_of_groups S (proj1 (proj1 Sol)))
                      (solution_okay S Sol) grp G) as U.
    apply isUnique_NoDup in U.
    rewrite forallb_filter_id in U; auto.
    apply forallb_forall. intros w Hw. apply in_map_iff in Hw.
    destruct Hw as (c & <- & Hc).
    pose proof (solution_cell S c Sol (F c Hc)). unfold Boolean. lia.
  - intros c Hc Nz. apply Ext; auto.
Qed.

(** The only completion of a full grid is the grid. *)
Lemma extends_full g S :
  wf_grid g -> wf_grid S -> forallb Boolean (concat g) = true ->
  extends g S -> S = g.
Proof.
  intros W WS Full Ext. apply grid_ext; auto.
  intros c Hc. apply Ext; auto.
  rewrite forallb_forall in Full.
  specialize (Full _ (cell_of_in_concat g c W Hc)).
  unfold Boolean in Full. lia.
Qed.

(** ** Completions of the grid of a trial *)

Lemma extends_trial g x y v S :
  good g -> inb (x, y) -> solution S -> extends g S ->
  cell_of S (x, y) = v -> extends (trial_grid g x y v) S.
Proof.
  intros G Hp Sol Ext Ev.
  pose proof (propagate_pure_ok g x y G Hp) as (G1 & _ & _ & _ & So).
  specialize (So S Sol Ext).
  intros c Hc Nz. unfold trial_grid in *.
  destruct (cell_eq_dec (x, y) c) as [<-|Ne].
  - rewrite cell_of_gset_eq by (auto; apply G1). auto.
  - rewrite cell_of_gset_neq in * by auto. now apply So.
Qed.

Lemma trial_extends g x y v S :
  good g -> inb (x, y) -> cell_of g (x, y) = 0 -> v <> 0 ->
  extends (trial_grid g x y v) S ->
  extends g S /\ cell_of S (x, y) = v.
Proof.
  intros G Hp Z0 Nv Ext.
  pose proof (propagate_pure_ok g x y G Hp) as (G1 & _).
  assert (Ep : cell_of (trial_grid g x y v) (x, y) = v).
  { unfold trial_grid. apply cell_of_gset_eq; [apply G1 | exact Hp]. }
  split.
  - intros c Hc Nz.
    assert (N : ~ In c (snd (propagate_pure g x y))).
    { intros I. apply Nz. apply (propagate_log_empty g x y c G Hp Z0 I). }
    rewrite <- (trial_grid_frame g x y v c G Hp Hc N).
    apply Ext; auto. now rewrite (trial_grid_frame g x y v c G Hp Hc N).
  - transitivity (cell_of (trial_grid g x y v) (x, y)); [|exact Ep].
    apply Ext; auto. now rewrite Ep.
Qed.

(** ** Termination measure *)

Lemma filter_length_le {A} (p q : A -> bool) l :
  (forall a, In a l -> q a = true -> p a = true) ->
  (length (filter q l) <= length (filter p l))%nat.
Proof.
  induction l as [|a l IH]; simpl; intros H; auto.
  assert (IH' : (length (filter q l) <= length (filter p l))%nat)
    by (apply IH; intros; apply H; auto).
  destruct (q a) eqn:Q.
  - rewrite (H a) by auto. simpl. lia.
  - destruct (p a); simpl; lia.
Qed.

Lemma filter_length_lt {A} (p q : A -> bool) l a :
  (forall a, In a l -> q a = true -> p a = true) ->
  In a l -> p a = true -> q a = false ->
  (length (filter q l) < length (filter p l))%nat.
Proof.
  induction l as [|b l IH]; simpl; intros H Ha Pa Qa; [contradiction|].
  assert (Le : (length (filter q l) <= length (filter p l))%nat)
    by (apply filter_length_le; intros; apply H; auto).
  destruct Ha as [->|Ha].
  - rewrite Pa, Qa. simpl. lia.
  - assert (Lt : (length (filter q l) < length (filter p l))%nat)
      by (apply IH; auto).
    destruct (q b) eqn:Q.
    + rewrite (H b) by auto. simpl. lia.
    + destruct (p b); simpl; lia.
Qed.

Lemma zeros_bound g : (zeros g <= 81)%nat.
Proof.
  unfold zeros.
  pose proof (filter_length_le (fun _ => true) (fun c => cell_of g c =? 0)
                all_cells (fun _ _ _ => eq_refl)) as H.
  rewrite (forallb_filter_id (fun _ : cell => true)) in H; auto.
Qed.

Lemma zeros_trial g x y v :
  good g -> inb (x, y) -> cell_of g (x, y) = 0 -> v <> 0 ->
  (zeros (trial_grid g x y v) < zeros g)%nat.
Proof.
  intros G Hp Z0 Nv.
  pose proof (propagate_pure_ok g x y G Hp) as (G1 & _).
  unfold zeros. apply filter_length_lt with (a := (x, y)).
  - intros c Hc Q. apply in_all_cells in Hc.
    apply Z.eqb_eq in Q. apply Z.eqb_eq.
    destruct (in_dec cell_eq_dec c (snd (propagate_pure g x y))) as [I|N].
    + apply (propagate_log_empty g x y c G Hp Z0 I).
    + now rewrite <- (trial_grid_frame g x y v c G Hp Hc N).
  - now apply in_all_cells.
  - now apply Z.eqb_eq.
  - unfold trial_grid. rewrite cell_of_gset_eq by (auto; apply G1).
    now apply Z.eqb_neq.
Qed.

(** ** The search *)

Lemma frame_rows o h h' b :
  frame o h h' ->
  Forall (fun l => (l < length h)%nat /\ ~ In l (board_ o)) b ->
  rows_of h' b = rows_of h b.
Proof.
  intros [_ F] Fb. unfold rows_of. apply map_ext_in. intros l Hl.
  rewrite Forall_forall in Fb. destruct (Fb l Hl). now apply F.
Qed.

Lemma frame_grids o h0 h1 h2 news :
  wf_obj h0 o -> fresh_objs h0 h1 news -> frame o h1 h2 ->
  grids_of h2 news = grids_of h1 news.
Proof.
  intros [_ Wo] Fr F. unfold grids_of. apply map_ext_in. intros s Hs.
  apply (frame_rows o); auto.
  unfold fresh_objs in Fr. rewrite Forall_forall in Fr. specialize (Fr s Hs).
  rewrite Forall_forall in *. intros l Hl. specialize (Fr l Hl).
  split; [lia|]. intros I. specialize (Wo l I). simpl in Wo. lia.
Qed.

Lemma fresh_objs_weaken h0 h1 h2 h3 news :
  (length h0 <= length h1)%nat -> (length h2 <= length h3)%nat ->
  fresh_objs h1 h2 news -> fresh_objs h0 h3 news.
Proof.
  intros L1 L2 Fr. unfold fresh_objs in *.
  eapply Forall_impl; [|exact Fr]. intros s Fs. simpl in *.
  eapply Forall_impl; [|exact Fs]. intros l Hl. simpl in *. lia.
Qed.

Lemma backtrack_S fuel o sols :
  backtrack (S fuel) o sols =
  (ok <- okay o ;;
   if negb ok then ret sols
   else
     sv <- solved o ;;
     if sv then c <- clone o ;; ret (sols ++ [c])
     else
       xy <- nextOpenCell o ;;
       let '(x, y) := xy in
       if (x =? -1) || (y =? -1) then ret sols
       else cs <- candidates o x y ;; foldM (trial fuel o x y) cs sols).
Proof. reflexivity. Qed.

Section Search.

Variable fuel : nat.
Variable o : Sudoku.

Hypothesis IH : forall g h sols,
  good g -> (zeros g < fuel)%nat -> wf_obj h o -> rows_of h (board_ o) = g ->
  bt_post o g (fun _ => True) h sols (backtrack fuel o sols h).

Lemma trial_spec g x y v h sols :
  good g -> (zeros g <= fuel)%nat -> inb (x, y) -> cell_of g (x, y) = 0 ->
  1 <= v <= 9 -> wf_obj h o -> rows_of h (board_ o) = g ->
  bt_post o g (fun S => cell_of S (x, y) = v) h sols
          (trial fuel o x y sols v h).
Proof.
  intros G Zf Hp Z0 Hv W E.
  assert (Nv : v <> 0) by lia.
  assert (Rv : 0 <= v <= 9) by lia.
  pose proof (propagate_pure_ok g x y G Hp) as (G1 & _).
  pose proof (trial_grid_good g x y v G Hp Rv) as G2.
  pose proof (zeros_trial g x y v G Hp Z0 Nv) as Zt.
  destruct (hoare_propagate o g x y G Hp h W E) as (h1 & R1 & W1 & E1 & F1).
  destruct (hoare_set o _ x y v (proj1 G1) Hp Rv h1 W1 E1)
    as (h2 & R2 & W2 & E2 & F2).
  fold (trial_grid g x y v) in E2.
  destruct (IH (trial_grid g x y v) h2 sols G2 ltac:(lia) W2 E2)
    as (news & h3 & R3 & W3 & E3 & F3 & Fr3 & Iff3).
  destruct (hoare_undo o (snd (propagate_pure g x y)) _ (proj1 G2)
              (propagate_log_inb g x y G Hp) h3 W3 E3)
    as (h4 & R4 & W4 & E4 & F4).
  rewrite trial_restore in E4 by auto.
  exists news, h4. split; [|split; [|split; [|split; [|split]]]]; auto.
  - unfold trial. run R1. run R2. run R3. run R4. reflexivity.
  - eapply frame_trans; [exact F1|].
    eapply frame_trans; [exact F2|].
    eapply frame_trans; [exact F3|exact F4].
  - apply (fresh_objs_weaken h h2 h3 h4); auto.
    + destruct F1, F2. lia.
    + destruct F4. lia.
  - intros S. rewrite (frame_grids o h2 h3 h4 news W2 Fr3 F4).
    rewrite Iff3. split.
    + intros (Sol & Ext & _). split; auto.
      now apply trial_extends.
    + intros (Sol & Ext & Ev). split; auto. split; auto.
      now apply extends_trial.
Qed.

Lemma loop_spec g x y :
  good g -> (zeros g <= fuel)%nat -> inb (x, y) -> cell_of g (x, y) = 0 ->
  forall cs h sols,
    (forall v, In v cs -> 1 <= v <= 9) ->
    wf_obj h o -> rows_of h (board_ o) = g ->
    bt_post o g (fun S => In (cell_of S (x, y)) cs) h sols
            (foldM (trial fuel o x y) cs sols h).
Proof.
  intros G Zf Hp Z0. induction cs as [|v cs IHcs]; intros h sols R W E.
  - exists [], h. simpl. rewrite app_nil_r.
    split; [reflexivity|]. split; [assumption|]. split; [assumption|].
    split; [apply frame_refl|]. split; [constructor|].
    intros S. simpl. tauto.
  - destruct (trial_spec g x y v h sols G Zf Hp Z0 (R v (or_introl eq_refl)) W E)
      as (news1 & h1 & R1 & W1 & E1 & F1 & Fr1 & Iff1).
    destruct (IHcs h1 (sols ++ news1) (fun w Hw => R w (or_intror Hw)) W1 E1)
      as (news2 & h2 & R2 & W2 & E2 & F2 & Fr2 & Iff2).
    exists (news1 ++ news2), h2.
    split; [|split; [|split; [|split; [|split]]]]; auto.
    + simpl. run R1. rewrite R2. now rewrite app_assoc.
    + eapply frame_trans; eauto.
    + unfold fresh_objs. apply Forall_app. split.
      * apply (fresh_objs_weaken h h h1 h2); auto. destruct F2. lia.
      * apply (fresh_objs_weaken h h1 h2 h2); auto. destruct F1. lia.
    + intros S. unfold grids_of. rewrite map_app, in_app_iff.
      fold (grids_of h2 news1). fold (grids_of h2 news2).
      rewrite (frame_grids o h h1 h2 news1 W Fr1 F2).
      rewrite Iff1, Iff2. simpl. intuition.
Qed.

End Search.

Lemma okay_run o h : okay o h = Ok (okay_of (rows_of h (board_ o))) h.
Proof. reflexivity. Qed.

Lemma solved_run o h : solved o h = Ok (solved_of (rows_of h (board_ o))) h.
Proof. reflexivity. Qed.

Lemma nextOpenCell_run o h :
  nextOpenCell o h = Ok (nextOpenCell_of (rows_of h (board_ o))) h.
Proof. reflexivity. Qed.

Lemma candidates_run o h x y :
  inb (x, y) ->
  candidates o x y h = Ok (cands (rows_of h (board_ o)) (x, y)) h.
Proof.
  intros Hc. unfold candidates. rewrite inb_out_of_bounds by auto.
  unfold bind, rows, ret, cands, cell_of. simpl. now destruct (Boolean _).
Qed.

Lemma get_run o h x y :
  wf_grid (rows_of h (board_ o)) -> inb (x, y) ->
  get o x y h = Ok (cell_of (rows_of h (board_ o)) (x, y)) h.
Proof.
  intros W [Hx Hy]. simpl in Hx, Hy. unfold get.
  rewrite inb_out_of_bounds by (split; auto).
  unfold bind, read, ret. f_equal.
  unfold cell_of, row_at, rows_of. simpl. f_equal.
  destruct W as [L _]. unfold rows_of in L. rewrite length_map in L.
  now rewrite (nth_map_at _ _ _ [] O) by lia.
Qed.

Lemma frame_app o h t : frame o h (h ++ t).
Proof.
  split.
  - rewrite length_app. lia.
  - intros l Hl _. now apply app_nth1.
Qed.

Lemma wf_obj_app o h t : wf_obj h o -> wf_obj (h ++ t) o.
Proof.
  intros [N F]. split; auto. eapply Forall_impl; [|exact F].
  intros l Hl. simpl in *. rewrite length_app. lia.
Qed.

Lemma solved_full g : solved_of g = true -> forallb Boolean (concat g) = true.
Proof. unfold solved_of. intros H. now apply andb_true_iff in H. Qed.

(** The search returns, restores the grid and pushes exactly the
    completions of the grid. *)
Theorem backtrack_spec : forall fuel o g h sols,
  good g -> (zeros g < fuel)%nat -> wf_obj h o -> rows_of h (board_ o) = g ->
  bt_post o g (fun _ => True) h sols (backtrack fuel o sols h).
Proof.
  induction fuel as [|fuel IH]; intros o g h sols G Zf W E; [lia|].
  rewrite backtrack_S.
  unfold bind at 1. rewrite okay_run, E. cbv beta iota.
  destruct (okay_of g) eqn:Ok_g; cbv [negb]; cbv beta iota.
  2: { exists [], h. rewrite app_nil_r.
       split; [reflexivity|]. split; [assumption|]. split; [assumption|].
       split; [apply frame_refl|]. split; [constructor|].
       intros S. simpl. split; [tauto|]. intros (Sol & Ext & _).
       rewrite (extends_okay g S (proj1 G) Sol Ext) in Ok_g. discriminate. }
  unfold bind at 1. rewrite solved_run, E. cbv beta iota.
  destruct (solved_of g) eqn:Sv.
  { destruct (constructor_spec (board_ o) h (proj2 W)) as (c & t & Rc & Wc & Ec & Fc).
    { now rewrite E. }
    rewrite E in Ec.
    exists [c], (h ++ t).
    split; [|split; [|split; [|split; [|split]]]].
    - unfold clone. run Rc. reflexivity.
    - now apply wf_obj_app.
    - rewrite rows_of_app_old; [assumption|apply W].
    - apply frame_app.
    - constructor; [|constructor].
      destruct Wc as [_ Lc]. rewrite Forall_forall in *.
      intros l Hl. split; auto.
    - intros S. unfold grids_of. simpl. rewrite Ec. split.
      + intros [<-|[]]. split; [split; assumption|].
        split; [apply extends_refl|exact I].
      + intros (Sol & Ext & _). left. symmetry.
        apply extends_full; auto; [apply G|apply Sol|now apply solved_full]. }
  unfold bind at 1. rewrite nextOpenCell_run, E. cbv beta iota.
  destruct (nextOpenCell_of g) as [x y] eqn:N.
  destruct (nextOpenCell_of_spec g x y (proj1 G) N) as [[B Full]|[B [Hp Z0]]];
    rewrite B.
  - exists [], h. rewrite app_nil_r.
    split; [reflexivity|]. split; [assumption|]. split; [assumption|].
    split; [apply frame_refl|]. split; [constructor|].
    intros S. simpl. split; [tauto|]. intros (Sol & Ext & _).
    assert (ES : S = g).
    { apply extends_full; auto; [apply G|apply Sol]. }
    destruct Sol as [_ SvS]. rewrite ES in SvS. congruence.
  - unfold bind at 1. rewrite candidates_run, E by auto. cbv beta iota.
    destruct (loop_spec fuel o (IH o) g x y G ltac:(lia) Hp Z0
                (cands g (x, y)) h sols (cands_range g (x, y)) W E)
      as (news & h' & R & W' & E' & F' & Fr & Iff).
    exists news, h'.
    split; [assumption|]. split; [assumption|]. split; [assumption|].
    split; [assumption|]. split; [assumption|].
    intros S. rewrite Iff. split.
    + intros (Sol & Ext & _). auto.
    + intros (Sol & Ext & _). split; auto. split; auto.
      apply solution_in_cands; auto. apply G.
Qed.

(** [solve] on a board of good shape. *)
Theorem solve_spec o h :
  wf_obj h o -> good (rows_of h (board_ o)) ->
  exists r h',
    solve o h = Ok r h' /\
    (length h <= length h')%nat /\
    (forall l, (l < length h)%nat -> nth l h' [] = nth l h []) /\
    match r with
    | None =>
        forall S, ~ (solution S /\ extends (rows_of h (board_ o)) S)
    | Some sols =>
        sols <> [] /\
        forall S, In S (grids_of h' sols) <->
                  solution S /\ extends (rows_of h (board_ o)) S
    end.
Proof.
  intros W G. set (g := rows_of h (board_ o)) in *.
  unfold solve. unfold bind at 1. rewrite okay_run. fold g. cbv beta iota.
  destruct (okay_of g) eqn:Ok_g; cbv [negb]; cbv beta iota.
  2: { exists None, h. split; [reflexivity|]. split; [lia|]. split; [auto|].
       intros S [Sol Ext].
       rewrite (extends_okay g S (proj1 G) Sol Ext) in Ok_g. discriminate. }
  destruct (constructor_spec (board_ o) h (proj2 W) G)
    as (wc & t & Rc & Wc & Ec & Fc).
  fold g in Ec.
  destruct (backtrack_spec depth wc g (h ++ t) [] G) as
    (news & h' & R & W' & E' & F' & Fr & Iff); auto.
  { pose proof (zeros_bound g). unfold depth. lia. }
  change ([] ++ news) with news in R.
  exists (if (0 <? length news)%nat then Some news else None), h'.
  destruct F' as [L' F'].
  rewrite length_app in L'.
  split; [|split; [|split]].
  - run Rc. run R. reflexivity.
  - lia.
  - intros l Hl. rewrite F'.
    + now apply app_nth1.
    + rewrite length_app. lia.
    + intros I. rewrite Forall_forall in Fc. specialize (Fc l I). lia.
  - destruct news as [|s news]; simpl.
    + intros S HS. apply (proj2 (Iff S)). tauto.
    + split; [discriminate|]. intros S. rewrite (Iff S). tauto.
Qed.

(** * The claims of the specification *)

(** ** C9: errors of the accessors *)



(** ** C10: [set] checks bounds and range only *)

(** C10.  For in-bounds coordinates and a value in [0,9], [set] returns and
    stores the value, whatever the row, column and box of the cell hold; a
    board for which [okay] is true becomes one for which it is false by one
    such call (a second 5 written next to a 5 of the first row). *)
Theorem C10_set_is_unchecked :
  (forall o h x y v,
     wf_obj h o -> wf_grid (rows_of h (board_ o)) ->
     0 <= x <= 8 -> 0 <= y <= 8 -> 0 <= v <= 9 ->
     exists h',
       set o x y v h = Ok tt h' /\
       get o x y h' = Ok v h' /\
       rows_of h' (board_ o) = gset (rows_of h (board_ o)) (x, y) v) /\
  (exists h',
     new c10_grid = Ok c10_obj c10_heap /\
     okay c10_obj c10_heap = Ok true c10_heap /\
     get c10_obj 0 0 c10_heap = Ok 5 c10_heap /\
     set c10_obj 1 0 5 c10_heap = Ok tt h' /\
     okay c10_obj h' = Ok false h').
Proof.
  split.
  - intros o h x y v W Wg Hx Hy Hv.
    assert (Hc : inb (x, y)) by (split; assumption).
    destruct (hoare_set o _ x y v Wg Hc Hv h W eq_refl)
      as (h' & R & W' & E' & _).
    exists h'. split; [assumption|]. split; [|assumption].
    assert (Wg' : wf_grid (rows_of h' (board_ o)))
      by (rewrite E'; now apply gset_wf).
    destruct (hoare_get o _ x y Wg' Hc h' W' eq_refl) as (h'' & G & _).
    rewrite (get_readonly _ _ _ _ _ _ G) in G. rewrite G. f_equal.
    rewrite E'. now apply cell_of_gset_eq.
  - exists (update 9 [5;5;0;0;0;0;0;0;0] c10_heap). repeat split; reflexivity.
Qed.

Lemma C10_set_is_unchecked_witness :
  exists h',
    set c10_obj 3 4 9 c10_heap = Ok tt h' /\
    get c10_obj 3 4 h' = Ok 9 h' /\
    rows_of h' (board_ c10_obj)
    = gset (rows_of c10_heap (board_ c10_obj)) (3, 4) 9.
Proof.
  apply (proj1 C10_set_is_unchecked c10_obj c10_heap 3 4 9).
  - split.
    + apply seq_NoDup.
    + apply Forall_forall. intros l Hl. apply in_seq in Hl. simpl. lia.
  - split; [reflexivity|]. repeat constructor.
  - lia.
  - lia.
  - lia.
Defined.

(** ** C7: the candidates of a cell *)

(** C7.  On a 9x9 board and for in-bounds [(x, y)], [candidates] returns the
    empty list when the cell is nonzero; otherwise it returns, in ascending
    order, exactly the values of 1..9 held by no cell of row [y], of column
    [x] and of the 3x3 box of [(x, y)]. *)
Theorem C7_candidates (o : Sudoku) (h : heap) (x y : Z) :
  wf_obj h o -> wf_grid (rows_of h (board_ o)) ->
  0 <= x <= 8 -> 0 <= y <= 8 ->
  exists l,
    candidates o x y h = Ok l h /\
    (cell_of (rows_of h (board_ o)) (x, y) <> 0 -> l = []) /\
    (cell_of (rows_of h (board_ o)) (x, y) = 0 ->
       StronglySorted Z.lt l /\
       forall v,
         In v l <->
         1 <= v <= 9 /\
         (forall j, 0 <= j <= 8 -> cell_of (rows_of h (board_ o)) (j, y) <> v) /\
         (forall i, 0 <= i <= 8 -> cell_of (rows_of h (board_ o)) (x, i) <> v) /\
         (forall i j, 0 <= i <= 8 -> 0 <= j <= 8 ->
                      i / 3 = y / 3 -> j / 3 = x / 3 ->
                      cell_of (rows_of h (board_ o)) (j, i) <> v)).
Proof.
  intros W Wg Hx Hy.
  set (g := rows_of h (board_ o)) in *.
  assert (Hc : inb (x, y)) by (split; assumption).
  destruct (hoare_candidates o g x y Hc h W eq_refl) as (h' & R & _).
  rewrite (candidates_readonly _ _ _ _ _ _ R) in R.
  exists (cands g (x, y)). split; [assumption|]. unfold cands, Boolean. split.
  - intros N. destruct (Z.eqb_spec (cell_of g (x, y)) 0); [contradiction|reflexivity].
  - intros E. rewrite E. cbn [Z.eqb negb fst snd]. split.
    + apply candidates_of_sorted.
    + intros v.
      rewrite (candidates_of_In g (x, y) v Wg Hc).
      cbn [fst snd].
      rewrite not_in_row, not_in_column, (not_in_box g x y v Hc). tauto.
Qed.

Lemma C7_candidates_witness :
  exists l,
    candidates c10_obj 1 1 c10_heap = Ok l c10_heap /\
    (cell_of (rows_of c10_heap (board_ c10_obj)) (1, 1) <> 0 -> l = []) /\
    (cell_of (rows_of c10_heap (board_ c10_obj)) (1, 1) = 0 ->
       StronglySorted Z.lt l /\
       forall v,
         In v l <->
         1 <= v <= 9 /\
         (forall j, 0 <= j <= 8 ->
                    cell_of (rows_of c10_heap (board_ c10_obj)) (j, 1) <> v) /\
         (forall i, 0 <= i <= 8 ->
                    cell_of (rows_of c10_heap (board_ c10_obj)) (1, i) <> v) /\
         (forall i j, 0 <= i <= 8 -> 0 <= j <= 8 ->
                      i / 3 = 1 / 3 -> j / 3 = 1 / 3 ->
                      cell_of (rows_of c10_heap (board_ c10_obj)) (j, i) <> v)).
Proof.
  apply (C7_candidates c10_obj c10_heap 1 1).
  - split.
    + apply seq_NoDup.
    + apply Forall_forall. intros l Hl. apply in_seq in Hl. simpl. lia.
  - split; [reflexivity|]. repeat constructor.
  - lia.
  - lia.
Defined.

(** ** C2: [solve] works on a copy *)

Lemma scenarioB_input_valid :
  Forall (fun l => (l < length scenarioB_heap)%nat) scenarioB_input.
Proof.
  apply Forall_forall. intros l Hl. apply in_seq in Hl. simpl. lia.
Defined.

Lemma scenarioB_good : good (rows_of scenarioB_heap scenarioB_input).
Proof.
  split.
  - split; [reflexivity|]. repeat constructor.
  - repeat (constructor; try lia).
Defined.

(** C2.  For every valid construction input (a 9x9 matrix of values in
    [0,9]), [solve] returns and the board of the object is the same before
    and after the call: [board] returns the same grid, [get] the same value
    at every in-bounds cell, and the rows of the input matrix are untouched
    too. *)
Theorem C2_solve_keeps_board (h : heap) (input : list loc) :
  Forall (fun l => (l < length h)%nat) input ->
  good (rows_of h input) ->
  exists s h1 r h2,
    constructor input h = Ok s h1 /\
    solve s h1 = Ok r h2 /\
    board s h1 = Ok (rows_of h input) h1 /\
    board s h2 = Ok (rows_of h input) h2 /\
    (forall x y, 0 <= x <= 8 -> 0 <= y <= 8 ->
       exists v, get s x y h1 = Ok v h1 /\ get s x y h2 = Ok v h2) /\
    rows_of h2 input = rows_of h input.
Proof.
  intros Fi G.
  destruct (constructor_spec input h Fi G) as (s & t & Rc & Ws & Es & Fs).
  assert (Gs : good (rows_of (h ++ t) (board_ s))) by (now rewrite Es).
  destruct (solve_spec s (h ++ t) Ws Gs) as (r & h2 & Rs & L & Old & _).
  assert (E2 : rows_of h2 (board_ s) = rows_of h input).
  { rewrite <- Es. unfold rows_of. apply map_ext_in. intros l Hl.
    apply Old. destruct Ws as [_ F]. rewrite Forall_forall in F. auto. }
  exists s, (h ++ t), r, h2.
  split; [assumption|]. split; [assumption|].
  split; [unfold board, rows; now rewrite Es|].
  split; [unfold board, rows; now rewrite E2|].
  split.
  - intros x y Hx Hy. exists (cell_of (rows_of h input) (x, y)).
    assert (Hc : inb (x, y)) by (split; assumption).
    split.
    + rewrite get_run by (auto; rewrite Es; apply G). now rewrite Es.
    + rewrite get_run by (auto; rewrite E2; apply G). now rewrite E2.
  - unfold rows_of. apply map_ext_in. intros l Hl.
    rewrite Forall_forall in Fi. specialize (Fi l Hl).
    rewrite Old by (rewrite length_app; lia). now apply app_nth1.
Qed.

Lemma C2_solve_keeps_board_witness :
  exists s h1 r h2,
    constructor scenarioB_input scenarioB_heap = Ok s h1 /\
    solve s h1 = Ok r h2 /\
    board s h1 = Ok (rows_of scenarioB_heap scenarioB_input) h1 /\
    board s h2 = Ok (rows_of scenarioB_heap scenarioB_input) h2 /\
    (forall x y, 0 <= x <= 8 -> 0 <= y <= 8 ->
       exists v, get s x y h1 = Ok v h1 /\ get s x y h2 = Ok v h2) /\
    rows_of h2 scenarioB_input = rows_of scenarioB_heap scenarioB_input.
Proof.
  apply (C2_solve_keeps_board scenarioB_heap scenarioB_input).
  - exact scenarioB_input_valid.
  - exact scenarioB_good.
Defined.

(** ** C8: the result of [solve] *)


Lemma scenarioB_obj_wf : wf_obj scenarioB_heap3 scenarioB_obj.
Proof.
  split.
  - apply seq_NoDup.
  - apply Forall_forall. intros l Hl. apply in_seq in Hl. simpl. lia.
Defined.

Lemma scenarioB_obj_good : good (rows_of scenarioB_heap3 (board_ scenarioB_obj)).
Proof.
  split.
  - split; [reflexivity|]. repeat constructor.
  - repeat (constructor; try lia).
Defined.


(** ** C1: a candidate trial undoes its writes *)

(** C1.  On a 9x9 board of values in [0,9], for the pivot [(x, y)] returned
    by [nextOpenCell] and any candidate of the pivot, the trial returns
    (with fuel for the recursion), and afterwards every cell of its undo log
    (the pivot and the cells filled by rules 1-4) reads 0 while every other
    cell reads the value it had before the trial. *)
Theorem C1_trial_undo (fuel : nat) (o : Sudoku) (h : heap)
  (sols : list Sudoku) (x y candidate : Z) (cs : list Z) :
  wf_obj h o -> good (rows_of h (board_ o)) ->
  nextOpenCell o h = Ok (x, y) h -> x <> -1 -> y <> -1 ->
  candidates o x y h = Ok cs h -> In candidate cs ->
  (zeros (rows_of h (board_ o)) <= fuel)%nat ->
  exists modified h1 sols' h',
    propagate o x y h = Ok modified h1 /\
    trial fuel o x y sols candidate h = Ok sols' h' /\
    (forall c, In c modified -> get o (fst c) (snd c) h' = Ok 0 h') /\
    (forall c, inb c -> ~ In c modified ->
       exists v, get o (fst c) (snd c) h = Ok v h /\
                 get o (fst c) (snd c) h' = Ok v h').
Proof.
  intros W G N Nx Ny C Hc Zf.
  set (g := rows_of h (board_ o)) in *.
  rewrite nextOpenCell_run in N. fold g in N.
  assert (N' : nextOpenCell_of g = (x, y)) by congruence.
  destruct (nextOpenCell_of_spec g x y (proj1 G) N') as [[B _]|[_ [Hp Z0]]];
    [lia|].
  rewrite candidates_run in C by auto. fold g in C.
  assert (C' : cands g (x, y) = cs) by congruence. subst cs.
  destruct (hoare_propagate o g x y G Hp h W eq_refl) as (h1 & R1 & _).
  destruct (trial_spec fuel o (fun g h sols => backtrack_spec fuel o g h sols)
              g x y candidate h sols G Zf Hp Z0
              (cands_range g (x, y) candidate Hc) W eq_refl)
    as (news & h' & R & W' & E' & _).
  exists (snd (propagate_pure g x y)), h1, (sols ++ news), h'.
  split; [assumption|]. split; [assumption|].
  pose proof (propagate_log_inb g x y G Hp) as Fl.
  rewrite Forall_forall in Fl.
  split.
  - intros c Hm. destruct c as [a b].
    rewrite get_run by (rewrite ?E'; auto; apply G).
    rewrite E'. f_equal. now apply (propagate_log_empty g x y).
  - intros c Ic Nm. exists (cell_of g c). destruct c as [a b]. split.
    + apply get_run; auto. apply G.
    + rewrite get_run by (rewrite ?E'; auto; apply G). now rewrite E'.
Qed.

Lemma C1_trial_undo_witness :
  exists modified h1 sols' h',
    propagate scenarioB_obj 1 0 scenarioB_heap3 = Ok modified h1 /\
    trial 81 scenarioB_obj 1 0 [] 5 scenarioB_heap3 = Ok sols' h' /\
    (forall c, In c modified ->
       get scenarioB_obj (fst c) (snd c) h' = Ok 0 h') /\
    (forall c, inb c -> ~ In c modified ->
       exists v, get scenarioB_obj (fst c) (snd c) scenarioB_heap3
                 = Ok v scenarioB_heap3 /\
                 get scenarioB_obj (fst c) (snd c) h' = Ok v h').
Proof.
  apply (C1_trial_undo 81 scenarioB_obj scenarioB_heap3 [] 1 0 5 [2; 3; 5; 7]).
  - exact scenarioB_obj_wf.
  - exact scenarioB_obj_good.
  - vm_compute. reflexivity.
  - lia.
  - lia.
  - vm_compute. reflexivity.
  - simpl. tauto.
  - apply zeros_bound.
Defined.

(** ** C3: the scan of rule 1 *)

Lemma naked_step_scan_step st c : naked_step st c = scan_step st c.
Proof.
  unfold naked_step, scan_step, fill.
  destruct (cands (fst st) c) as [|v [|w l]]; reflexivity.
Qed.

Lemma sortedb_sound l : sortedb l = true -> StronglySorted row_major l.
Proof.
  induction l as [|c l IH]; simpl; intros H; [constructor|].
  apply andb_true_iff in H. destruct H as [F S].
  constructor; auto.
  rewrite forallb_forall in F. apply Forall_forall. intros c' Hc'.
  specialize (F c' Hc'). unfold row_majorb, row_major in *. lia.
Qed.

Lemma rule1_cells_actual x y :
  0 <= x <= 8 -> 0 <= y <= 8 -> rule1_cells x y = actual_scan x y.
Proof. intros Hx Hy. cases9 x; cases9 y; reflexivity. Qed.

Lemma c3_obj_wf : wf_obj c3_heap c3_obj.
Proof.
  split.
  - apply seq_NoDup.
  - apply Forall_forall. intros l Hl. apply in_seq in Hl. simpl. lia.
Defined.

Lemma c3_obj_good : good (rows_of c3_heap (board_ c3_obj)).
Proof.
  split.
  - split; [reflexivity|]. repeat constructor.
  - repeat (constructor; try lia).
Defined.

(** C3, as amended.  Rule 1 scans exactly the cells [(j, i)] with [i >= y]
    and [j > x], in every row from [y] on (in the rows below the pivot too,
    the columns up to [x] are not visited), in row-major order, and assigns
    a scanned cell exactly when its candidate set has exactly one member at
    that moment, in one forward pass. *)
Theorem C3_rule1_scan (o : Sudoku) (h : heap) (x y : Z) :
  wf_obj h o -> good (rows_of h (board_ o)) ->
  0 <= x <= 8 -> 0 <= y <= 8 ->
  exists h',
    rule1 o x y h
    = Ok (snd (scan (actual_scan x y) (rows_of h (board_ o)))) h' /\
    rows_of h' (board_ o) = fst (scan (actual_scan x y) (rows_of h (board_ o))) /\
    (forall c, In c (actual_scan x y) <->
               inb c /\ y <= snd c /\ x < fst c) /\
    StronglySorted row_major (actual_scan x y).
Proof.
  intros W G Hx Hy.
  assert (Hp : inb (x, y)) by (split; assumption).
  destruct (hoare_rule1 o _ x y (proj1 G) Hp h W eq_refl) as (h' & R & _ & E & _).
  exists h'. unfold scan.
  rewrite <- rule1_cells_actual by auto.
  split; [|split; [|split]].
  - rewrite R. unfold rule1_pure. f_equal. f_equal.
    apply fold_left_ext_in. intros. apply naked_step_scan_step.
  - rewrite E. unfold rule1_pure. f_equal.
    apply fold_left_ext_in. intros. apply naked_step_scan_step.
  - intros c. rewrite in_rule1_cells. unfold inb. lia.
  - rewrite rule1_cells_actual by auto. unfold actual_scan.
    apply StronglySorted_filter. apply sortedb_sound. reflexivity.
Qed.

Lemma C3_rule1_scan_witness :
  exists h',
    rule1 c3_obj 0 0 c3_heap
    = Ok (snd (scan (actual_scan 0 0) (rows_of c3_heap (board_ c3_obj)))) h' /\
    rows_of h' (board_ c3_obj)
    = fst (scan (actual_scan 0 0) (rows_of c3_heap (board_ c3_obj))) /\
    (forall c, In c (actual_scan 0 0) <->
               inb c /\ 0 <= snd c /\ 0 < fst c) /\
    StronglySorted row_major (actual_scan 0 0).
Proof.
  apply (C3_rule1_scan c3_obj c3_heap 0 0).
  - exact c3_obj_wf.
  - exact c3_obj_good.
  - lia.
  - lia.
Defined.

(** The board of [c3_grid] is valid, its next open cell is [(0, 0)], and
    the cell [(0, 1)] (below the pivot, in its column) has the single
    candidate 1.  The scan the specification describes visits that cell and
    assigns it; rule 1 does not visit it, fills nothing and leaves the
    board as it was. *)
Lemma C3_counterexample :
  okay c3_obj c3_heap = Ok true c3_heap /\
  nextOpenCell c3_obj c3_heap = Ok (0, 0) c3_heap /\
  candidates c3_obj 0 1 c3_heap = Ok [1] c3_heap /\
  In (0, 1) (claimed_scan 0 0) /\
  snd (scan (claimed_scan 0 0) (rows_of c3_heap (board_ c3_obj))) = [(0, 1)] /\
  rule1 c3_obj 0 0 c3_heap = Ok [] c3_heap /\
  ~ (exists h',
       rule1 c3_obj 0 0 c3_heap
       = Ok (snd (scan (claimed_scan 0 0) (rows_of c3_heap (board_ c3_obj)))) h' /\
       rows_of h' (board_ c3_obj)
       = fst (scan (claimed_scan 0 0) (rows_of c3_heap (board_ c3_obj)))).
Proof.
  assert (R : rule1 c3_obj 0 0 c3_heap = Ok [] c3_heap) by (vm_compute; reflexivity).
  assert (S : snd (scan (claimed_scan 0 0) (rows_of c3_heap (board_ c3_obj)))
              = [(0, 1)]) by (vm_compute; reflexivity).
  split; [vm_compute; reflexivity|].
  split; [vm_compute; reflexivity|].
  split; [vm_compute; reflexivity|].
  split; [vm_compute; tauto|].
  split; [exact S|]. split; [exact R|].
  intros (h' & E & _). rewrite R, S in E. discriminate.
Qed.

(** ** C5: running a rule twice *)


Lemma c5_obj_wf : wf_obj c5_heap c5_obj.
Proof.
  split.
  - apply seq_NoDup.
  - apply Forall_forall. intros l Hl. apply in_seq in Hl. simpl. lia.
Defined.

Lemma c5_obj_good : good (rows_of c5_heap (board_ c5_obj)).
Proof.
  split.
  - split; [reflexivity|]. repeat constructor.
  - repeat (constructor; try lia).
Defined.




(** ** C6: rule 2 *)

Lemma includes_app v l l' : includes v (l ++ l') = includes v l || includes v l'.
Proof. unfold includes. apply existsb_app. Qed.

Lemma filter_filter {A} (p q : A -> bool) l :
  filter q (filter p l) = filter (fun a => p a && q a) l.
Proof.
  induction l as [|a l IH]; simpl; auto.
  destruct (p a); simpl; [destruct (q a)|]; now rewrite IH.
Qed.

Lemma difference_union a others :
  difference a others = filter (fun v => negb (includes v (concat others))) a.
Proof.
  unfold difference. revert a. induction others as [|b others IH]; intros a; simpl.
  - symmetry. now apply forallb_filter_id, forallb_forall.
  - rewrite IH, filter_filter. apply filter_ext. intros v.
    rewrite includes_app. now destruct (includes v b).
Qed.

(** The cells of row [i] with the differences the rule computes. *)
Lemma row_diffs g i :
  combine (row_cells i) (diffs_of (map (cands g) (row_cells i)))
  = map (fun j => ((j, i), row_difference g i j)) keys9.
Proof.
  unfold diffs_of. rewrite length_map.
  change (length (row_cells i)) with 9%nat.
  cbn [seq map row_cells keys9 range Z.to_nat Z.sub Z.of_nat Pos.to_nat
       Pos.iter_op Nat.add Z.add Z.opp Z.pos_sub Pos.of_succ_nat] .
  cbn [nth remove_at combine].
  rewrite !difference_union.
  reflexivity.
Qed.

Lemma fold_fill_cells : forall (l : list (cell * list Z)),
  NoDup (map fst l) -> Forall inb (map fst l) ->
  forall g b, wf_grid g ->
    snd (fold_left (fun st cd => fill st (fst cd) (snd cd)) l (g, b))
    = b ++ map fst (filter (fun cd => (length (snd cd) =? 1)%nat) l) /\
    wf_grid (fst (fold_left (fun st cd => fill st (fst cd) (snd cd)) l (g, b))) /\
    (forall c d, In (c, d) l ->
       cell_of (fst (fold_left (fun st cd => fill st (fst cd) (snd cd)) l (g, b))) c
       = if (length d =? 1)%nat then nth 0 d 0 else cell_of g c) /\
    (forall c, inb c -> ~ In c (map fst l) ->
       cell_of (fst (fold_left (fun st cd => fill st (fst cd) (snd cd)) l (g, b))) c
       = cell_of g c).
Proof.
  induction l as [|[c d] l IH]; intros ND FI g b W.
  - simpl. rewrite app_nil_r.
    split; [reflexivity|]. split; [assumption|].
    split; [intros c d []|auto].
  - simpl in ND, FI. inversion ND as [|? ? Nc ND']; subst.
    inversion FI as [|? ? Ic FI']; subst.
    cbn [fold_left fst snd].
    set (st1 := fill (g, b) c d).
    assert (W1 : wf_grid (fst st1)) by (now apply fill_wf).
    destruct (IH ND' FI' (fst st1) (snd st1) W1) as (E & W' & In1 & Out1).
    rewrite <- surjective_pairing in E, W', In1, Out1.
    assert (C1 : cell_of (fst st1) c
                 = if (length d =? 1)%nat then nth 0 d 0 else cell_of g c).
    { unfold st1, fill. destruct (length d =? 1)%nat; simpl; auto.
      now apply cell_of_gset_eq. }
    assert (O1 : forall c', inb c' -> c' <> c -> cell_of (fst st1) c' = cell_of g c').
    { intros c' Ic' Ne. unfold st1, fill.
      destruct (length d =? 1)%nat; simpl; auto.
      apply cell_of_gset_neq; auto. }
    split; [|split; [assumption|split]].
    + rewrite E. unfold st1, fill. cbn [filter snd fst].
      destruct (length d =? 1)%nat; simpl; auto. now rewrite <- app_assoc.
    + intros c' d' [H|H].
      * injection H as <- <-. rewrite Out1; auto.
      * rewrite (In1 c' d' H).
        destruct (length d' =? 1)%nat; auto.
        apply O1.
        -- rewrite Forall_forall in FI'. apply FI'.
           apply in_map_iff. exists (c', d'). auto.
        -- intros ->. apply Nc. apply in_map_iff. exists (c, d'). auto.
    + intros c' Ic' N. rewrite Out1.
      * apply O1; auto. intros ->. apply N. now left.
      * assumption.
      * intros H. apply N. now right.
Qed.

Lemma map_fst_filter_keys {A} (F : A -> cell * list Z) (G : A -> cell)
  (P : cell * list Z -> bool) (Q : cell -> bool) ks :
  (forall k, fst (F k) = G k) -> (forall k, P (F k) = Q (G k)) ->
  map fst (filter P (map F ks)) = filter Q (map G ks).
Proof.
  intros Ef Ep. induction ks as [|k ks IH]; simpl; auto.
  rewrite Ep. destruct (Q (G k)); simpl; now rewrite ?Ef, IH.
Qed.

Lemma rule2_row_spec_wf st i :
  wf_grid (fst st) -> wf_grid (fst (rule2_row_spec st i)).
Proof.
  intros [L F]. unfold rule2_row_spec. cbn [fst]. split.
  - now rewrite update_length.
  - apply Forall_update; auto.
Qed.

(** The write loop of the rule on one row does what the specification
    says. *)
Lemma hidden_pass_row st i :
  wf_grid (fst st) -> 0 <= i <= 8 ->
  hidden_pass st (row_cells i) = rule2_row_spec st i.
Proof.
  intros W Hi. destruct st as [g b]. simpl fst in *.
  unfold hidden_pass, rule2_row_spec. cbn [fst snd].
  assert (ND : NoDup (map fst (combine (row_cells i)
                        (diffs_of (map (cands g) (row_cells i)))))).
  { rewrite map_fst_combine by (now rewrite diffs_of_length, length_map).
    apply group_NoDup. exists i. auto. }
  assert (FI : Forall inb (map fst (combine (row_cells i)
                        (diffs_of (map (cands g) (row_cells i)))))).
  { rewrite map_fst_combine by (now rewrite diffs_of_length, length_map).
    now apply Forall_inb_row. }
  destruct (fold_fill_cells _ ND FI g b W) as (E & W' & In1 & Out1).
  rewrite map_fst_combine in Out1 by (now rewrite diffs_of_length, length_map).
  rewrite row_diffs in *.
  apply injective_projections; cbn [fst snd].
  - pose proof (rule2_row_spec_wf (g, b) i W) as Wu.
    unfold rule2_row_spec in Wu. cbn [fst] in Wu.
    apply grid_ext; auto.
    intros [a r] [Ha Hr]. simpl in Ha, Hr.
    destruct (Z.eq_dec r i) as [->|Ne].
    + rewrite (In1 (a, i) (row_difference g i a)).
      2: { apply in_map_iff. exists a. split; auto. apply in_range_iff. lia. }
      unfold cell_of, row_at, at_. cbn [fst snd].
      rewrite nth_update_eq by (destruct W; lia).
      rewrite (nth_keys9 a) by auto.
      unfold cell_of, row_at, at_. cbn [fst snd].
      destruct (row_difference g i a) as [|v [|w l]]; reflexivity.
    + rewrite Out1.
      * unfold cell_of, row_at. cbn [fst snd].
        rewrite nth_update_neq by lia. reflexivity.
      * split; auto.
      * intros H. apply in_row_cells in H. simpl in H. lia.
  - rewrite E. f_equal. unfold row_cells.
    apply map_fst_filter_keys; reflexivity.
Qed.

Lemma rule2_pure_spec g x y :
  wf_grid g -> 0 <= y <= 8 -> rule2_pure g x y = rule2_spec g y.
Proof.
  intros W Hy. unfold rule2_pure, rule2_spec. rewrite fold_left_map.
  assert (H : forall l st, wf_grid (fst st) -> Forall (fun i => 0 <= i <= 8) l ->
              fold_left (fun s c => hidden_pass s (row_cells c)) l st
              = fold_left rule2_row_spec l st).
  { induction l as [|i l IH]; intros st Ws F; simpl; auto.
    inversion F as [|? ? Hi F']; subst.
    rewrite hidden_pass_row by auto.
    apply IH; auto. now apply rule2_row_spec_wf. }
  apply H; auto.
  apply Forall_forall. intros i Hi. apply in_range_iff in Hi. lia.
Qed.

(** C6.  Rule 2 processes the rows [i >= y] one after the other; in a row
    it takes the candidate set of every cell, and writes to a cell the
    single value of the difference between its candidate set and the union
    of the candidate sets of the other cells of the row, exactly when that
    difference has exactly one value. *)
Theorem C6_rule2_rows (o : Sudoku) (h : heap) (x y : Z) :
  wf_obj h o -> good (rows_of h (board_ o)) ->
  0 <= x <= 8 -> 0 <= y <= 8 ->
  exists h',
    rule2 o x y h = Ok (snd (rule2_spec (rows_of h (board_ o)) y)) h' /\
    rows_of h' (board_ o) = fst (rule2_spec (rows_of h (board_ o)) y).
Proof.
  intros W G Hx Hy.
  assert (Hp : inb (x, y)) by (split; assumption).
  destruct (hoare_rule2 o _ x y (proj1 G) Hp h W eq_refl) as (h' & R & _ & E & _).
  exists h'. rewrite <- (rule2_pure_spec _ x y (proj1 G) Hy). auto.
Qed.

Lemma C6_rule2_rows_witness :
  exists h',
    rule2 c5_obj 0 0 c5_heap
    = Ok (snd (rule2_spec (rows_of c5_heap (board_ c5_obj)) 0)) h' /\
    rows_of h' (board_ c5_obj)
    = fst (rule2_spec (rows_of c5_heap (board_ c5_obj)) 0).
Proof.
  apply (C6_rule2_rows c5_obj c5_heap 0 0).
  - exact c5_obj_wf.
  - exact c5_obj_good.
  - lia.
  - lia.
Defined.

(** ** C4: scenario B *)

Lemma scenarioB_solve :
  solve scenarioB_obj scenarioB_heap3 = Ok (Some scenarioB_sols) scenarioB_final.
Proof. vm_compute. reflexivity. Qed.







(** * Further properties of the code *)

(** ** The constructor *)

Lemma wf_grid_check_false g :
  negb (length g =? 9)%nat || existsb (fun row => negb (length row =? 9)%nat) g
  = false -> wf_grid g.
Proof.
  intros H. apply orb_false_iff in H. destruct H as [L E].
  apply negb_false_iff, Nat.eqb_eq in L. split; [assumption|].
  apply Forall_forall. intros r Hr.
  destruct (Nat.eqb_spec (length r) 9) as [|N]; [assumption|exfalso].
  assert (T : existsb (fun row => negb (length row =? 9)%nat) g = true).
  { apply existsb_exists. exists r. split; auto.
    apply negb_true_iff. now apply Nat.eqb_neq. }
  congruence.
Qed.

Lemma in_range_check_false g :
  existsb (fun cell => (cell <? 0) || (cell >? 9)) (concat g) = false ->
  in_range g.
Proof.
  intros H. apply Forall_forall. intros r Hr. apply Forall_forall. intros v Hv.
  destruct (Z_le_dec 0 v), (Z_le_dec v 9); try lia; exfalso.
  all: assert (T : existsb (fun cell => (cell <? 0) || (cell >? 9)) (concat g) = true)
         by (apply existsb_exists; exists v; split;
             [apply in_concat; eauto | lia]);
       congruence.
Qed.

(** The constructor after its copy of the matrix. *)
Lemma constructor_unfold (input : list loc) (h : heap) :
  Forall (fun l => (l < length h)%nat) input ->
  constructor input h
  = (if negb (length (rows_of h input) =? 9)%nat
        || existsb (fun row => negb (length row =? 9)%nat) (rows_of h input)
     then throw StructureError
     else if existsb (fun cell => (cell <? 0) || (cell >? 9))
                     (concat (rows_of h input))
          then throw CellRangeError
          else o <- copy_rows (seq (length h) (length (rows_of h input))) ;;
               ret (mkSudoku (seq (length h) (length (rows_of h input))) o))
      (h ++ rows_of h input).
Proof.
  intros F. set (g := rows_of h input).
  assert (Lg : length g = length input) by (unfold g, rows_of; apply length_map).
  unfold constructor. unfold bind at 1. rewrite copy_rows_spec by auto.
  fold g. rewrite <- Lg. unfold bind at 1. rewrite rows_of_app_new.
  now rewrite length_seq.
Qed.

Lemma constructor_run (input : list loc) (h : heap) :
  Forall (fun l => (l < length h)%nat) input -> good (rows_of h input) ->
  constructor input h
  = Ok (mkSudoku (seq (length h) 9) (seq (length h + 9) 9))
       ((h ++ rows_of h input) ++ rows_of h input).
Proof.
  intros F [W R]. rewrite constructor_unfold by auto.
  rewrite wf_grid_check, in_range_check by auto.
  destruct W as [L _]. rewrite L.
  unfold bind. rewrite copy_rows_spec.
  - rewrite length_seq. rewrite length_app, L.
    replace (seq (length h) 9) with (seq (length h) (length (rows_of h input)))
      at 2 by (now rewrite L).
    now rewrite rows_of_app_new.
  - apply Forall_forall. intros l Hl. apply in_seq in Hl.
    rewrite length_app. lia.
Qed.

(** X1.  The three outcomes of the constructor on a matrix: the shape is checked
    first, then the range of the cells; the matrix itself is never
    written. *)
Theorem constructor_outcome (input : list loc) (h : heap) :
  Forall (fun l => (l < length h)%nat) input ->
  exists h',
    (forall l, (l < length h)%nat -> nth l h' [] = nth l h []) /\
    ((~ wf_grid (rows_of h input) /\
      constructor input h = Throw StructureError h') \/
     (wf_grid (rows_of h input) /\ ~ in_range (rows_of h input) /\
      constructor input h = Throw CellRangeError h') \/
     (good (rows_of h input) /\
      exists o, constructor input h = Ok o h' /\ wf_obj h' o /\
                rows_of h' (board_ o) = rows_of h input /\
                rows_of h' (original_ o) = rows_of h input)).
Proof.
  intros F. set (g := rows_of h input).
  assert (Lg : length g = length input) by (unfold g, rows_of; apply length_map).
  assert (E1 : rows_of (h ++ g) (seq (length h) (length g)) = g)
    by apply rows_of_app_new.
  assert (F1 : Forall (fun l => (l < length (h ++ g))%nat)
                      (seq (length h) (length g))).
  { apply Forall_forall. intros l Hl. apply in_seq in Hl.
    rewrite length_app. lia. }
  pose proof (constructor_unfold input h F) as R. fold g in R.
  destruct (negb (length g =? 9)%nat
            || existsb (fun row => negb (length row =? 9)%nat) g) eqn:C1.
  - exists (h ++ g). split; [intros; now apply app_nth1|].
    left. split; [|exact R].
    intros W. rewrite (wf_grid_check g W) in C1. discriminate.
  - apply wf_grid_check_false in C1.
    destruct (existsb (fun cell => (cell <? 0) || (cell >? 9)) (concat g)) eqn:C2.
    + exists (h ++ g). split; [intros; now apply app_nth1|].
      right; left. split; [assumption|]. split; [|exact R].
      intros Rg. rewrite (in_range_check g Rg) in C2. discriminate.
    + apply in_range_check_false in C2.
      exists ((h ++ g) ++ g). split.
      { intros l Hl. rewrite app_nth1 by (rewrite length_app; lia).
        now apply app_nth1. }
      right; right. split; [split; assumption|].
      exists (mkSudoku (seq (length h) (length g))
                       (seq (length (h ++ g)) (length g))).
      split; [|split; [|split]].
      * rewrite R. unfold bind. rewrite copy_rows_spec by auto.
        now rewrite length_seq, E1.
      * split; simpl.
        -- apply seq_NoDup.
        -- apply Forall_forall. intros l Hl. apply in_seq in Hl.
           rewrite !length_app. lia.
      * simpl. rewrite rows_of_app_old by auto. exact E1.
      * simpl. apply rows_of_app_new.
Qed.

Lemma constructor_outcome_witness :
  exists h',
    (forall l, (l < length (firstn 8 scenarioB))%nat ->
               nth l h' [] = nth l (firstn 8 scenarioB) []) /\
    ((~ wf_grid (rows_of (firstn 8 scenarioB) (seq 0 8)) /\
      constructor (seq 0 8) (firstn 8 scenarioB) = Throw StructureError h') \/
     (wf_grid (rows_of (firstn 8 scenarioB) (seq 0 8)) /\
      ~ in_range (rows_of (firstn 8 scenarioB) (seq 0 8)) /\
      constructor (seq 0 8) (firstn 8 scenarioB) = Throw CellRangeError h') \/
     (good (rows_of (firstn 8 scenarioB) (seq 0 8)) /\
      exists o, constructor (seq 0 8) (firstn 8 scenarioB) = Ok o h' /\
                wf_obj h' o /\
                rows_of h' (board_ o) = rows_of (firstn 8 scenarioB) (seq 0 8) /\
                rows_of h' (original_ o)
                = rows_of (firstn 8 scenarioB) (seq 0 8))).
Proof.
  apply (constructor_outcome (seq 0 8) (firstn 8 scenarioB)).
  apply Forall_forall. intros l Hl. apply in_seq in Hl. simpl. lia.
Defined.

(** X2.  The constructor copies: a later write through the object changes
    neither the matrix it was built from nor the layout kept in
    [#original]. *)
Theorem constructor_copies (input : list loc) (h : heap) (x y v : Z) :
  Forall (fun l => (l < length h)%nat) input -> good (rows_of h input) ->
  0 <= x <= 8 -> 0 <= y <= 8 -> 0 <= v <= 9 ->
  exists o h1 h2,
    constructor input h = Ok o h1 /\
    set o x y v h1 = Ok tt h2 /\
    rows_of h2 (board_ o) = gset (rows_of h input) (x, y) v /\
    rows_of h2 input = rows_of h input /\
    rows_of h2 (original_ o) = rows_of h input.
Proof.
  intros F G Hx Hy Hv.
  set (g := rows_of h input) in *.
  assert (L : length g = 9%nat) by apply G.
  set (o := mkSudoku (seq (length h) 9) (seq (length h + 9) 9)).
  set (h1 := (h ++ g) ++ g).
  assert (W1 : wf_obj h1 o).
  { split; unfold o; cbn [board_].
    - apply seq_NoDup.
    - apply Forall_forall. intros l Hl. apply in_seq in Hl.
      unfold h1. rewrite !length_app. lia. }
  assert (E1 : rows_of h1 (board_ o) = g).
  { unfold h1, o. cbn [board_]. rewrite rows_of_app_old.
    - rewrite <- L at 1. apply rows_of_app_new.
    - apply Forall_forall. intros l Hl. apply in_seq in Hl.
      rewrite length_app. lia. }
  assert (Ei : rows_of h1 input = g).
  { unfold h1. rewrite <- app_assoc. now apply rows_of_app_old. }
  assert (Eo : rows_of h1 (original_ o) = g).
  { unfold h1, o. cbn [original_]. rewrite <- L.
    replace (length h + length g)%nat with (length (h ++ g))
      by (now rewrite length_app).
    apply rows_of_app_new. }
  assert (Hc : inb (x, y)) by (split; assumption).
  destruct (hoare_set o g x y v (proj1 G) Hc Hv h1 W1 E1)
    as (h2 & R2 & W2 & E2 & Fr).
  exists o, h1, h2.
  split; [now apply constructor_run|]. split; [assumption|].
  split; [assumption|]. split.
  - rewrite <- Ei. apply (frame_rows o); auto.
    rewrite Forall_forall in *. intros l Hl. specialize (F l Hl).
    unfold h1. rewrite !length_app. split; [lia|].
    unfold o; cbn [board_]. intros I. apply in_seq in I. lia.
  - rewrite <- Eo. apply (frame_rows o); auto.
    apply Forall_forall. intros l Hl. unfold o in Hl. cbn [original_] in Hl.
    apply in_seq in Hl.
    unfold h1. rewrite !length_app. split; [lia|].
    unfold o; cbn [board_]. intros I. apply in_seq in I. lia.
Qed.

Lemma constructor_copies_witness :
  exists o h1 h2,
    constructor scenarioB_input scenarioB_heap = Ok o h1 /\
    set o 1 0 5 h1 = Ok tt h2 /\
    rows_of h2 (board_ o)
    = gset (rows_of scenarioB_heap scenarioB_input) (1, 0) 5 /\
    rows_of h2 scenarioB_input = rows_of scenarioB_heap scenarioB_input /\
    rows_of h2 (original_ o) = rows_of scenarioB_heap scenarioB_input.
Proof.
  apply (constructor_copies scenarioB_input scenarioB_heap 1 0 5).
  - exact scenarioB_input_valid.
  - exact scenarioB_good.
  - lia.
  - lia.
  - lia.
Defined.

(** ** Accessors *)

(** X3.  A write changes the cell it names and nothing else: [get] of the same
    cell returns the value written, [get] of any other cell returns what it
    returned before, and the rows of any other array are untouched. *)
Theorem set_get (o : Sudoku) (h : heap) (x y v x' y' : Z) :
  wf_obj h o -> wf_grid (rows_of h (board_ o)) ->
  0 <= x <= 8 -> 0 <= y <= 8 -> 0 <= v <= 9 ->
  0 <= x' <= 8 -> 0 <= y' <= 8 ->
  exists h' old,
    set o x y v h = Ok tt h' /\
    get o x' y' h = Ok old h /\
    get o x' y' h' = Ok (if (x' =? x) && (y' =? y) then v else old) h' /\
    length h' = length h /\
    (forall l, ~ In l (board_ o) -> nth l h' [] = nth l h []).
Proof.
  intros W Wg Hx Hy Hv Hx' Hy'.
  assert (Hc : inb (x, y)) by (split; assumption).
  assert (Hc' : inb (x', y')) by (split; assumption).
  destruct (hoare_set o _ x y v Wg Hc Hv h W eq_refl) as (h' & R & W' & E' & _).
  exists h', (cell_of (rows_of h (board_ o)) (x', y')).
  split; [assumption|]. split; [now apply get_run|].
  assert (Wg' : wf_grid (rows_of h' (board_ o)))
    by (rewrite E'; now apply gset_wf).
  split.
  - rewrite get_run by auto. f_equal. rewrite E'.
    destruct (Z.eqb_spec x' x) as [->|Nx]; simpl.
    + destruct (Z.eqb_spec y' y) as [->|Ny].
      * now apply cell_of_gset_eq.
      * apply cell_of_gset_neq; auto. congruence.
    + apply cell_of_gset_neq; auto. congruence.
  - unfold set in R. rewrite inb_out_of_bounds in R by auto.
    replace ((v <? 0) || (v >? 9)) with false in R by lia.
    unfold bind, read, write in R. injection R as <-.
    split; [apply update_length|].
    intros l N. apply nth_update_neq. intros <-. apply N.
    apply nth_In.
    destruct Wg as [L _]. unfold rows_of in L. rewrite length_map in L.
    destruct Hy. lia.
Qed.

Lemma set_get_witness :
  exists h' old,
    set c10_obj 3 4 9 c10_heap = Ok tt h' /\
    get c10_obj 0 0 c10_heap = Ok old c10_heap /\
    get c10_obj 0 0 h' = Ok (if (0 =? 3) && (0 =? 4) then 9 else old) h' /\
    length h' = length c10_heap /\
    (forall l, ~ In l (board_ c10_obj) -> nth l h' [] = nth l c10_heap []).
Proof.
  apply (set_get c10_obj c10_heap 3 4 9 0 0).
  - split.
    + apply seq_NoDup.
    + apply Forall_forall. intros l Hl. apply in_seq in Hl. simpl. lia.
  - split; [reflexivity|]. repeat constructor.
  - lia.
  - lia.
  - lia.
  - lia.
  - lia.
Defined.

(** X4.  [delete] empties the cell it names and nothing else, whatever the cell
    held; it is the write of 0. *)
Theorem delete_get (o : Sudoku) (h : heap) (x y x' y' : Z) :
  wf_obj h o -> wf_grid (rows_of h (board_ o)) ->
  0 <= x <= 8 -> 0 <= y <= 8 -> 0 <= x' <= 8 -> 0 <= y' <= 8 ->
  exists h' old,
    delete o x y h = Ok tt h' /\
    set o x y 0 h = Ok tt h' /\
    get o x' y' h = Ok old h /\
    get o x' y' h' = Ok (if (x' =? x) && (y' =? y) then 0 else old) h'.
Proof.
  intros W Wg Hx Hy Hx' Hy'.
  assert (Hc : inb (x, y)) by (split; assumption).
  assert (Hc' : inb (x', y')) by (split; assumption).
  assert (D : delete o x y h = set o x y 0 h).
  { unfold delete, set. destruct (out_of_bounds x y); reflexivity. }
  destruct (hoare_set o _ x y 0 Wg Hc ltac:(lia) h W eq_refl)
    as (h' & R & W' & E' & _).
  exists h', (cell_of (rows_of h (board_ o)) (x', y')).
  split; [now rewrite D|]. split; [assumption|].
  split; [now apply get_run|].
  assert (Wg' : wf_grid (rows_of h' (board_ o)))
    by (rewrite E'; now apply gset_wf).
  rewrite get_run by auto. f_equal. rewrite E'.
  destruct (Z.eqb_spec x' x) as [->|Nx]; simpl.
  - destruct (Z.eqb_spec y' y) as [->|Ny].
    + now apply cell_of_gset_eq.
    + apply cell_of_gset_neq; auto. congruence.
  - apply cell_of_gset_neq; auto. congruence.
Qed.

Lemma delete_get_witness :
  exists h' old,
    delete c10_obj 0 0 c10_heap = Ok tt h' /\
    set c10_obj 0 0 0 c10_heap = Ok tt h' /\
    get c10_obj 0 0 c10_heap = Ok old c10_heap /\
    get c10_obj 0 0 h' = Ok (if (0 =? 0) && (0 =? 0) then 0 else old) h'.
Proof.
  apply (delete_get c10_obj c10_heap 0 0 0 0).
  - split.
    + apply seq_NoDup.
    + apply Forall_forall. intros l Hl. apply in_seq in Hl. simpl. lia.
  - split; [reflexivity|]. repeat constructor.
  - lia.
  - lia.
  - lia.
  - lia.
Defined.

(** ** [clone] *)

(** X5.  A clone holds the same grid in rows of its own: a write through the
    clone leaves the object as it was, and a write through the object
    leaves the clone as it was. *)
Theorem clone_independent (o : Sudoku) (h : heap) (x y v : Z) :
  wf_obj h o -> good (rows_of h (board_ o)) ->
  0 <= x <= 8 -> 0 <= y <= 8 -> 0 <= v <= 9 ->
  exists c h1,
    clone o h = Ok c h1 /\
    rows_of h1 (board_ c) = rows_of h (board_ o) /\
    rows_of h1 (board_ o) = rows_of h (board_ o) /\
    (exists h2,
       set c x y v h1 = Ok tt h2 /\
       rows_of h2 (board_ c) = gset (rows_of h (board_ o)) (x, y) v /\
       rows_of h2 (board_ o) = rows_of h (board_ o)) /\
    (exists h2,
       set o x y v h1 = Ok tt h2 /\
       rows_of h2 (board_ o) = gset (rows_of h (board_ o)) (x, y) v /\
       rows_of h2 (board_ c) = rows_of h (board_ o)).
Proof.
  intros W G Hx Hy Hv.
  set (g := rows_of h (board_ o)) in *.
  assert (Hc : inb (x, y)) by (split; assumption).
  destruct (constructor_spec (board_ o) h (proj2 W) G)
    as (c & t & Rc & Wc & Ec & Fc).
  fold g in Ec.
  pose proof (wf_obj_app o h t W) as W1.
  assert (E1 : rows_of (h ++ t) (board_ o) = g)
    by (apply rows_of_app_old, W).
  exists c, (h ++ t).
  split; [exact Rc|]. split; [assumption|]. split; [assumption|].
  rewrite Forall_forall in Fc.
  split.
  - destruct (hoare_set c g x y v (proj1 G) Hc Hv (h ++ t) Wc Ec)
      as (h2 & R2 & W2 & E2 & Fr).
    exists h2. split; [assumption|]. split; [assumption|].
    rewrite <- E1. apply (frame_rows c); auto.
    destruct W1 as [_ F1]. rewrite Forall_forall in *.
    intros l Hl. split; [now apply F1|].
    intros I. specialize (Fc l I). destruct W as [_ F0].
    rewrite Forall_forall in F0. specialize (F0 l Hl). simpl in F0. lia.
  - destruct (hoare_set o g x y v (proj1 G) Hc Hv (h ++ t) W1 E1)
      as (h2 & R2 & W2 & E2 & Fr).
    exists h2. split; [assumption|]. split; [assumption|].
    rewrite <- Ec. apply (frame_rows o); auto.
    destruct Wc as [_ F1]. rewrite Forall_forall in *.
    intros l Hl. split; [now apply F1|].
    intros I. specialize (Fc l Hl). destruct W as [_ F0].
    rewrite Forall_forall in F0. specialize (F0 l I). simpl in F0. lia.
Qed.

Lemma clone_independent_witness :
  exists c h1,
    clone scenarioB_obj scenarioB_heap3 = Ok c h1 /\
    rows_of h1 (board_ c) = rows_of scenarioB_heap3 (board_ scenarioB_obj) /\
    rows_of h1 (board_ scenarioB_obj)
    = rows_of scenarioB_heap3 (board_ scenarioB_obj) /\
    (exists h2,
       set c 1 0 5 h1 = Ok tt h2 /\
       rows_of h2 (board_ c)
       = gset (rows_of scenarioB_heap3 (board_ scenarioB_obj)) (1, 0) 5 /\
       rows_of h2 (board_ scenarioB_obj)
       = rows_of scenarioB_heap3 (board_ scenarioB_obj)) /\
    (exists h2,
       set scenarioB_obj 1 0 5 h1 = Ok tt h2 /\
       rows_of h2 (board_ scenarioB_obj)
       = gset (rows_of scenarioB_heap3 (board_ scenarioB_obj)) (1, 0) 5 /\
       rows_of h2 (board_ c)
       = rows_of scenarioB_heap3 (board_ scenarioB_obj)).
Proof.
  apply (clone_independent scenarioB_obj scenarioB_heap3 1 0 5).
  - exact scenarioB_obj_wf.
  - exact scenarioB_obj_good.
  - lia.
  - lia.
  - lia.
Defined.

(** ** Validity *)

Lemma NoDup_filter_positions (l : list Z) :
  NoDup (filter Boolean l) <->
  (forall i j, (i < j < length l)%nat ->
               nth i l 0 <> 0 -> nth i l 0 <> nth j l 0).
Proof.
  induction l as [|a l IH]; simpl.
  - split; [intros _ i j Hij; lia | constructor].
  - split.
    + intros N i j Hij Nz E.
      assert (Nl : NoDup (filter Boolean l)).
      { destruct (Boolean a); [now inversion N | assumption]. }
      destruct i as [|i], j as [|j]; try lia.
      * assert (Ba : Boolean a = true) by (unfold Boolean; lia).
        rewrite Ba in N. apply NoDup_cons_iff in N. destruct N as [Na _].
        apply Na. apply filter_In. split.
        -- simpl in E. rewrite E. apply nth_In. lia.
        -- exact Ba.
      * apply (proj1 IH Nl i j); auto. lia.
    + intros H.
      assert (Nl : NoDup (filter Boolean l)).
      { apply IH. intros i j Hij. apply (H (S i) (S j)). lia. }
      destruct (Boolean a) eqn:Ba; [|assumption].
      constructor; [|assumption].
      intros I. apply filter_In in I. destruct I as [I _].
      apply In_nth with (d := 0) in I. destruct I as (j & Hj & E).
      apply (H O (S j)); [lia| |simpl; congruence].
      simpl. unfold Boolean in Ba. lia.
Qed.

(** X6.  [isUnique] holds exactly when no nonzero value stands at two positions
    of the list; zeros may repeat. *)
Theorem isUnique_positions (l : list Z) :
  isUnique l = true <->
  (forall i j, (i < j < length l)%nat ->
               nth i l 0 <> 0 -> nth i l 0 <> nth j l 0).
Proof. rewrite isUnique_NoDup. apply NoDup_filter_positions. Qed.

Lemma distinct_unique (f : cell -> Z) grp :
  NoDup grp ->
  (forall c c', In c grp -> In c' grp -> c <> c' -> f c <> 0 -> f c <> f c') ->
  NoDup (filter Boolean (map f grp)).
Proof.
  induction grp as [|a grp IH]; simpl; intros N H; [constructor|].
  inversion N as [|? ? Na N']; subst.
  assert (Nl : NoDup (filter Boolean (map f grp))).
  { apply IH; auto. }
  destruct (Boolean (f a)) eqn:Ba; [|assumption].
  constructor; [|assumption].
  intros I. apply filter_In in I. destruct I as [I _].
  apply in_map_iff in I. destruct I as (c & E & Hc).
  apply (H a c); auto.
  - intros ->. contradiction.
  - unfold Boolean in Ba. lia.
Qed.

(** X7.  The validity check holds exactly when no nonzero value is held by two
    different cells of one row, one column or one box. *)
Theorem okay_conflicts (o : Sudoku) (h : heap) :
  wf_grid (rows_of h (board_ o)) ->
  exists b,
    okay o h = Ok b h /\
    (b = true <->
     forall c c',
       inb c -> inb c' -> c <> c' ->
       cell_of (rows_of h (board_ o)) c <> 0 ->
       cell_of (rows_of h (board_ o)) c = cell_of (rows_of h (board_ o)) c' ->
       snd c <> snd c' /\ fst c <> fst c' /\ box_of c <> box_of c').
Proof.
  intros W. set (g := rows_of h (board_ o)) in *.
  exists (okay_of g). split; [apply okay_run|].
  rewrite (okay_of_groups g W). split.
  - intros U c c' Hc Hc' Ne Nz E.
    assert (D : forall grp, is_group grp -> In c grp -> In c' grp -> False).
    { intros grp G I I'.
      apply (unique_distinct (cell_of g) grp c c'); auto.
      apply isUnique_NoDup. now apply U. }
    split; [|split]; intros Eq.
    + apply (D (row_cells (snd c))).
      * apply row_group; auto.
      * apply row_group; auto.
      * rewrite Eq. apply row_group; auto.
    + apply (D (col_cells (fst c))).
      * apply col_group; auto.
      * apply col_group; auto.
      * rewrite Eq. apply col_group; auto.
    + apply (D (box_cells (box_of c))).
      * apply box_group; auto.
      * apply box_group; auto.
      * rewrite Eq. apply box_group; auto.
  - intros H grp G. apply isUnique_NoDup.
    pose proof (group_inb grp G) as F. rewrite Forall_forall in F.
    apply distinct_unique; [now apply group_NoDup|].
    intros c c' I I' Ne Nz E.
    destruct (H c c' (F c I) (F c' I') Ne Nz E) as (Hr & Hk & Hb).
    destruct (group_of_cell grp c G I) as [Eg|[Eg|Eg]].
    + rewrite Eg in I'. apply in_row_cells in I'. destruct I'. congruence.
    + rewrite Eg in I'. apply in_col_cells in I'. destruct I'. congruence.
    + rewrite Eg in I'. apply in_box_cells in I'; [|apply box_of_range, (F c I)].
      destruct I'. congruence.
Qed.

Lemma okay_conflicts_witness :
  exists b,
    okay c10_obj c10_heap = Ok b c10_heap /\
    (b = true <->
     forall c c',
       inb c -> inb c' -> c <> c' ->
       cell_of (rows_of c10_heap (board_ c10_obj)) c <> 0 ->
       cell_of (rows_of c10_heap (board_ c10_obj)) c
       = cell_of (rows_of c10_heap (board_ c10_obj)) c' ->
       snd c <> snd c' /\ fst c <> fst c' /\ box_of c <> box_of c').
Proof.
  apply (okay_conflicts c10_obj c10_heap).
  split; [reflexivity|]. repeat constructor.
Defined.

(** ** The views *)

(** X8.  [transpose] on a square matrix: the result is square of the same size,
    its entry [(i, j)] is the entry [(j, i)] of the matrix, and transposing
    twice gives the matrix back. *)
Theorem transpose_square (m : grid) :
  Forall (fun r => length r = length m) m ->
  length (transpose m) = length m /\
  Forall (fun r => length r = length m) (transpose m) /\
  (forall i j, (i < length m)%nat -> (j < length m)%nat ->
     nth j (nth i (transpose m) []) 0 = nth i (nth j m []) 0) /\
  transpose (transpose m) = m.
Proof.
  intros Sq.
  assert (L : length (transpose m) = length m).
  { unfold transpose. now rewrite length_map, length_seq. }
  assert (R : Forall (fun r => length r = length m) (transpose m)).
  { unfold transpose. apply Forall_forall. intros r Hr.
    apply in_map_iff in Hr. destruct Hr as (i & <- & _). apply length_map. }
  assert (N : forall m' i j, (i < length m')%nat -> (j < length m')%nat ->
     nth j (nth i (transpose m') []) 0 = nth i (nth j m' []) 0).
  { intros m' i j Hi Hj. unfold transpose.
    rewrite (nth_map_at _ _ _ [] O) by (now rewrite length_seq).
    rewrite seq_nth by auto. simpl.
    now rewrite (nth_map_at _ _ _ 0 []) by auto. }
  split; [assumption|]. split; [assumption|]. split; [apply N|].
  apply nth_ext with (d := []) (d' := []).
  - unfold transpose at 1. now rewrite length_map, length_seq.
  - intros i Hi. unfold transpose at 1 in Hi.
    rewrite length_map, length_seq, L in Hi.
    rewrite Forall_forall in Sq, R.
    assert (Li : length (nth i m []) = length m) by (apply Sq, nth_In; auto).
    apply nth_ext with (d := 0) (d' := 0).
    + rewrite Li. unfold transpose at 1.
      rewrite (nth_map_at _ _ _ [] O) by (rewrite length_seq; lia).
      now rewrite length_map.
    + intros j Hj.
      assert (Hj' : (j < length m)%nat).
      { unfold transpose at 1 in Hj.
        rewrite (nth_map_at _ _ _ [] O) in Hj by (rewrite length_seq; lia).
        rewrite length_map in Hj. lia. }
      rewrite N by lia. apply N; auto.
Qed.

Lemma transpose_square_witness :
  length (transpose scenarioB) = length scenarioB /\
  Forall (fun r => length r = length scenarioB) (transpose scenarioB) /\
  (forall i j, (i < length scenarioB)%nat -> (j < length scenarioB)%nat ->
     nth j (nth i (transpose scenarioB) []) 0 = nth i (nth j scenarioB []) 0) /\
  transpose (transpose scenarioB) = scenarioB.
Proof.
  apply (transpose_square scenarioB). repeat constructor.
Defined.

(** X9.  The views of a board: the column [x] read at [y], and the square
    [(y / 3) * 3 + x / 3] read at [(y mod 3) * 3 + x mod 3], are the cell
    [(x, y)]; there are nine squares of nine cells. *)
Theorem views_cells (g : grid) (x y : Z) :
  wf_grid g -> 0 <= x <= 8 -> 0 <= y <= 8 ->
  at_ (row_at g y) x = cell_of g (x, y) /\
  at_ (row_at (columns_of g) x) y = cell_of g (x, y) /\
  at_ (row_at (squares_of g) ((y / 3) * 3 + x / 3)) ((y mod 3) * 3 + x mod 3)
  = cell_of g (x, y) /\
  wf_grid (columns_of g) /\ wf_grid (squares_of g).
Proof.
  intros W Hx Hy.
  split; [reflexivity|]. split; [|split; [|split]].
  - rewrite column_at_cells by auto. unfold at_, col_cells.
    rewrite map_map. now rewrite (nth_keys9 y).
  - assert (Hp : inb (x, y)) by (split; assumption).
    pose proof (box_of_range _ Hp) as Hb. unfold box_of in Hb. simpl in Hb.
    rewrite square_at_cells by auto. unfold at_.
    cases9 x; cases9 y; reflexivity.
  - rewrite wf_grid_columns by auto. split; [reflexivity|].
    apply Forall_forall. intros r Hr. apply in_map_iff in Hr.
    destruct Hr as (k & <- & _). reflexivity.
  - rewrite wf_grid_squares by auto. split; [reflexivity|].
    apply Forall_forall. intros r Hr. apply in_map_iff in Hr.
    destruct Hr as (k & <- & _). reflexivity.
Qed.

Lemma views_cells_witness :
  at_ (row_at scenarioB 4) 7 = cell_of scenarioB (7, 4) /\
  at_ (row_at (columns_of scenarioB) 7) 4 = cell_of scenarioB (7, 4) /\
  at_ (row_at (squares_of scenarioB) ((4 / 3) * 3 + 7 / 3))
      ((4 mod 3) * 3 + 7 mod 3)
  = cell_of scenarioB (7, 4) /\
  wf_grid (columns_of scenarioB) /\ wf_grid (squares_of scenarioB).
Proof.
  apply (views_cells scenarioB 7 4).
  - split; [reflexivity|]. repeat constructor.
  - lia.
  - lia.
Defined.

(** ** Solved grids *)

Lemma solution_group_perm S grp :
  solution S -> is_group grp ->
  Permutation (map (cell_of S) grp) [1; 2; 3; 4; 5; 6; 7; 8; 9].
Proof.
  intros Sol G.
  pose proof (group_inb grp G) as F. rewrite Forall_forall in F.
  apply NoDup_Permutation.
  - pose proof (proj1 (okay_of_groups S (proj1 (proj1 Sol)))
                      (solution_okay S Sol) grp G) as U.
    apply isUnique_NoDup in U.
    rewrite forallb_filter_id in U; auto.
    apply forallb_forall. intros w Hw. apply in_map_iff in Hw.
    destruct Hw as (c & <- & Hc).
    pose proof (solution_cell S c Sol (F c Hc)). unfold Boolean. lia.
  - repeat constructor; simpl; intuition discriminate.
  - intros v. split.
    + intros I. apply in_map_iff in I. destruct I as (c & <- & Hc).
      pose proof (solution_cell S c Sol (F c Hc)). simpl. lia.
    + intros I.
      assert (Hv : 1 <= v <= 9) by (simpl in I; lia).
      destruct (solution_group_value S grp v Sol G Hv) as (c & Hc & E).
      apply in_map_iff. eauto.
Qed.

(** X10.  Every grid [solve] returns is a Latin square with boxes: each of its
    rows, columns and squares is a permutation of 1..9. *)
Theorem solve_permutations (o : Sudoku) (h : heap) :
  wf_obj h o -> good (rows_of h (board_ o)) ->
  forall sols h' s k,
    solve o h = Ok (Some sols) h' -> In s sols -> 0 <= k <= 8 ->
    Permutation (row_at (rows_of h' (board_ s)) k) [1; 2; 3; 4; 5; 6; 7; 8; 9] /\
    Permutation (row_at (columns_of (rows_of h' (board_ s))) k)
                [1; 2; 3; 4; 5; 6; 7; 8; 9] /\
    Permutation (row_at (squares_of (rows_of h' (board_ s))) k)
                [1; 2; 3; 4; 5; 6; 7; 8; 9].
Proof.
  intros W G sols h' s k R Hs Hk.
  destruct (solve_spec o h W G) as (r & h'' & R' & _ & _ & Post).
  rewrite R in R'.
  assert (Er : r = Some sols) by congruence.
  assert (Eh : h'' = h') by congruence.
  subst r h''. destruct Post as [_ Iff].
  destruct (proj1 (Iff (rows_of h' (board_ s)))) as [Sol _].
  { unfold grids_of. apply in_map_iff. eauto. }
  pose proof (proj1 (proj1 Sol)) as Ws.
  rewrite row_at_cells, column_at_cells, square_at_cells by auto.
  split; [|split]; apply solution_group_perm; auto; exists k; auto.
Qed.

Lemma solve_permutations_witness :
  Permutation (row_at (rows_of scenarioB_final
                         (board_ (hd scenarioB_obj scenarioB_sols))) 3)
              [1; 2; 3; 4; 5; 6; 7; 8; 9] /\
  Permutation (row_at (columns_of (rows_of scenarioB_final
                         (board_ (hd scenarioB_obj scenarioB_sols)))) 3)
              [1; 2; 3; 4; 5; 6; 7; 8; 9] /\
  Permutation (row_at (squares_of (rows_of scenarioB_final
                         (board_ (hd scenarioB_obj scenarioB_sols)))) 3)
              [1; 2; 3; 4; 5; 6; 7; 8; 9].
Proof.
  apply (solve_permutations scenarioB_obj scenarioB_heap3 scenarioB_obj_wf
           scenarioB_obj_good scenarioB_sols scenarioB_final
           (hd scenarioB_obj scenarioB_sols) 3).
  - exact scenarioB_solve.
  - vm_compute. left. reflexivity.
  - lia.
Defined.

(** ** The next open cell *)

Lemma findIndex_first {A} (p : A -> bool) (d : A) l k :
  0 <= findIndex p l -> (k < Z.to_nat (findIndex p l))%nat ->
  p (nth k l d) = false.
Proof.
  revert k. induction l as [|a l IH]; intros k; simpl; [lia|].
  destruct (p a) eqn:Pa; [simpl; lia|].
  destruct (findIndex p l <? 0) eqn:L; [lia|].
  intros _ Hk. destruct k as [|k]; [assumption|].
  apply IH; lia.
Qed.

Lemma nextOpenCell_of_first g x y :
  wf_grid g -> nextOpenCell_of g = (x, y) -> inb (x, y) ->
  forall c, inb c -> row_major c (x, y) -> cell_of g c <> 0.
Proof.
  intros W N Hp c Hc Before.
  unfold nextOpenCell_of in N. injection N as Ex Ey.
  destruct Hp as [Hx Hy]. simpl in Hx, Hy.
  destruct Hc as [Hcx Hcy].
  destruct Before as [Lt|[Eq Lt]]; simpl in Lt; try simpl in Eq.
  + pose proof (findIndex_first (fun row => includes 0 row) [] g
                  (Z.to_nat (snd c))) as Fi.
    rewrite Ey in Fi. specialize (Fi ltac:(lia) ltac:(lia)).
    apply includes_false in Fi. intros E. apply Fi.
    fold (row_at g (snd c)). rewrite <- E. unfold cell_of, at_.
    apply nth_In. rewrite wf_grid_row; auto; lia.
  + rewrite Ey in Ex. replace (y >=? 0) with true in Ex by lia.
    unfold indexOf in Ex.
    pose proof (findIndex_first (Z.eqb 0) 0 (row_at g y)
                  (Z.to_nat (fst c))) as Fi.
    rewrite Ex in Fi. specialize (Fi ltac:(lia) ltac:(lia)).
    apply Z.eqb_neq in Fi. unfold cell_of, at_. rewrite Eq. congruence.
Qed.

(** X11.  [#nextOpenCell] returns the first empty cell in row-major order: the
    cell is empty and every cell before it is filled; it returns
    [(-1, -1)] exactly when no cell is empty. *)
Theorem nextOpenCell_first (o : Sudoku) (h : heap) :
  wf_grid (rows_of h (board_ o)) ->
  exists x y,
    nextOpenCell o h = Ok (x, y) h /\
    ((x = -1 /\ y = -1 /\
      forall c, inb c -> cell_of (rows_of h (board_ o)) c <> 0) \/
     (inb (x, y) /\ cell_of (rows_of h (board_ o)) (x, y) = 0 /\
      forall c, inb c ->
        snd c < y \/ (snd c = y /\ fst c < x) ->
        cell_of (rows_of h (board_ o)) c <> 0)).
Proof.
  intros W. set (g := rows_of h (board_ o)) in *.
  destruct (nextOpenCell_of g) as [x y] eqn:N.
  exists x, y. split; [rewrite nextOpenCell_run; fold g; now rewrite N|].
  destruct (nextOpenCell_of_spec g x y W N) as [[B Full]|[B [Hp Z0]]].
  - left. unfold nextOpenCell_of in N.
    assert (Ey : y = -1).
    { injection N as Ex Ey.
      destruct (findIndex (fun row => includes 0 row) g >=? 0) eqn:Ge.
      - exfalso.
        destruct (findIndex_spec (fun row => includes 0 row) [] g)
          as [[E1 _]|[R P]]; [lia|].
        apply includes_true in P. rewrite forallb_forall in Full.
        assert (I : In 0 (concat g)).
        { apply in_concat. eexists. split; [|exact P].
          apply nth_In. lia. }
        specialize (Full 0 I). discriminate.
      - destruct (findIndex_spec (fun row => includes 0 row) [] g)
          as [[E1 _]|[R P]]; lia. }
    assert (Ex : x = -1).
    { injection N as Ex Ey'. rewrite Ey' in Ex. rewrite Ey in Ex.
      simpl in Ex. lia. }
    split; [assumption|]. split; [assumption|].
    intros c Hc. rewrite forallb_forall in Full.
    specialize (Full _ (cell_of_in_concat g c W Hc)).
    unfold Boolean in Full. lia.
  - right. split; [assumption|]. split; [assumption|].
    intros c Hc Before.
    now apply (nextOpenCell_of_first g x y W N Hp c Hc).
Qed.

Lemma nextOpenCell_first_witness :
  exists x y,
    nextOpenCell scenarioB_obj scenarioB_heap3 = Ok (x, y) scenarioB_heap3 /\
    ((x = -1 /\ y = -1 /\
      forall c, inb c ->
        cell_of (rows_of scenarioB_heap3 (board_ scenarioB_obj)) c <> 0) \/
     (inb (x, y) /\
      cell_of (rows_of scenarioB_heap3 (board_ scenarioB_obj)) (x, y) = 0 /\
      forall c, inb c ->
        snd c < y \/ (snd c = y /\ fst c < x) ->
        cell_of (rows_of scenarioB_heap3 (board_ scenarioB_obj)) c <> 0)).
Proof.
  apply (nextOpenCell_first scenarioB_obj scenarioB_heap3).
  apply scenarioB_obj_good.
Defined.

(** ** Candidates and validity *)

Lemma okay_pairs g :
  wf_grid g ->
  (okay_of g = true <->
   forall grp c c', is_group grp -> In c grp -> In c' grp -> c <> c' ->
                    cell_of g c <> 0 -> cell_of g c <> cell_of g c').
Proof.
  intros W. rewrite (okay_of_groups g W). split.
  - intros U grp c c' G I I' Ne Nz.
    apply (unique_distinct (cell_of g) grp); auto.
    apply isUnique_NoDup. now apply U.
  - intros H grp G. apply isUnique_NoDup.
    apply distinct_unique; [now apply group_NoDup|].
    intros c c' I I'. now apply (H grp).
Qed.

(** On a valid board, the candidates of an empty cell are exactly the
    values of 1..9 that can be written there with the board staying
    valid. *)
Lemma okay_gset_cands g c v :
  wf_grid g -> okay_of g = true -> inb c -> cell_of g c = 0 -> 1 <= v <= 9 ->
  (okay_of (gset g c v) = true <-> In v (cands g c)).
Proof.
  intros W O Hc Z0 Hv.
  pose proof (gset_wf g c v W) as W'.
  rewrite (okay_pairs _ W'). split.
  - intros P. apply cands_In; auto.
    split; [assumption|]. split; [assumption|].
    assert (NG : forall grp, is_group grp -> In c grp ->
                             ~ In v (map (cell_of g) grp)).
    { intros grp G I H. apply in_map_iff in H. destruct H as (c1 & E & I1).
      assert (Ne : c <> c1) by (intros <-; lia).
      pose proof (group_inb grp G) as F. rewrite Forall_forall in F.
      apply (P grp c c1 G I I1 Ne).
      - rewrite cell_of_gset_eq by auto. lia.
      - rewrite cell_of_gset_eq by auto.
        rewrite cell_of_gset_neq by auto. congruence. }
    split; [|split]; apply NG.
    + apply row_group; auto.
    + apply row_group; auto.
    + apply col_group; auto.
    + apply col_group; auto.
    + apply box_group; auto.
    + apply box_group; auto.
  - intros I grp c1 c2 G I1 I2 Ne Nz.
    pose proof (group_inb grp G) as F. rewrite Forall_forall in F.
    destruct (cell_eq_dec c c1) as [<-|N1].
    + rewrite cell_of_gset_eq by auto.
      rewrite cell_of_gset_neq by auto.
      intros E. apply (cands_not_in_group g grp c c2 v W G I1 I2 I). congruence.
    + rewrite (cell_of_gset_neq g c c1) in * by auto.
      destruct (cell_eq_dec c c2) as [<-|N2].
      * rewrite cell_of_gset_eq by auto.
        apply (cands_not_in_group g grp c c1 v W G I2 I1 I).
      * rewrite cell_of_gset_neq by auto.
        apply (proj1 (okay_pairs g W) O grp); auto.
Qed.

(** X12.  The candidates of an empty cell are the values that keep the board
    valid: on a valid board, writing a value of 1..9 into an empty cell
    leaves the validity check true exactly when the value is one of the
    candidates of the cell. *)
Theorem candidates_keep_okay (o : Sudoku) (h : heap) (x y v : Z) :
  wf_obj h o -> wf_grid (rows_of h (board_ o)) ->
  okay o h = Ok true h ->
  0 <= x <= 8 -> 0 <= y <= 8 -> get o x y h = Ok 0 h -> 1 <= v <= 9 ->
  exists cs h',
    candidates o x y h = Ok cs h /\
    set o x y v h = Ok tt h' /\
    (okay o h' = Ok true h' <-> In v cs).
Proof.
  intros W Wg O Hx Hy G0 Hv.
  set (g := rows_of h (board_ o)) in *.
  assert (Hc : inb (x, y)) by (split; assumption).
  rewrite okay_run in O. fold g in O.
  assert (Og : okay_of g = true) by congruence.
  rewrite get_run in G0 by auto. fold g in G0.
  assert (Z0 : cell_of g (x, y) = 0) by congruence.
  destruct (hoare_set o g x y v Wg Hc ltac:(lia) h W eq_refl)
    as (h' & R & _ & E' & _).
  exists (cands g (x, y)), h'.
  split; [now apply candidates_run|]. split; [assumption|].
  rewrite okay_run, E'.
  rewrite <- (okay_gset_cands g (x, y) v Wg Og Hc Z0 Hv).
  split; [congruence|]. intros ->. reflexivity.
Qed.

Lemma candidates_keep_okay_witness :
  exists cs h',
    candidates scenarioB_obj 1 0 scenarioB_heap3 = Ok cs scenarioB_heap3 /\
    set scenarioB_obj 1 0 5 scenarioB_heap3 = Ok tt h' /\
    (okay scenarioB_obj h' = Ok true h' <-> In 5 cs).
Proof.
  apply (candidates_keep_okay scenarioB_obj scenarioB_heap3 1 0 5).
  - exact scenarioB_obj_wf.
  - apply scenarioB_obj_good.
  - vm_compute. reflexivity.
  - lia.
  - lia.
  - vm_compute. reflexivity.
  - lia.
Defined.

(** ** [difference] *)

(** X13.  [difference(a, ...others)] keeps, in their order, the members of [a]
    that are members of none of the other arrays. *)
Theorem difference_spec (a : list Z) (others : list (list Z)) :
  difference a others
  = filter (fun v => negb (existsb (includes v) others)) a /\
  (forall v, In v (difference a others) <->
             In v a /\ forall b, In b others -> ~ In v b).
Proof.
  split; [|intros v; apply difference_In].
  rewrite difference_union. apply filter_ext. intros v. f_equal.
  induction others as [|b others IH]; simpl; auto.
  now rewrite includes_app, IH.
Qed.

(** ** What a rule does *)

Lemma step_full_refl g : good g -> step_full g g [].
Proof.
  intros G. split; [now apply step_ok_refl|]. split; [constructor|].
  split; [intros c []|auto].
Qed.

Lemma step_full_trans g g1 g2 m1 m2 :
  step_full g g1 m1 -> step_full g1 g2 m2 -> step_full g g2 (m1 ++ m2).
Proof.
  intros (S1 & N1 & V1 & O1) (S2 & N2 & V2 & O2).
  assert (D : forall c, In c m1 -> ~ In c m2).
  { intros c I1 I2. destruct S2 as (_ & _ & Z2 & _).
    specialize (Z2 c I2). specialize (V1 c I1). lia. }
  split; [eapply step_ok_trans; eauto|]. split; [|split].
  - apply NoDup_app; auto.
  - intros c I. apply in_app_or in I.
    destruct (in_dec cell_eq_dec c m2) as [I2|N2']; [now apply V2|].
    destruct I as [I1|I2]; [|contradiction].
    destruct S1 as (_ & F1 & _). rewrite Forall_forall in F1.
    destruct S2 as (_ & _ & _ & Fr2 & _).
    rewrite Fr2; auto.
  - auto.
Qed.

Lemma trans_full_refl st : good (fst st) -> trans_full st st.
Proof.
  intros G. exists []. split; [now rewrite app_nil_r | now apply step_full_refl].
Qed.

Lemma trans_full_trans st1 st2 st3 :
  trans_full st1 st2 -> trans_full st2 st3 -> trans_full st1 st3.
Proof.
  intros (m1 & E1 & S1) (m2 & E2 & S2). exists (m1 ++ m2). split.
  - now rewrite E2, E1, app_assoc.
  - eapply step_full_trans; eauto.
Qed.

Lemma trans_full_fold {A} (F : grid * list cell -> A -> grid * list cell) l :
  (forall st a, good (fst st) -> In a l -> trans_full st (F st a)) ->
  forall st, good (fst st) -> trans_full st (fold_left F l st).
Proof.
  induction l as [|a l IH]; intros Step st G; simpl.
  - now apply trans_full_refl.
  - assert (T : trans_full st (F st a)) by (apply Step; auto; now left).
    eapply trans_full_trans; [exact T|].
    apply IH.
    + intros st' a' G' H. apply Step; auto. now right.
    + destruct T as (m & _ & (G1 & _) & _). exact G1.
Qed.

Lemma naked_step_trans_full st c :
  good (fst st) -> inb c -> trans_full st (naked_step st c).
Proof.
  intros G Hc. unfold naked_step, fill.
  destruct (length (cands (fst st) c) =? 1)%nat eqn:L;
    [|now apply trans_full_refl].
  apply (length_one _ 0) in L.
  set (v := nth 0 (cands (fst st) c) 0) in *.
  assert (Iv : In v (cands (fst st) c)) by (rewrite L; now left).
  exists [c]. split; [reflexivity|]. cbn [fst snd].
  split; [|split; [|split]].
  - apply (step_ok_snoc (fst st) (fst st) [] c); auto.
    + now apply step_ok_refl.
    + now apply naked_single_justified.
  - repeat constructor. intros [].
  - intros c' [<-|[]]. rewrite cell_of_gset_eq by (auto; apply G).
    eapply cands_range; eauto.
  - intros O. apply okay_gset_cands; auto.
    + apply G.
    + eapply cands_empty_cell; eauto.
    + eapply cands_range; eauto.
Qed.

Lemma rule1_pure_trans_full g x y :
  good g -> inb (x, y) -> trans_full (g, []) (rule1_pure g x y).
Proof.
  intros G [Hx Hy]. simpl in Hx, Hy. unfold rule1_pure.
  apply trans_full_fold; auto.
  intros st c G' Hc. apply naked_step_trans_full; auto.
  apply in_rule1_cells in Hc. unfold inb. lia.
Qed.

(** The entries of a group with a singleton difference are hidden
    singles. *)
Lemma hidden_entry g grp c v :
  NoDup grp ->
  In (c, [v]) (combine grp (diffs_of (map (cands g) grp))) ->
  hidden_single g grp c v.
Proof.
  intros ND H.
  destruct (in_combine_diffs (cands g) grp c [v] c H) as (i & Hi & Ei & Ed).
  assert (Hv : In v (difference (cands g c) (remove_at i (map (cands g) grp))))
    by (rewrite <- Ed; now left).
  apply difference_In in Hv. destruct Hv as [Hv Others].
  split; [rewrite <- Ei; now apply nth_In|]. split; [assumption|].
  intros c' Hc' Ne. apply Others.
  apply In_nth with (d := c) in Hc'. destruct Hc' as (j & Hj & Ej).
  apply (in_remove_at []). exists j.
  split; [now rewrite length_map|]. split.
  - intros ->. congruence.
  - rewrite (nth_map_at _ _ _ [] c) by auto. now rewrite Ej.
Qed.

Lemma hidden_single_justified g grp c v :
  good g -> is_group grp -> hidden_single g grp c v -> justified g c v.
Proof.
  intros G Grp (Hc & Hv & Others).
  pose proof (group_inb grp Grp) as FI. rewrite Forall_forall in FI.
  split; [auto|]. split; [eapply cands_empty_cell; eauto|].
  split; [eapply cands_range; eauto|].
  intros S Sol Ext.
  apply (hidden_single_sound g S grp c v); auto. apply G.
Qed.

(** In the middle of a pass over [grp] from [g0]: a hidden single of [g0]
    at a cell not yet written is a candidate of that cell in the current
    grid. *)
Lemma hidden_single_still_candidate g0 grp g m c v :
  good g0 -> is_group grp -> step_ok g0 g m ->
  (forall c', In c' m -> hidden_single g0 grp c' (cell_of g c')) ->
  hidden_single g0 grp c v -> ~ In c m ->
  In v (cands g c).
Proof.
  intros G0 Grp (G & Fm & Ze & Fr & _) Hm (Hc & Hv & Others) Nm.
  pose proof (group_inb grp Grp) as FI. rewrite Forall_forall in FI.
  assert (Ic : inb c) by auto.
  assert (Z0 : cell_of g c = 0).
  { rewrite Fr by auto. eapply cands_empty_cell; eauto. }
  apply cands_In; auto; [apply G|].
  split; [assumption|]. split; [eapply cands_range; eauto|].
  assert (NG : forall grp', is_group grp' -> In c grp' ->
                            ~ In v (map (cell_of g) grp')).
  { intros grp' G' I' H. apply in_map_iff in H. destruct H as (c1 & E & I1).
    pose proof (group_inb grp' G') as F'. rewrite Forall_forall in F'.
    destruct (in_dec cell_eq_dec c1 m) as [I|N].
    - destruct (Hm c1 I) as (H1 & Hv1 & O1).
      rewrite E in Hv1, O1.
      apply (O1 c); auto. intros ->. contradiction.
    - rewrite Fr in E by auto.
      apply (cands_not_in_group g0 grp' c c1 v (proj1 G0) G' I' I1 Hv E). }
  split; [|split]; apply NG.
  - apply row_group; auto.
  - apply row_group; auto.
  - apply col_group; auto.
  - apply col_group; auto.
  - apply box_group; auto.
  - apply box_group; auto.
Qed.

Lemma fold_fill_full g0 grp :
  good g0 -> is_group grp ->
  forall l,
    NoDup (map fst l) ->
    (forall c v, In (c, [v]) l -> hidden_single g0 grp c v) ->
    forall g b m,
      step_ok g0 g m -> NoDup m ->
      (forall c, In c m -> hidden_single g0 grp c (cell_of g c)) ->
      (okay_of g0 = true -> okay_of g = true) ->
      (forall c, In c (map fst l) -> ~ In c m) ->
      exists m',
        snd (fold_left (fun st cd => fill st (fst cd) (snd cd)) l (g, b)) = b ++ m'
        /\ step_ok g0 (fst (fold_left (fun st cd => fill st (fst cd) (snd cd)) l (g, b)))
                   (m ++ m')
        /\ NoDup (m ++ m')
        /\ (forall c, In c (m ++ m') ->
              hidden_single g0 grp c
                (cell_of (fst (fold_left (fun st cd => fill st (fst cd) (snd cd))
                                         l (g, b))) c))
        /\ (okay_of g0 = true ->
            okay_of (fst (fold_left (fun st cd => fill st (fst cd) (snd cd))
                                    l (g, b))) = true).
Proof.
  intros G0 Grp.
  induction l as [|[c d] l IH]; intros ND J g b m St Nm Hm Ok Fresh; simpl.
  - exists []. rewrite !app_nil_r. auto.
  - simpl in ND. inversion ND as [|? ? Nc ND']; subst.
    unfold fill at 2 4 6 8. cbn [fst snd].
    destruct (length d =? 1)%nat eqn:L.
    + apply (length_one _ 0) in L.
      set (v := nth 0 d 0) in *.
      assert (Hc : hidden_single g0 grp c v).
      { apply J. left. now rewrite <- L. }
      assert (Ncm : ~ In c m) by (apply Fresh; now left).
      pose proof (hidden_single_justified g0 grp c v G0 Grp Hc) as Jc.
      pose proof (hidden_single_still_candidate g0 grp g m c v G0 Grp St Hm Hc Ncm)
        as Cv.
      assert (Gg : good g) by apply St.
      assert (Ic : inb c) by apply Jc.
      destruct (IH ND' (fun c' v' H => J c' v' (or_intror H))
                   (gset g c v) (b ++ [c]) (m ++ [c]))
        as (m' & E & St' & N' & H' & O').
      * apply step_ok_snoc; auto.
      * apply NoDup_app; [assumption|repeat constructor; intros []|].
        intros c' I [<-|[]]. contradiction.
      * intros c' I. apply in_app_or in I. destruct I as [I|[<-|[]]].
        -- rewrite cell_of_gset_neq; auto.
           ++ destruct St as (_ & Fm & _). rewrite Forall_forall in Fm. auto.
           ++ intros <-. contradiction.
        -- rewrite cell_of_gset_eq by (auto; apply Gg). exact Hc.
      * intros O. apply okay_gset_cands; auto.
        -- apply Gg.
        -- eapply cands_empty_cell; eauto.
        -- eapply cands_range; eauto.
      * intros c' Hc' H. apply in_app_or in H. destruct H as [H|[<-|[]]].
        -- apply (Fresh c'); auto. now right.
        -- contradiction.
      * exists (c :: m'). rewrite <- app_assoc in E, St', N', H'.
        simpl in E, St', N', H'. auto.
    + apply IH; auto.
      * intros c' v' H. apply J. now right.
      * intros c' Hc'. apply Fresh. now right.
Qed.

Lemma hidden_pass_trans_full st grp :
  good (fst st) -> is_group grp -> trans_full st (hidden_pass st grp).
Proof.
  intros G Grp. unfold hidden_pass. destruct st as [g b]. simpl fst in *.
  pose proof (group_NoDup grp Grp) as ND.
  destruct (fold_fill_full g grp G Grp
              (combine grp (diffs_of (map (cands g) grp))))
    with (g := g) (b := b) (m := @nil cell) as (m' & E & St & N & H & O).
  - rewrite map_fst_combine; auto.
    now rewrite diffs_of_length, length_map.
  - intros c v. now apply hidden_entry.
  - now apply step_ok_refl.
  - constructor.
  - intros c [].
  - auto.
  - auto.
  - exists m'. simpl in *. split; [assumption|].
    split; [assumption|]. split; [assumption|]. split; [|assumption].
    intros c I. destruct (H c I) as (_ & Hv & _).
    eapply cands_range; eauto.
Qed.

Lemma rule2_pure_trans_full g x y :
  good g -> inb (x, y) -> trans_full (g, []) (rule2_pure g x y).
Proof.
  intros G [Hx Hy]. simpl in Hx, Hy. unfold rule2_pure.
  apply trans_full_fold; auto.
  intros st grp G' H. apply hidden_pass_trans_full; auto.
  apply in_map_iff in H. destruct H as (k & <- & Hk).
  apply in_range_iff in Hk. exists k. split; [lia|auto].
Qed.

Lemma rule3_pure_trans_full g x y :
  good g -> inb (x, y) -> trans_full (g, []) (rule3_pure g x y).
Proof.
  intros G [Hx Hy]. simpl in Hx, Hy. unfold rule3_pure.
  apply trans_full_fold; auto.
  intros st grp G' H. apply hidden_pass_trans_full; auto.
  apply in_map_iff in H. destruct H as (k & <- & Hk).
  apply in_range_iff in Hk. exists k. split; [lia|auto].
Qed.

Lemma rule4_pure_trans_full g x y :
  good g -> inb (x, y) -> trans_full (g, []) (rule4_pure g x y).
Proof.
  intros G Hc. unfold rule4_pure.
  pose proof (box_of_range _ Hc) as Hb. unfold box_of in Hb. simpl in Hb.
  apply trans_full_fold; auto.
  intros st grp G' H. apply hidden_pass_trans_full; auto.
  apply in_map_iff in H. destruct H as (k & <- & Hk).
  apply in_range_iff in Hk. exists k. split; [lia|auto].
Qed.

(** A rule that runs as [pure] and whose [pure] is a full pass. *)
Lemma rule_full (rule : Sudoku -> Z -> Z -> M (list cell))
  (pure : grid -> Z -> Z -> grid * list cell) :
  (forall o g x y, wf_grid g -> inb (x, y) ->
     hoare o g (rule o x y) (snd (pure g x y)) (fst (pure g x y))) ->
  (forall g x y, good g -> inb (x, y) -> trans_full (g, []) (pure g x y)) ->
  forall o h x y,
    wf_obj h o -> good (rows_of h (board_ o)) -> inb (x, y) ->
    exists m h',
      rule o x y h = Ok m h' /\
      step_full (rows_of h (board_ o)) (rows_of h' (board_ o)) m.
Proof.
  intros Sim Tr o h x y W G Hp.
  destruct (Sim o _ x y (proj1 G) Hp h W eq_refl) as (h' & R & _ & E & _).
  destruct (Tr _ x y G Hp) as (m & Em & St). simpl in Em.
  exists (snd (pure (rows_of h (board_ o)) x y)), h'.
  split; [assumption|]. rewrite E, Em. exact St.
Qed.

Lemma rules_full o h x y :
  wf_obj h o -> good (rows_of h (board_ o)) -> inb (x, y) ->
  forall rule, rule = rule1 \/ rule = rule2 \/ rule = rule3 \/ rule = rule4 ->
    exists m h',
      rule o x y h = Ok m h' /\
      step_full (rows_of h (board_ o)) (rows_of h' (board_ o)) m.
Proof.
  intros W G Hp rule [->|[->|[->| ->]]].
  - apply (rule_full rule1 rule1_pure hoare_rule1 rule1_pure_trans_full); auto.
  - apply (rule_full rule2 rule2_pure hoare_rule2 rule2_pure_trans_full); auto.
  - apply (rule_full rule3 rule3_pure hoare_rule3 rule3_pure_trans_full); auto.
  - apply (rule_full rule4 rule4_pure hoare_rule4 rule4_pure_trans_full); auto.
Qed.

(** X14.  The log a rule returns is exactly what it did: the logged cells are
    distinct, were empty, and now hold a value of 1..9; every other cell
    is unchanged. *)
Theorem rules_log_exact (o : Sudoku) (h : heap) (x y : Z) :
  wf_obj h o -> good (rows_of h (board_ o)) ->
  0 <= x <= 8 -> 0 <= y <= 8 ->
  log_exact rule1 o h x y /\ log_exact rule2 o h x y /\
  log_exact rule3 o h x y /\ log_exact rule4 o h x y.
Proof.
  intros W G Hx Hy.
  assert (Hp : inb (x, y)) by (split; assumption).
  assert (H : forall rule,
             rule = rule1 \/ rule = rule2 \/ rule = rule3 \/ rule = rule4 ->
             log_exact rule o h x y).
  { intros rule Hr.
    destruct (rules_full o h x y W G Hp rule Hr)
      as (m & h' & R & (_ & Fm & Ze & Fr & _) & N & V & _).
    exists m, h'. rewrite Forall_forall in Fm.
    split; [assumption|]. split; [assumption|]. split; [|assumption].
    intros c I. auto. }
  repeat split; apply H; auto.
Qed.

Lemma rules_log_exact_witness :
  log_exact rule1 c5_obj c5_heap 0 0 /\ log_exact rule2 c5_obj c5_heap 0 0 /\
  log_exact rule3 c5_obj c5_heap 0 0 /\ log_exact rule4 c5_obj c5_heap 0 0.
Proof.
  apply (rules_log_exact c5_obj c5_heap 0 0).
  - exact c5_obj_wf.
  - exact c5_obj_good.
  - lia.
  - lia.
Defined.

(** X15.  The rules never guess: a solved grid that agrees with the board before
    a rule agrees with the board after it, so no solution is lost by
    propagation. *)
Theorem rules_forced (o : Sudoku) (h : heap) (x y : Z) :
  wf_obj h o -> good (rows_of h (board_ o)) ->
  0 <= x <= 8 -> 0 <= y <= 8 ->
  forced rule1 o h x y /\ forced rule2 o h x y /\
  forced rule3 o h x y /\ forced rule4 o h x y.
Proof.
  intros W G Hx Hy.
  assert (Hp : inb (x, y)) by (split; assumption).
  assert (H : forall rule,
             rule = rule1 \/ rule = rule2 \/ rule = rule3 \/ rule = rule4 ->
             forced rule o h x y).
  { intros rule Hr.
    destruct (rules_full o h x y W G Hp rule Hr)
      as (m & h' & R & (_ & _ & _ & _ & So) & _).
    exists m, h'. split; assumption. }
  repeat split; apply H; auto.
Qed.

Lemma rules_forced_witness :
  forced rule1 c5_obj c5_heap 0 0 /\ forced rule2 c5_obj c5_heap 0 0 /\
  forced rule3 c5_obj c5_heap 0 0 /\ forced rule4 c5_obj c5_heap 0 0.
Proof.
  apply (rules_forced c5_obj c5_heap 0 0).
  - exact c5_obj_wf.
  - exact c5_obj_good.
  - lia.
  - lia.
Defined.

(** X16.  The rules keep a valid board valid: what a rule writes conflicts with
    nothing on the board. *)
Theorem rules_keep_okay (o : Sudoku) (h : heap) (x y : Z) :
  wf_obj h o -> good (rows_of h (board_ o)) ->
  0 <= x <= 8 -> 0 <= y <= 8 ->
  keeps_okay rule1 o h x y /\ keeps_okay rule2 o h x y /\
  keeps_okay rule3 o h x y /\ keeps_okay rule4 o h x y.
Proof.
  intros W G Hx Hy.
  assert (Hp : inb (x, y)) by (split; assumption).
  assert (H : forall rule,
             rule = rule1 \/ rule = rule2 \/ rule = rule3 \/ rule = rule4 ->
             keeps_okay rule o h x y).
  { intros rule Hr.
    destruct (rules_full o h x y W G Hp rule Hr)
      as (m & h' & R & _ & _ & _ & O).
    exists m, h'. split; [assumption|].
    rewrite !okay_run. intros E. f_equal. apply O. congruence. }
  repeat split; apply H; auto.
Qed.

Lemma rules_keep_okay_witness :
  keeps_okay rule1 c5_obj c5_heap 0 0 /\ keeps_okay rule2 c5_obj c5_heap 0 0 /\
  keeps_okay rule3 c5_obj c5_heap 0 0 /\ keeps_okay rule4 c5_obj c5_heap 0 0.
Proof.
  apply (rules_keep_okay c5_obj c5_heap 0 0).
  - exact c5_obj_wf.
  - exact c5_obj_good.
  - lia.
  - lia.
Defined.

(** ** The solutions of a search *)

Lemma fresh_objs_locs h h' news l :
  fresh_objs h h' news -> In l (flat_map board_ news) ->
  (length h <= l < length h')%nat.
Proof.
  intros Fr I. apply in_flat_map in I. destruct I as (s & Hs & Hl).
  unfold fresh_objs in Fr. rewrite Forall_forall in Fr.
  specialize (Fr s Hs). rewrite Forall_forall in Fr. auto.
Qed.

Lemma NoDup_app_disjoint {A} (l l' : list A) x :
  NoDup (l ++ l') -> In x l -> ~ In x l'.
Proof.
  induction l as [|a l IH]; simpl; [tauto|].
  intros N [->|I] I'.
  - inversion N as [|? ? Na _]. apply Na. apply in_or_app. now right.
  - inversion N as [|? ? _ Nl]. now apply (IH Nl I).
Qed.

Lemma NoDup_flat_map_in {A B} (f : A -> list B) l a :
  NoDup (flat_map f l) -> In a l -> NoDup (f a).
Proof.
  induction l as [|b l IH]; simpl; [tauto|].
  intros N [->|I].
  - eapply NoDup_app_remove_r; eauto.
  - apply IH; auto. eapply NoDup_app_remove_l; eauto.
Qed.

Lemma NoDup_flat_map_disjoint {A B} (f : A -> list B) l a b x :
  NoDup (flat_map f l) -> In a l -> In b l -> a <> b ->
  In x (f a) -> ~ In x (f b).
Proof.
  induction l as [|c l IH]; simpl; [tauto|].
  intros N Ia Ib Ne Ix Ix'.
  pose proof (NoDup_app_remove_l _ _ N) as Nl.
  pose proof (fun y => NoDup_app_disjoint _ _ y N) as D.
  destruct Ia as [->|Ia], Ib as [->|Ib].
  - congruence.
  - apply (D x Ix). apply in_flat_map. eauto.
  - apply (D x Ix'). apply in_flat_map. eauto.
  - apply (IH Nl Ia Ib Ne Ix Ix').
Qed.

Lemma StronglySorted_app {A} (R : A -> A -> Prop) l1 l2 :
  StronglySorted R l1 -> StronglySorted R l2 ->
  (forall a b, In a l1 -> In b l2 -> R a b) ->
  StronglySorted R (l1 ++ l2).
Proof.
  induction l1 as [|a l1 IH]; simpl; intros S1 S2 H; auto.
  apply StronglySorted_inv in S1. destruct S1 as [S1 F1].
  constructor.
  - apply IH; auto.
  - apply Forall_app. split; auto.
    apply Forall_forall. intros b Hb. apply H; auto.
Qed.



Lemma cands_sorted g c : StronglySorted Z.lt (cands g c).
Proof.
  unfold cands. destruct (Boolean _); [constructor|apply candidates_of_sorted].
Qed.

(** A trial after any propagation that loses no completion. *)
Section Trial.

Variables (g g1 : grid) (m : list cell) (x y : Z).

Hypothesis G : good g.
Hypothesis Hp : inb (x, y).
Hypothesis Z0 : cell_of g (x, y) = 0.
Hypothesis St : step_ok g g1 m.

Lemma step_trial_good v : 0 <= v <= 9 -> good (gset g1 (x, y) v).
Proof. intros Hv. apply gset_good; auto. apply St. Qed.

Lemma step_trial_frame v c :
  inb c -> ~ In c ((x, y) :: m) -> cell_of (gset g1 (x, y) v) c = cell_of g c.
Proof.
  intros Hc N. destruct St as (_ & _ & _ & Fr & _).
  rewrite cell_of_gset_neq; auto.
  - apply Fr; auto. intros I. apply N. now right.
  - intros E. apply N. now left.
Qed.

Lemma step_trial_empty c : In c ((x, y) :: m) -> cell_of g c = 0.
Proof.
  destruct St as (_ & _ & Ze & _). intros [<-|I]; auto.
Qed.

Lemma step_trial_inb : Forall inb ((x, y) :: m).
Proof. constructor; auto. apply St. Qed.

Lemma step_trial_restore v :
  clear_cells (gset g1 (x, y) v) ((x, y) :: m) = g.
Proof.
  assert (W2 : wf_grid (gset g1 (x, y) v)) by (apply gset_wf, St).
  apply grid_ext.
  - now apply clear_cells_wf.
  - apply G.
  - intros c Hc.
    rewrite clear_cells_spec; auto using step_trial_inb.
    destruct (in_dec cell_eq_dec c ((x, y) :: m)) as [I|N].
    + symmetry. now apply step_trial_empty.
    + now apply step_trial_frame.
Qed.

Lemma step_extends_trial v S :
  solution S -> extends g S -> cell_of S (x, y) = v ->
  extends (gset g1 (x, y) v) S.
Proof.
  intros Sol Ext Ev.
  destruct St as (G1 & _ & _ & _ & So).
  specialize (So S Sol Ext).
  intros c Hc Nz.
  destruct (cell_eq_dec (x, y) c) as [<-|Ne].
  - rewrite cell_of_gset_eq by (auto; apply G1). auto.
  - rewrite cell_of_gset_neq in * by auto. now apply So.
Qed.

Lemma step_trial_extends v S :
  v <> 0 -> extends (gset g1 (x, y) v) S ->
  extends g S /\ cell_of S (x, y) = v.
Proof.
  intros Nv Ext.
  assert (Ep : cell_of (gset g1 (x, y) v) (x, y) = v).
  { apply cell_of_gset_eq; [apply St | exact Hp]. }
  split.
  - intros c Hc Nz.
    assert (N : ~ In c ((x, y) :: m)).
    { intros I. apply Nz. now apply step_trial_empty. }
    rewrite <- (step_trial_frame v c Hc N).
    apply Ext; auto. now rewrite (step_trial_frame v c Hc N).
  - transitivity (cell_of (gset g1 (x, y) v) (x, y)); [|exact Ep].
    apply Ext; auto. now rewrite Ep.
Qed.

Lemma step_trial_zeros v :
  v <> 0 -> (zeros (gset g1 (x, y) v) < zeros g)%nat.
Proof.
  intros Nv.
  unfold zeros. apply filter_length_lt with (a := (x, y)).
  - intros c Hc Q. apply in_all_cells in Hc.
    apply Z.eqb_eq in Q. apply Z.eqb_eq.
    destruct (in_dec cell_eq_dec c ((x, y) :: m)) as [I|N].
    + now apply step_trial_empty.
    + now rewrite <- (step_trial_frame v c Hc N).
  - now apply in_all_cells.
  - now apply Z.eqb_eq.
  - rewrite cell_of_gset_eq by (auto; apply St).
    now apply Z.eqb_neq.
Qed.

End Trial.

(** One call of the closure, for a propagation [scan] that loses no
    completion and a recursive call [bt] that meets the specification on
    grids with fewer empty cells. *)
Section SearchWith.

Variable scan : Sudoku -> Z -> Z -> M (list cell).
Variable scan_pure : grid -> Z -> Z -> grid * list cell.

Hypothesis scan_hoare : forall o g x y,
  good g -> inb (x, y) ->
  hoare o g (scan o x y) (snd (scan_pure g x y)) (fst (scan_pure g x y)).
Hypothesis scan_ok : forall g x y,
  good g -> inb (x, y) ->
  step_ok g (fst (scan_pure g x y)) (tl (snd (scan_pure g x y))).
Hypothesis scan_log : forall g x y,
  snd (scan_pure g x y) = (x, y) :: tl (snd (scan_pure g x y)).

Variable bt : Sudoku -> list Sudoku -> M (list Sudoku).
Variable fuel : nat.
Variable o : Sudoku.

Hypothesis IH : forall g h sols,
  good g -> (zeros g < fuel)%nat -> wf_obj h o -> rows_of h (board_ o) = g ->
  bt_post_nd o g (fun _ => True) h sols (bt o sols h).

Lemma trial_with_spec g x y v h sols :
  good g -> (zeros g <= fuel)%nat -> inb (x, y) -> cell_of g (x, y) = 0 ->
  1 <= v <= 9 -> wf_obj h o -> rows_of h (board_ o) = g ->
  bt_post_nd o g (fun S => cell_of S (x, y) = v) h sols
             (trial_with scan bt o x y sols v h).
Proof.
  intros G Zf Hp Z0 Hv W E.
  assert (Nv : v <> 0) by lia.
  assert (Rv : 0 <= v <= 9) by lia.
  pose proof (scan_ok g x y G Hp) as St.
  pose proof (scan_log g x y) as Lg.
  set (g1 := fst (scan_pure g x y)) in *.
  set (m := tl (snd (scan_pure g x y))) in *.
  pose proof (step_trial_good g g1 m x y St v Rv) as G2.
  pose proof (step_trial_zeros g g1 m x y Hp Z0 St v Nv) as Zt.
  destruct (scan_hoare o g x y G Hp h W E) as (h1 & R1 & W1 & E1 & F1).
  fold g1 in E1. rewrite Lg in R1.
  destruct (hoare_set o _ x y v (proj1 (proj1 St)) Hp Rv h1 W1 E1)
    as (h2 & R2 & W2 & E2 & F2).
  destruct (IH (gset g1 (x, y) v) h2 sols G2 ltac:(lia) W2 E2)
    as (news & h3 & R3 & W3 & E3 & F3 & Fr3 & Nl3 & Ng3 & Ss3 & Iff3).
  destruct (hoare_undo o ((x, y) :: m) _ (proj1 G2)
              (step_trial_inb g g1 m x y Hp St) h3 W3 E3)
    as (h4 & R4 & W4 & E4 & F4).
  rewrite (step_trial_restore g g1 m x y G Hp Z0 St) in E4.
  exists news, h4.
  split; [|split; [|split; [|split; [|split; [|split; [|split; [|split]]]]]]];
    auto.
  - unfold trial_with. run R1. run R2. run R3. run R4. reflexivity.
  - eapply frame_trans; [exact F1|].
    eapply frame_trans; [exact F2|].
    eapply frame_trans; [exact F3|exact F4].
  - apply (fresh_objs_weaken h h2 h3 h4); auto.
    + destruct F1, F2. lia.
    + destruct F4. lia.
  - now rewrite (frame_grids o h2 h3 h4 news W2 Fr3 F4).
  - now rewrite (frame_grids o h2 h3 h4 news W2 Fr3 F4).
  - intros S. rewrite (frame_grids o h2 h3 h4 news W2 Fr3 F4).
    rewrite Iff3. split.
    + intros (Sol & Ext & _). split; auto.
      now apply (step_trial_extends g g1 m x y Hp Z0 St v S).
    + intros (Sol & Ext & Ev). split; auto. split; auto.
      now apply (step_extends_trial g g1 m x y Hp St v S).
Qed.

Lemma loop_with_spec g x y :
  good g -> (zeros g <= fuel)%nat -> inb (x, y) -> cell_of g (x, y) = 0 ->
  (forall c, inb c -> row_major c (x, y) -> cell_of g c <> 0) ->
  forall cs h sols,
    StronglySorted Z.lt cs -> (forall v, In v cs -> 1 <= v <= 9) ->
    wf_obj h o -> rows_of h (board_ o) = g ->
    bt_post_nd o g (fun S => In (cell_of S (x, y)) cs) h sols
               (foldM (trial_with scan bt o x y) cs sols h).
Proof.
  intros G Zf Hp Z0 First.
  induction cs as [|v cs IHcs]; intros h sols Sc R W E.
  - exists [], h. simpl. rewrite app_nil_r.
    split; [reflexivity|]. split; [assumption|]. split; [assumption|].
    split; [apply frame_refl|]. split; [constructor|].
    split; [constructor|]. split; [constructor|]. split; [constructor|].
    intros S. simpl. tauto.
  - apply StronglySorted_inv in Sc. destruct Sc as [Sc' Fv].
    rewrite Forall_forall in Fv.
    destruct (trial_with_spec g x y v h sols G Zf Hp Z0
                (R v (or_introl eq_refl)) W E)
      as (news1 & h1 & R1 & W1 & E1 & F1 & Fr1 & Nl1 & Ng1 & Ss1 & Iff1).
    destruct (IHcs h1 (sols ++ news1) Sc' (fun w Hw => R w (or_intror Hw)) W1 E1)
      as (news2 & h2 & R2 & W2 & E2 & F2 & Fr2 & Nl2 & Ng2 & Ss2 & Iff2).
    assert (Eg : grids_of h2 news1 = grids_of h1 news1)
      by apply (frame_grids o h h1 h2 news1 W Fr1 F2).
    exists (news1 ++ news2), h2.
    split; [|split; [|split; [|split; [|split; [|split; [|split; [|split]]]]]]];
      auto.
    + simpl. run R1. rewrite R2. now rewrite app_assoc.
    + eapply frame_trans; eauto.
    + unfold fresh_objs. apply Forall_app. split.
      * apply (fresh_objs_weaken h h h1 h2); auto. destruct F2. lia.
      * apply (fresh_objs_weaken h h1 h2 h2); auto. destruct F1. lia.
    + rewrite flat_map_app. apply NoDup_app; auto.
      intros l I1 I2.
      pose proof (fresh_objs_locs _ _ _ l Fr1 I1).
      pose proof (fresh_objs_locs _ _ _ l Fr2 I2). lia.
    + unfold grids_of. rewrite map_app.
      fold (grids_of h2 news1). fold (grids_of h2 news2). rewrite Eg.
      apply NoDup_app; auto.
      intros S I1 I2. apply Iff1 in I1. apply Iff2 in I2.
      destruct I1 as (_ & _ & E1'), I2 as (_ & _ & I2).
      rewrite E1' in I2. specialize (Fv v I2). lia.
    + unfold grids_of. rewrite map_app.
      fold (grids_of h2 news1). fold (grids_of h2 news2). rewrite Eg.
      apply StronglySorted_app; auto.
      intros S S' I1 I2. apply Iff1 in I1. apply Iff2 in I2.
      destruct I1 as (_ & Ext1 & E1'), I2 as (_ & Ext2 & I2).
      exists (x, y). split; [assumption|]. split.
      * rewrite E1'. now apply Fv.
      * intros c Hc Before.
        rewrite (Ext1 c Hc (First c Hc Before)).
        now rewrite (Ext2 c Hc (First c Hc Before)).
    + intros S. unfold grids_of. rewrite map_app, in_app_iff.
      fold (grids_of h2 news1). fold (grids_of h2 news2). rewrite Eg.
      rewrite Iff1, Iff2. simpl. intuition.
Qed.

Lemma search_body_spec g h sols :
  good g -> (zeros g <= fuel)%nat -> wf_obj h o -> rows_of h (board_ o) = g ->
  bt_post_nd o g (fun _ => True) h sols
             (search_body (trial_with scan bt) o sols h).
Proof.
  intros G Zf W E. unfold search_body.
  unfold bind at 1. rewrite okay_run, E. cbv beta iota.
  destruct (okay_of g) eqn:Ok_g; cbv [negb]; cbv beta iota.
  2: { exists [], h. rewrite app_nil_r.
       split; [reflexivity|]. split; [assumption|]. split; [assumption|].
       split; [apply frame_refl|]. split; [constructor|].
       split; [constructor|]. split; [constructor|]. split; [constructor|].
       intros S. simpl. split; [tauto|]. intros (Sol & Ext & _).
       rewrite (extends_okay g S (proj1 G) Sol Ext) in Ok_g. discriminate. }
  unfold bind at 1. rewrite solved_run, E. cbv beta iota.
  destruct (solved_of g) eqn:Sv.
  { pose proof (constructor_run (board_ o) h (proj2 W)) as Rc.
    rewrite E in Rc. specialize (Rc G).
    assert (Lg : length g = 9%nat) by apply G.
    exists [mkSudoku (seq (length h) 9) (seq (length h + 9) 9)], ((h ++ g) ++ g).
    split; [|split; [|split; [|split; [|split; [|split; [|split; [|split]]]]]]].
    - unfold clone. run Rc. reflexivity.
    - rewrite <- app_assoc. now apply wf_obj_app.
    - rewrite <- app_assoc. rewrite rows_of_app_old; [assumption|apply W].
    - rewrite <- app_assoc. apply frame_app.
    - constructor; [|constructor]. cbn [board_].
      apply Forall_forall. intros l Hl. apply in_seq in Hl.
      rewrite !length_app. lia.
    - cbn [flat_map board_]. rewrite app_nil_r. apply seq_NoDup.
    - repeat constructor. intros [].
    - repeat constructor.
    - intros S. unfold grids_of. cbn [map board_].
      assert (Ec : rows_of ((h ++ g) ++ g) (seq (length h) 9) = g).
      { rewrite rows_of_app_old.
        - rewrite <- Lg at 1. apply rows_of_app_new.
        - apply Forall_forall. intros l Hl. apply in_seq in Hl.
          rewrite length_app. lia. }
      rewrite Ec. split.
      + intros [<-|[]]. split; [split; assumption|].
        split; [apply extends_refl|exact I].
      + intros (Sol & Ext & _). left. symmetry.
        apply extends_full; auto; [apply G|apply Sol|now apply solved_full]. }
  unfold bind at 1. rewrite nextOpenCell_run, E. cbv beta iota.
  destruct (nextOpenCell_of g) as [x y] eqn:N.
  destruct (nextOpenCell_of_spec g x y (proj1 G) N) as [[B Full]|[B [Hp Z0]]];
    rewrite B.
  - exists [], h. rewrite app_nil_r.
    split; [reflexivity|]. split; [assumption|]. split; [assumption|].
    split; [apply frame_refl|]. split; [constructor|].
    split; [constructor|]. split; [constructor|]. split; [constructor|].
    intros S. simpl. split; [tauto|]. intros (Sol & Ext & _).
    assert (ES : S = g).
    { apply extends_full; auto; [apply G|apply Sol]. }
    destruct Sol as [_ SvS]. rewrite ES in SvS. congruence.
  - unfold bind at 1. rewrite candidates_run, E by auto. cbv beta iota.
    destruct (loop_with_spec g x y G Zf Hp Z0
                (nextOpenCell_of_first g x y (proj1 G) N Hp)
                (cands g (x, y)) h sols (cands_sorted g (x, y))
                (cands_range g (x, y)) W E)
      as (news & h' & R & W' & E' & F' & Fr & Nl & Ng & Ss & Iff).
    exists news, h'.
    split; [assumption|]. split; [assumption|]. split; [assumption|].
    split; [assumption|]. split; [assumption|]. split; [assumption|].
    split; [assumption|]. split; [assumption|].
    intros S. rewrite Iff. split.
    + intros (Sol & Ext & _). auto.
    + intros (Sol & Ext & _). split; auto. split; auto.
      apply solution_in_cands; auto. apply G.
Qed.

End SearchWith.

Lemma propagate_log g x y :
  snd (propagate_pure g x y) = (x, y) :: tl (snd (propagate_pure g x y)).
Proof. reflexivity. Qed.

(** The search returns every completion of the grid once, in increasing
    order and in objects of their own. *)
Lemma backtrack_spec_nd : forall fuel o g h sols,
  good g -> (zeros g < fuel)%nat -> wf_obj h o -> rows_of h (board_ o) = g ->
  bt_post_nd o g (fun _ => True) h sols (backtrack fuel o sols h).
Proof.
  induction fuel as [|fuel IH]; intros o g h sols G Zf W E; [lia|].
  change (backtrack (S fuel) o sols)
    with (search_body (trial_with propagate (backtrack fuel)) o sols).
  apply (search_body_spec propagate propagate_pure hoare_propagate
           propagate_pure_ok propagate_log (backtrack fuel) fuel o (IH o));
    auto; lia.
Qed.

(** ** The earlier search (src/index.ts) *)








(** ** What [solve] returns *)

(** The body of [solve], for either version of the search. *)
Lemma solve_with_spec
  (bt : nat -> Sudoku -> list Sudoku -> M (list Sudoku)) o h :
  (forall fuel o g h sols,
     good g -> (zeros g < fuel)%nat -> wf_obj h o -> rows_of h (board_ o) = g ->
     bt_post_nd o g (fun _ => True) h sols (bt fuel o sols h)) ->
  wf_obj h o -> good (rows_of h (board_ o)) ->
  solve_post o h (solve_with bt o h).
Proof.
  intros Hbt W G. set (g := rows_of h (board_ o)) in *.
  unfold solve_post, solve_with. fold g.
  unfold bind at 1. rewrite okay_run. fold g. cbv beta iota.
  destruct (okay_of g) eqn:Ok_g; cbv [negb]; cbv beta iota.
  2: { exists None, h. split; [reflexivity|]. split; [assumption|].
       split; [reflexivity|].
       intros S [Sol Ext].
       rewrite (extends_okay g S (proj1 G) Sol Ext) in Ok_g. discriminate. }
  destruct (constructor_spec (board_ o) h (proj2 W) G)
    as (wc & t & Rc & Wc & Ec & Fc).
  fold g in Ec.
  destruct (Hbt depth wc g (h ++ t) [] G) as
    (news & h' & R & W' & E' & F' & Fr & Nl & Ng & Ss & Iff); auto.
  { pose proof (zeros_bound g). unfold depth. lia. }
  change ([] ++ news) with news in R.
  exists (if (0 <? length news)%nat then Some news else None), h'.
  destruct F' as [L' F'].
  rewrite length_app in L'.
  assert (Old : forall l, (l < length h)%nat -> nth l h' [] = nth l h []).
  { intros l Hl. rewrite F'.
    - now apply app_nth1.
    - rewrite length_app. lia.
    - intros I. rewrite Forall_forall in Fc. specialize (Fc l I). lia. }
  split; [|split; [|split]].
  - run Rc. run R. reflexivity.
  - destruct W as [N F]. split; [assumption|].
    eapply Forall_impl; [|exact F]. intros l Hl. simpl in *. lia.
  - unfold rows_of. apply map_ext_in. intros l Hl. apply Old.
    destruct W as [_ F]. rewrite Forall_forall in F. auto.
  - destruct news as [|s news]; cbn [length Nat.ltb Nat.leb].
    + intros S HS. apply (proj2 (Iff S)). tauto.
    + split; [discriminate|].
      split; [|split; [assumption|split; [assumption|split; [assumption|]]]].
      * eapply Forall_impl; [|exact Fr]. intros s' Fs. simpl in *.
        eapply Forall_impl; [|exact Fs]. intros l Hl. simpl in *.
        rewrite length_app in Hl. lia.
      * intros S. rewrite (Iff S). tauto.
Qed.

Lemma solve_spec_nd o h :
  wf_obj h o -> good (rows_of h (board_ o)) -> solve_post o h (solve o h).
Proof.
  intros W G. now apply (solve_with_spec backtrack o h backtrack_spec_nd).
Qed.


(** X17.  [solve] returns every solved completion of the board exactly once: the
    grids of the list are pairwise different and they are the solved grids
    that agree with the board, so the length of the list is the number of
    solutions. *)
Theorem solve_each_once (o : Sudoku) (h : heap) :
  wf_obj h o -> good (rows_of h (board_ o)) ->
  forall sols h',
    solve o h = Ok (Some sols) h' ->
    NoDup (grids_of h' sols) /\
    forall S, solution S /\ extends (rows_of h (board_ o)) S <->
              In S (grids_of h' sols).
Proof.
  intros W G sols h' R.
  destruct (solve_spec_nd o h W G) as (r & h'' & R' & _ & _ & Post).
  rewrite R in R'.
  assert (Er : r = Some sols) by congruence.
  assert (Eh : h'' = h') by congruence.
  subst r h''. destruct Post as (_ & _ & _ & Ng & _ & Iff).
  split; [assumption|]. intros S. now rewrite Iff.
Qed.

Lemma solve_each_once_witness :
  NoDup (grids_of scenarioB_final scenarioB_sols) /\
  forall S,
    solution S /\ extends (rows_of scenarioB_heap3 (board_ scenarioB_obj)) S <->
    In S (grids_of scenarioB_final scenarioB_sols).
Proof.
  apply (solve_each_once scenarioB_obj scenarioB_heap3 scenarioB_obj_wf
           scenarioB_obj_good scenarioB_sols scenarioB_final).
  exact scenarioB_solve.
Defined.

(** X18.  [solve] lists the solutions in increasing order of their row-by-row
    reading: every solution of the list is below the ones after it, so the
    first entry is the least completion of the board. *)
Theorem solve_in_order (o : Sudoku) (h : heap) :
  wf_obj h o -> good (rows_of h (board_ o)) ->
  forall sols h',
    solve o h = Ok (Some sols) h' ->
    StronglySorted grid_lt (grids_of h' sols) /\
    forall S, solution S -> extends (rows_of h (board_ o)) S ->
              S = rows_of h' (board_ (hd o sols)) \/
              grid_lt (rows_of h' (board_ (hd o sols))) S.
Proof.
  intros W G sols h' R.
  destruct (solve_spec_nd o h W G) as (r & h'' & R' & _ & _ & Post).
  rewrite R in R'.
  assert (Er : r = Some sols) by congruence.
  assert (Eh : h'' = h') by congruence.
  subst r h''. destruct Post as (Ne & _ & _ & _ & Ss & Iff).
  split; [assumption|]. intros S Sol Ext.
  destruct sols as [|s sols]; [congruence|].
  unfold grids_of in Ss, Iff. cbn [map hd] in *.
  apply StronglySorted_inv in Ss. destruct Ss as [_ F].
  rewrite Forall_forall in F.
  destruct (proj2 (Iff S) (conj Sol Ext)) as [E|I]; [now left|].
  right. now apply F.
Qed.

Lemma solve_in_order_witness :
  StronglySorted grid_lt (grids_of scenarioB_final scenarioB_sols) /\
  forall S,
    solution S -> extends (rows_of scenarioB_heap3 (board_ scenarioB_obj)) S ->
    S = rows_of scenarioB_final (board_ (hd scenarioB_obj scenarioB_sols)) \/
    grid_lt (rows_of scenarioB_final (board_ (hd scenarioB_obj scenarioB_sols)))
            S.
Proof.
  apply (solve_in_order scenarioB_obj scenarioB_heap3 scenarioB_obj_wf
           scenarioB_obj_good scenarioB_sols scenarioB_final).
  exact scenarioB_solve.
Defined.





(** X20.  The snapshots that [solve] returns are decoupled from the board and from
    each other: a later [set] on the board changes no snapshot, and a later
    [set] on a snapshot changes that cell of that snapshot only, neither the
    board nor another snapshot. *)
Theorem solve_snapshots_decoupled (o : Sudoku) (h : heap) :
  wf_obj h o -> good (rows_of h (board_ o)) ->
  forall sols h' x y v,
    solve o h = Ok (Some sols) h' ->
    inb (x, y) -> 0 <= v <= 9 ->
    (exists h'', set o x y v h' = Ok tt h'' /\
                 grids_of h'' sols = grids_of h' sols) /\
    (forall s, In s sols ->
       exists h'',
         set s x y v h' = Ok tt h'' /\
         rows_of h'' (board_ s) = gset (rows_of h' (board_ s)) (x, y) v /\
         rows_of h'' (board_ o) = rows_of h (board_ o) /\
         forall s', In s' sols -> s' <> s ->
                    rows_of h'' (board_ s') = rows_of h' (board_ s')).
Proof.
  intros W G sols h' x y v R Hc Hv.
  destruct (solve_spec_nd o h W G) as (r & h1 & R' & W' & Eo & Post).
  rewrite R in R'.
  assert (Er : r = Some sols) by congruence.
  assert (Eh : h1 = h') by congruence.
  subst r h1. destruct Post as (_ & Fr & Nl & _ & _ & Iff).
  rewrite Forall_forall in Fr.
  assert (Lo : forall l, In l (board_ o) -> (l < length h)%nat).
  { destruct W as [_ F]. now rewrite Forall_forall in F. }
  assert (Wg : wf_grid (rows_of h' (board_ o))) by (rewrite Eo; apply G).
  split.
  - destruct (hoare_set o _ x y v Wg Hc Hv h' W' eq_refl)
      as (h2 & R2 & _ & _ & F2).
    exists h2. split; [assumption|].
    unfold grids_of. apply map_ext_in. intros s Hs.
    apply (frame_rows o h' h2 (board_ s) F2).
    apply Forall_forall. intros l Hl.
    pose proof (Fr s Hs) as Fs. rewrite Forall_forall in Fs.
    specialize (Fs l Hl). split; [lia|].
    intros I. specialize (Lo l I). lia.
  - intros s Hs.
    pose proof (Fr s Hs) as Fs.
    assert (Ws : wf_obj h' s).
    { split.
      - apply (NoDup_flat_map_in board_ sols s Nl Hs).
      - eapply Forall_impl; [|exact Fs]. intros l Hl. simpl in Hl. lia. }
    assert (Wgs : wf_grid (rows_of h' (board_ s))).
    { apply (proj1 (Iff (rows_of h' (board_ s)))).
      unfold grids_of. apply in_map_iff. eauto. }
    destruct (hoare_set s _ x y v Wgs Hc Hv h' Ws eq_refl)
      as (h2 & R2 & _ & E2 & F2).
    exists h2. split; [assumption|]. split; [assumption|].
    rewrite Forall_forall in Fs.
    split.
    + rewrite <- Eo. apply (frame_rows s h' h2 (board_ o) F2).
      apply Forall_forall. intros l Hl.
      destruct W' as [_ F']. rewrite Forall_forall in F'.
      split; [now apply F'|].
      intros I. specialize (Fs l I). specialize (Lo l Hl). lia.
    + intros s' Hs' Ne.
      apply (frame_rows s h' h2 (board_ s') F2).
      apply Forall_forall. intros l Hl.
      pose proof (Fr s' Hs') as Fs'. rewrite Forall_forall in Fs'.
      split; [specialize (Fs' l Hl); lia|].
      apply (NoDup_flat_map_disjoint board_ sols s' s l Nl Hs' Hs Ne Hl).
Qed.

Lemma solve_snapshots_decoupled_witness :
  (exists h'', set scenarioB_obj 0 0 5 scenarioB_final = Ok tt h'' /\
               grids_of h'' scenarioB_sols
               = grids_of scenarioB_final scenarioB_sols) /\
  (forall s, In s scenarioB_sols ->
     exists h'',
       set s 0 0 5 scenarioB_final = Ok tt h'' /\
       rows_of h'' (board_ s)
       = gset (rows_of scenarioB_final (board_ s)) (0, 0) 5 /\
       rows_of h'' (board_ scenarioB_obj)
       = rows_of scenarioB_heap3 (board_ scenarioB_obj) /\
       forall s', In s' scenarioB_sols -> s' <> s ->
                  rows_of h'' (board_ s') = rows_of scenarioB_final (board_ s')).
Proof.
  apply (solve_snapshots_decoupled scenarioB_obj scenarioB_heap3
           scenarioB_obj_wf scenarioB_obj_good scenarioB_sols scenarioB_final
           0 0 5 scenarioB_solve).
  - unfold inb. simpl. lia.
  - lia.
Defined.



(** ** The textual form *)

Lemma matrix_acc (g : grid) : forall h acc,
  foldM (fun acc row => l <- alloc row ;; ret (acc ++ [l])) g acc h
  = Ok (acc ++ seq (length h) (length g)) (h ++ g).
Proof.
  induction g as [|r g IH]; intros h acc; simpl.
  - unfold ret. now rewrite !app_nil_r.
  - unfold bind at 1. unfold bind at 1. unfold alloc at 1. unfold ret at 1.
    rewrite IH. rewrite <- !app_assoc. simpl. rewrite length_app. simpl.
    now rewrite Nat.add_1_r.
Qed.

Lemma matrix_run (g : grid) h :
  matrix g h = Ok (seq (length h) (length g)) (h ++ g).
Proof. unfold matrix. now rewrite matrix_acc. Qed.

(** The constructor on a string, after the parser. *)
Lemma constructor_text_unfold (s : list ascii) (h : heap) :
  constructor_text s h
  = (if negb (length (parse s) =? 9)%nat
        || existsb (fun row => negb (length row =? 9)%nat) (parse s)
     then throw StructureError
     else if existsb (fun cell => (cell <? 0) || (cell >? 9)) (concat (parse s))
          then throw CellRangeError
          else o <- copy_rows (seq (length h) (length (parse s))) ;;
               ret (mkSudoku (seq (length h) (length (parse s))) o))
      (h ++ parse s).
Proof.
  unfold constructor_text. unfold bind at 1. rewrite matrix_run.
  unfold bind at 1. rewrite length_seq.
  rewrite rows_of_app_new. reflexivity.
Qed.

Lemma is_digit_plain c :
  is_digit c = true ->
  is_space c = false /\ Ascii.eqb c newline = false /\
  Ascii.eqb c " "%char = false /\ 0 <= Number c <= 9.
Proof.
  destruct c as [[] [] [] [] [] [] [] []]; vm_compute;
    try discriminate; intros _; repeat split; discriminate.
Qed.

Lemma split_lines_In t : forall line c,
  In line (split_lines t) -> In c line -> In c t /\ Ascii.eqb c newline = false.
Proof.
  induction t as [|a t IH]; intros line c Hl Hc; simpl in *.
  - destruct Hl as [<-|[]]. contradiction.
  - destruct (Ascii.eqb a newline) eqn:E.
    + destruct Hl as [<-|Hl]; [contradiction|].
      destruct (IH line c Hl Hc). auto.
    + destruct (split_lines t) as [|l ls] eqn:Sp.
      * destruct Hl as [<-|[]]. destruct Hc as [<-|[]]. auto.
      * destruct Hl as [<-|Hl].
        -- destruct Hc as [<-|Hc]; [auto|].
           destruct (IH l c (or_introl eq_refl) Hc). auto.
        -- destruct (IH line c (or_intror Hl) Hc). auto.
Qed.

Lemma trim_start_In t c : In c (trim_start t) -> In c t.
Proof.
  induction t as [|a t IH]; simpl; auto.
  destruct (is_space a); simpl; auto.
Qed.

Lemma trim_In t c : In c (trim t) -> In c t.
Proof.
  unfold trim. intros H. apply in_rev in H. apply trim_start_In in H.
  apply in_rev in H. now apply trim_start_In.
Qed.

(** The characters of a line are digits: [Number] meets nothing else. *)
Lemma parse_digits s line c :
  In line (split_lines (trim (strip (spaces_to_zero s)))) -> In c line ->
  is_digit c = true.
Proof.
  intros Hl Hc. destruct (split_lines_In _ line c Hl Hc) as [I N].
  apply trim_In in I. unfold strip in I. apply filter_In in I.
  destruct I as [_ D]. rewrite N in D. now rewrite orb_false_r in D.
Qed.

Lemma parse_in_range s : in_range (parse s).
Proof.
  unfold in_range, parse. apply Forall_forall. intros row Hr.
  apply in_map_iff in Hr. destruct Hr as (line & <- & Hl).
  apply Forall_forall. intros v Hv.
  apply in_map_iff in Hv. destruct Hv as (c & <- & Hc).
  apply (is_digit_plain c (parse_digits s line c Hl Hc)).
Qed.

(** The constructor on a string whose matrix is 9x9. *)
Lemma constructor_text_ok (s : list ascii) (h : heap) :
  wf_grid (parse s) ->
  exists c h',
    constructor_text s h = Ok c h' /\
    rows_of h' (board_ c) = parse s /\
    rows_of h' (original_ c) = parse s /\
    forall l, (l < length h)%nat -> nth l h' [] = nth l h [].
Proof.
  intros W. rewrite constructor_text_unfold.
  rewrite (wf_grid_check _ W), (in_range_check _ (parse_in_range s)).
  assert (L : length (parse s) = 9%nat) by apply W.
  rewrite L.
  exists (mkSudoku (seq (length h) 9) (seq (length h + 9) 9)),
         ((h ++ parse s) ++ parse s).
  assert (E : rows_of (h ++ parse s) (seq (length h) 9) = parse s).
  { rewrite <- L at 1. apply rows_of_app_new. }
  split; [|split; [|split]].
  - unfold bind. rewrite copy_rows_spec.
    + rewrite length_seq, length_app, L, E. reflexivity.
    + apply Forall_forall. intros l Hl. apply in_seq in Hl.
      rewrite length_app. lia.
  - cbn [board_]. rewrite rows_of_app_old; [assumption|].
    apply Forall_forall. intros l Hl. apply in_seq in Hl.
    rewrite length_app. lia.
  - cbn [original_].
    replace (length h + 9)%nat with (length (h ++ parse s))
      by (rewrite length_app; lia).
    rewrite <- L at 1. apply rows_of_app_new.
  - intros l Hl. rewrite <- app_assoc. now apply app_nth1.
Qed.

(** X22.  The constructor on a string never throws the range error: whatever the
    string, the matrix read from it holds values of 0 to 9 only.  It makes
    an object whose board and original layout are that matrix when the
    matrix is 9x9, and throws [TypeError "board should be 9x9"] when not. *)
Theorem constructor_text_outcome (s : list ascii) (h : heap) :
  in_range (parse s) /\
  ((wf_grid (parse s) /\
    exists c h',
      constructor_text s h = Ok c h' /\
      rows_of h' (board_ c) = parse s /\
      rows_of h' (original_ c) = parse s /\
      forall l, (l < length h)%nat -> nth l h' [] = nth l h []) \/
   (~ wf_grid (parse s) /\
    exists h', constructor_text s h = Throw StructureError h')).
Proof.
  split; [apply parse_in_range|].
  destruct (negb (length (parse s) =? 9)%nat
            || existsb (fun row => negb (length row =? 9)%nat) (parse s)) eqn:C.
  - right. split.
    + intros W. rewrite (wf_grid_check _ W) in C. discriminate.
    + rewrite constructor_text_unfold, C. eexists. reflexivity.
  - left. pose proof (wf_grid_check_false _ C) as W. split; [assumption|].
    now apply constructor_text_ok.
Qed.

Lemma String_digit v :
  0 <= v <= 9 ->
  exists c, String_ v = [c] /\ is_digit c = true /\ Number c = v.
Proof.
  intros H.
  assert (C : v = 0 \/ v = 1 \/ v = 2 \/ v = 3 \/ v = 4 \/ v = 5 \/ v = 6
              \/ v = 7 \/ v = 8 \/ v = 9) by lia.
  repeat destruct C as [->|C]; try subst v;
    eexists; (split; [reflexivity|split; reflexivity]).
Qed.

Lemma join_nil_concat l : join [] l = concat l.
Proof.
  induction l as [|a [|b l] IH]; simpl in *; auto.
  - now rewrite app_nil_r.
  - now rewrite IH.
Qed.

(** The line of a row: as many digits as the row has cells. *)
Lemma row_line row :
  Forall (fun v => 0 <= v <= 9) row ->
  Forall (fun c => is_digit c = true) (join [] (map String_ row)) /\
  map Number (join [] (map String_ row)) = row /\
  length (join [] (map String_ row)) = length row.
Proof.
  rewrite join_nil_concat.
  induction row as [|v row IH]; intros F; simpl.
  - repeat split. constructor.
  - inversion F as [|? ? Hv F']; subst.
    destruct (String_digit v Hv) as (c & -> & D & N).
    destruct (IH F') as (Fd & Mn & Ln). simpl.
    split; [constructor; assumption|]. split; congruence.
Qed.

Lemma split_lines_line a :
  Forall (fun c => Ascii.eqb c newline = false) a -> split_lines a = [a].
Proof.
  induction a as [|c a IH]; intros F; simpl; auto.
  inversion F as [|? ? Hc F']; subst. rewrite Hc, IH; auto.
Qed.

Lemma split_lines_app a rest :
  Forall (fun c => Ascii.eqb c newline = false) a ->
  split_lines (a ++ newline :: rest) = a :: split_lines rest.
Proof.
  induction a as [|c a IH]; intros F; simpl.
  - reflexivity.
  - inversion F as [|? ? Hc F']; subst. rewrite Hc, IH; auto.
Qed.

Lemma split_join lines :
  lines <> [] ->
  Forall (Forall (fun c => Ascii.eqb c newline = false)) lines ->
  split_lines (join [newline] lines) = lines.
Proof.
  induction lines as [|a [|b lines] IH]; intros Ne F; [congruence| |].
  - simpl. apply split_lines_line. now inversion F.
  - inversion F as [|? ? Fa F']; subst.
    change (join [newline] (a :: b :: lines))
      with (a ++ newline :: join [newline] (b :: lines)).
    rewrite split_lines_app by assumption.
    rewrite IH; auto. discriminate.
Qed.

Lemma join_first (P : ascii -> Prop) sep lines :
  lines <> [] -> Forall (fun l => l <> [] /\ Forall P l) lines ->
  exists c t, join sep lines = c :: t /\ P c.
Proof.
  intros Ne F. destruct lines as [|a lines]; [congruence|].
  inversion F as [|? ? [Na Fa] _]; subst.
  destruct a as [|c a]; [congruence|].
  inversion Fa; subst.
  destruct lines; simpl; eauto.
Qed.

Lemma join_last (P : ascii -> Prop) sep lines :
  lines <> [] -> Forall (fun l => l <> [] /\ Forall P l) lines ->
  exists t c, join sep lines = t ++ [c] /\ P c.
Proof.
  induction lines as [|a [|b lines] IH]; intros Ne F; [congruence| |].
  - inversion F as [|? ? [Na Fa] _]; subst. simpl.
    destruct (exists_last Na) as (t & c & ->).
    exists t, c. split; [reflexivity|].
    rewrite Forall_forall in Fa. apply Fa. apply in_or_app. right. now left.
  - inversion F as [|? ? _ F']; subst.
    destruct (IH ltac:(discriminate) F') as (t & c & E & Pc).
    exists (a ++ sep ++ t), c. split; [|assumption].
    change (join sep (a :: b :: lines)) with (a ++ sep ++ join sep (b :: lines)).
    rewrite E. now rewrite <- !app_assoc.
Qed.

Lemma trim_id s :
  (exists c t, s = c :: t /\ is_space c = false) ->
  (exists t c, s = t ++ [c] /\ is_space c = false) ->
  trim s = s.
Proof.
  intros (c & t & E & Hc) (t' & c' & E' & Hc'). unfold trim.
  assert (T : trim_start s = s) by (rewrite E; simpl; now rewrite Hc).
  rewrite T, E', rev_app_distr. simpl. rewrite Hc'.
  change (c' :: rev t') with ([c'] ++ rev t').
  rewrite rev_app_distr, rev_involutive. reflexivity.
Qed.

Lemma join_In sep lines c :
  In c (join sep lines) -> In c sep \/ exists l, In l lines /\ In c l.
Proof.
  induction lines as [|a [|b lines] IH]; simpl; [tauto| |].
  - intros H. right. eauto.
  - intros H. apply in_app_or in H. destruct H as [H|H]; [right; eauto|].
    apply in_app_or in H. destruct H as [H|H]; [now left|].
    destruct (IH H) as [I|(l & Hl & Hc)]; [now left|].
    right. exists l. split; [now right|assumption].
Qed.

Lemma map_join {f : ascii -> ascii} sep lines :
  map f (join sep lines) = join (map f sep) (map (map f) lines).
Proof.
  induction lines as [|a [|b lines] IH]; auto.
  change (join sep (a :: b :: lines)) with (a ++ sep ++ join sep (b :: lines)).
  rewrite !map_app, IH. reflexivity.
Qed.

(** The matrix read from lines of digits. *)
Lemma parse_digit_lines lines :
  lines <> [] ->
  Forall (fun l => l <> [] /\ Forall (fun c => is_digit c = true) l) lines ->
  split_lines (trim (strip (join [newline] lines))) = lines.
Proof.
  intros Ne Fd.
  assert (Ch : forall c, In c (join [newline] lines) ->
                         c = newline \/ is_digit c = true).
  { intros c Hc. apply join_In in Hc. destruct Hc as [[<-|[]]|(l & Hl & Hc)].
    - now left.
    - right. rewrite Forall_forall in Fd. destruct (Fd l Hl) as [_ D].
      rewrite Forall_forall in D. auto. }
  assert (E2 : strip (join [newline] lines) = join [newline] lines).
  { unfold strip. apply forallb_filter_id. apply forallb_forall. intros c Hc.
    destruct (Ch c Hc) as [->|D]; [reflexivity|]. now rewrite D. }
  rewrite E2.
  assert (E3 : trim (join [newline] lines) = join [newline] lines).
  { apply trim_id.
    - destruct (join_first (fun c => is_digit c = true) [newline] lines Ne Fd)
        as (c & t & E & D).
      exists c, t. split; [assumption|]. apply (is_digit_plain c D).
    - destruct (join_last (fun c => is_digit c = true) [newline] lines Ne Fd)
        as (t & c & E & D).
      exists t, c. split; [assumption|]. apply (is_digit_plain c D). }
  rewrite E3.
  apply split_join; auto.
  eapply Forall_impl; [|exact Fd]. intros l [_ D]. simpl.
  eapply Forall_impl; [|exact D]. intros c Dc. simpl.
  apply (is_digit_plain c Dc).
Qed.

(** X23.  In the text of a puzzle a space stands for an empty cell: lines of
    digits and spaces, none of them empty, are read line by line and
    character by character, a digit as its value and a space as 0, also at
    the start and at the end of the text. *)
Theorem parse_lines (lines : list (list ascii)) :
  lines <> [] ->
  Forall (fun l => l <> [] /\
            Forall (fun c => is_digit c = true \/ c = " "%char) l) lines ->
  parse (join [newline] lines)
  = map (map (fun c => if Ascii.eqb c " "%char then 0 else Number c)) lines.
Proof.
  intros Ne F. unfold parse, spaces_to_zero.
  set (f := fun c => if Ascii.eqb c " "%char then "0"%char else c).
  rewrite (@map_join f). change (map f [newline]) with [newline].
  rewrite parse_digit_lines.
  - rewrite map_map. apply map_ext. intros l. rewrite map_map.
    apply map_ext. intros c. unfold f.
    destruct (Ascii.eqb c " "%char); reflexivity.
  - destruct lines; [congruence|discriminate].
  - apply Forall_forall. intros l' Hl'.
    apply in_map_iff in Hl'. destruct Hl' as (l & <- & Hl).
    rewrite Forall_forall in F. destruct (F l Hl) as [Nl Fl].
    split; [destruct l; [congruence|discriminate]|].
    apply Forall_forall. intros c' Hc'.
    apply in_map_iff in Hc'. destruct Hc' as (c & <- & Hc).
    rewrite Forall_forall in Fl. unfold f.
    destruct (Fl c Hc) as [D| ->]; [|reflexivity].
    now rewrite (proj1 (proj2 (proj2 (is_digit_plain c D)))).
Qed.

Lemma parse_lines_witness :
  parse (join [newline] [[" "; "5"; " "]; ["1"; " "; "9"]]%char)
  = map (map (fun c => if Ascii.eqb c " "%char then 0 else Number c))
        [[" "; "5"; " "]; ["1"; " "; "9"]]%char.
Proof.
  apply (parse_lines [[" "; "5"; " "]; ["1"; " "; "9"]]%char).
  - discriminate.
  - repeat (constructor;
            [split; [discriminate|
                     repeat (constructor;
                             [first [left; reflexivity|right; reflexivity]|]);
                     constructor]|]).
    constructor.
Defined.

(** The matrix read from the text of a board is the board. *)
Lemma parse_toString g :
  good g ->
  parse (join [newline] (map (fun row => join [] (map String_ row)) g)) = g.
Proof.
  intros [[L Fl] R]. unfold in_range in R.
  set (line := fun row => join [] (map String_ row)).
  set (lines := map line g).
  assert (Fd : Forall (fun l => l <> [] /\ Forall (fun c => is_digit c = true) l)
                      lines).
  { unfold lines. apply Forall_forall. intros l Hl.
    apply in_map_iff in Hl. destruct Hl as (row & <- & Hr).
    rewrite Forall_forall in R, Fl.
    destruct (row_line row (R row Hr)) as (D & _ & Ln).
    split; [|assumption].
    intros E. unfold line in E. rewrite E in Ln. rewrite (Fl row Hr) in Ln.
    discriminate. }
  assert (Ne : lines <> []).
  { unfold lines. destruct g; [discriminate L|discriminate]. }
  assert (Ch : forall c, In c (join [newline] lines) ->
                         c = newline \/ is_digit c = true).
  { intros c Hc. apply join_In in Hc. destruct Hc as [[<-|[]]|(l & Hl & Hc)].
    - now left.
    - right. rewrite Forall_forall in Fd. destruct (Fd l Hl) as [_ D].
      rewrite Forall_forall in D. auto. }
  unfold parse.
  assert (E1 : spaces_to_zero (join [newline] lines) = join [newline] lines).
  { unfold spaces_to_zero. rewrite <- (map_id (join [newline] lines)) at 2.
    apply map_ext_in. intros c Hc.
    destruct (Ch c Hc) as [->|D]; [reflexivity|].
    now rewrite (proj1 (proj2 (proj2 (is_digit_plain c D)))). }
  rewrite E1, parse_digit_lines; auto.
  unfold lines. rewrite map_map.
  rewrite <- (map_id g) at 2. apply map_ext_in. intros row Hr.
  rewrite Forall_forall in R.
  apply (row_line row (R row Hr)).
Qed.

(** X24.  The text of a board reads back as the board: for an object whose board
    is 9x9 with cells 0 to 9, [new Sudoku(o.toString())] returns, and the
    board and the original layout of the new object are the board of [o];
    the board of [o] is as before. *)
Theorem toString_roundtrip (o : Sudoku) (h : heap) :
  wf_obj h o -> good (rows_of h (board_ o)) ->
  exists s c h',
    toString_none o h = Ok s h /\
    constructor_text s h = Ok c h' /\
    rows_of h' (board_ c) = rows_of h (board_ o) /\
    rows_of h' (original_ c) = rows_of h (board_ o) /\
    rows_of h' (board_ o) = rows_of h (board_ o).
Proof.
  intros W G. set (g := rows_of h (board_ o)) in *.
  set (s := join [newline] (map (fun row => join [] (map String_ row)) g)).
  pose proof (parse_toString g G) as P. fold s in P.
  destruct (constructor_text_ok s h) as (c & h' & R & B & O & Old).
  { rewrite P. apply G. }
  exists s, c, h'. split; [reflexivity|]. split; [assumption|].
  rewrite B, O, P. split; [reflexivity|]. split; [reflexivity|].
  unfold rows_of. apply map_ext_in. intros l Hl. apply Old.
  destruct W as [_ F]. rewrite Forall_forall in F. auto.
Qed.

Lemma toString_roundtrip_witness :
  exists s c h',
    toString_none scenarioB_obj scenarioB_heap3 = Ok s scenarioB_heap3 /\
    constructor_text s scenarioB_heap3 = Ok c h' /\
    rows_of h' (board_ c) = rows_of scenarioB_heap3 (board_ scenarioB_obj) /\
    rows_of h' (original_ c) = rows_of scenarioB_heap3 (board_ scenarioB_obj) /\
    rows_of h' (board_ scenarioB_obj)
    = rows_of scenarioB_heap3 (board_ scenarioB_obj).
Proof.
  apply (toString_roundtrip scenarioB_obj scenarioB_heap3 scenarioB_obj_wf
           scenarioB_obj_good).
Defined.

(** ** The board editor *)

Lemma typed_range last : 0 <= typed last <= 9.
Proof.
  unfold typed. destruct (is_digit last) eqn:D; [|lia].
  apply (is_digit_plain last D).
Qed.

(** X25.  A key never takes the cursor off the board and never makes the editor
    throw: from a cursor on the board, the handler returns with the cursor
    on the board; the arrow keys, the digits and the space bar move it along
    the rows as [cursor_after] says (a digit or a space moves it to the next
    cell, backspace to the cell before, both stopping at the ends of the
    board), and the only cell written is the one under the cursor before
    the key: a digit writes its value, a space writes 0, backspace writes 0. *)
Theorem keypress_cursor (o : Sudoku) (h : heap) (key : string) (last : ascii)
  (x y : Z) :
  wf_obj h o -> wf_grid (rows_of h (board_ o)) -> inb (x, y) ->
  exists x' y' h',
    keypress o key last (x, y) h = Ok (x', y') h' /\
    inb (x', y') /\
    index_of (x', y') = cursor_after key (x, y) /\
    rows_of h' (board_ o) = grid_after key last (rows_of h (board_ o)) (x, y).
Proof.
  intros W Wg Hp. pose proof Hp as [Hx Hy]. simpl in Hx, Hy.
  pose proof (typed_range last) as Tr.
  destruct (hoare_set o _ x y (typed last) Wg Hp Tr h W eq_refl)
    as (hs & Rs & _ & Es & _).
  destruct (hoare_delete o _ x y Wg Hp h W eq_refl)
    as (hd & Rd & _ & Ed & _).
  unfold keypress, cursor_after, grid_after, index_of, inb.
  destruct (String.eqb_spec key "left") as [->|N1].
  { cbn [existsb String.eqb Ascii.eqb Bool.eqb orb andb fst snd].
    cursor_cases; unfold bind, ret; do 3 eexists;
      (split; [reflexivity|]); cbn [fst snd]; repeat split; lia. }
  destruct (String.eqb_spec key "right") as [->|N2].
  { cbn [existsb String.eqb Ascii.eqb Bool.eqb orb andb fst snd].
    cursor_cases; unfold bind, ret; do 3 eexists;
      (split; [reflexivity|]); cbn [fst snd]; repeat split; lia. }
  destruct (String.eqb_spec key "up") as [->|N3].
  { cbn [existsb String.eqb Ascii.eqb Bool.eqb orb andb fst snd].
    cursor_cases; unfold bind, ret; do 3 eexists;
      (split; [reflexivity|]); cbn [fst snd]; repeat split; lia. }
  destruct (String.eqb_spec key "down") as [->|N4].
  { cbn [existsb String.eqb Ascii.eqb Bool.eqb orb andb fst snd].
    cursor_cases; unfold bind, ret; do 3 eexists;
      (split; [reflexivity|]); cbn [fst snd]; repeat split; lia. }
  destruct (String.eqb_spec key "number") as [->|N5].
  { cbn [existsb String.eqb Ascii.eqb Bool.eqb orb andb fst snd].
    unfold bind at 1. unfold bind at 1. rewrite Rs. unfold ret.
    cursor_cases; do 3 eexists;
      (split; [reflexivity|]); cbn [fst snd]; repeat split; auto; lia. }
  destruct (String.eqb_spec key "space") as [->|N6].
  { cbn [existsb String.eqb Ascii.eqb Bool.eqb orb andb fst snd].
    unfold bind at 1. unfold bind at 1. rewrite Rs. unfold ret.
    cursor_cases; do 3 eexists;
      (split; [reflexivity|]); cbn [fst snd]; repeat split; auto; lia. }
  destruct (String.eqb_spec key "backspace") as [->|N7].
  { cbn [existsb String.eqb Ascii.eqb Bool.eqb orb andb fst snd].
    unfold bind at 1. unfold ret at 1. unfold bind at 1. rewrite Rd.
    unfold ret.
    cursor_cases; do 3 eexists;
      (split; [reflexivity|]); cbn [fst snd]; repeat split; auto; lia. }
  apply String.eqb_neq in N1, N2, N3, N4, N5, N6, N7.
  cbn [existsb].
  repeat (rewrite ?N1, ?N2, ?N3, ?N4, ?N5, ?N6, ?N7;
          progress cbn [orb andb fst snd]; cbv beta iota zeta).
  unfold bind, ret. exists x, y, h. cbn [fst snd]. repeat split; auto; lia.
Qed.

Lemma keypress_cursor_witness :
  exists x' y' h',
    keypress scenarioB_obj "number" "5"%char (8, 0) scenarioB_heap3
    = Ok (x', y') h' /\
    inb (x', y') /\
    index_of (x', y') = cursor_after "number" (8, 0) /\
    rows_of h' (board_ scenarioB_obj)
    = grid_after "number" "5"%char
        (rows_of scenarioB_heap3 (board_ scenarioB_obj)) (8, 0).
Proof.
  apply (keypress_cursor scenarioB_obj scenarioB_heap3 "number" "5"%char 8 0
           scenarioB_obj_wf).
  - apply scenarioB_obj_good.
  - unfold inb. simpl. lia.
Defined.

(** A digit key: the cell under the cursor is written and the cursor moves
    to the next cell. *)
Lemma keypress_number o h last x y :
  wf_obj h o -> wf_grid (rows_of h (board_ o)) -> inb (x, y) ->
  exists x' y' h',
    keypress o "number" last (x, y) h = Ok (x', y') h' /\
    inb (x', y') /\
    index_of (x', y') = Z.min 80 (index_of (x, y) + 1) /\
    wf_obj h' o /\
    rows_of h' (board_ o) = gset (rows_of h (board_ o)) (x, y) (typed last).
Proof.
  intros W Wg Hp. pose proof Hp as [Hx Hy]. simpl in Hx, Hy.
  pose proof (typed_range last) as Tr.
  destruct (hoare_set o _ x y (typed last) Wg Hp Tr h W eq_refl)
    as (hs & Rs & Ws & Es & _).
  unfold keypress, index_of, inb.
  cbn [String.eqb Ascii.eqb Bool.eqb orb andb fst snd].
  unfold bind at 1. unfold bind at 1. rewrite Rs. unfold ret.
  cursor_cases; do 3 eexists;
    (split; [reflexivity|]); cbn [fst snd];
    (split; [split; lia|]); (split; [lia|]); split; assumption.
Qed.

Lemma index_of_inj c c' :
  inb c -> inb c' -> index_of c = index_of c' -> c = c'.
Proof.
  destruct c as [x y], c' as [x' y']. unfold inb, index_of. cbn [fst snd].
  intros H H' E. f_equal; lia.
Qed.

Lemma type_digits_from o : forall ds x y h,
  wf_obj h o -> wf_grid (rows_of h (board_ o)) -> inb (x, y) ->
  index_of (x, y) + Z.of_nat (length ds) <= 81 ->
  exists x' y' h',
    type_digits o ds (x, y) h = Ok (x', y') h' /\
    inb (x', y') /\
    index_of (x', y') = Z.min 80 (index_of (x, y) + Z.of_nat (length ds)) /\
    wf_grid (rows_of h' (board_ o)) /\
    forall c, inb c ->
      cell_of (rows_of h' (board_ o)) c
      = if (index_of (x, y) <=? index_of c)
           && (index_of c <? index_of (x, y) + Z.of_nat (length ds))
        then typed (nth (Z.to_nat (index_of c - index_of (x, y))) ds "0"%char)
        else cell_of (rows_of h (board_ o)) c.
Proof.
  induction ds as [|d ds IH]; intros x y h W Wg Hp Le.
  - exists x, y, h. split; [reflexivity|]. split; [assumption|].
    pose proof Hp as [Hx Hy]. unfold index_of in *. cbn [fst snd length] in *.
    split; [lia|]. split; [assumption|].
    intros c Hc. change (Z.of_nat 0) with 0.
    replace (_ && _) with false by lia. reflexivity.
  - destruct (keypress_number o h d x y W Wg Hp)
      as (x1 & y1 & h1 & R1 & Hp1 & I1 & W1 & E1).
    assert (Wg1 : wf_grid (rows_of h1 (board_ o))).
    { rewrite E1. now apply gset_wf. }
    cbn [length] in Le. rewrite Nat2Z.inj_succ in Le.
    assert (Ix : 0 <= index_of (x, y) <= 80).
    { destruct Hp as [Hx Hy]. unfold index_of. cbn [fst snd] in *. lia. }
    destruct (IH x1 y1 h1 W1 Wg1 Hp1 ltac:(lia))
      as (x2 & y2 & h2 & R2 & Hp2 & I2 & Wg2 & C2).
    exists x2, y2, h2.
    split; [|split; [assumption|split; [|split; [assumption|]]]].
    + unfold type_digits. cbn [foldM]. unfold bind at 1. rewrite R1.
      exact R2.
    + cbn [length]. rewrite Nat2Z.inj_succ. lia.
    + intros c Hc. rewrite (C2 c Hc). rewrite E1.
      cbn [length]. rewrite Nat2Z.inj_succ. unfold Z.succ in *.
      pose proof (Nat2Z.is_nonneg (length ds)) as Nn.
      remember (Z.of_nat (length ds)) as n eqn:En in *. clear En.
      assert (Ic : 0 <= index_of c <= 80).
      { destruct Hc as [Hx Hy]. unfold index_of. lia. }
      destruct (Z.eq_dec (index_of c) (index_of (x, y))) as [Eq|Ne].
      * assert (c = (x, y)) by (apply index_of_inj; auto). subst c.
        replace ((index_of (x1, y1) <=? index_of (x, y))
                 && (index_of (x, y) <? index_of (x1, y1) + n))
          with false by lia.
        rewrite cell_of_gset_eq by auto.
        replace ((index_of (x, y) <=? index_of (x, y))
                 && (index_of (x, y) <? index_of (x, y) + (n + 1)))
          with true by lia.
        now rewrite Z.sub_diag.
      * rewrite cell_of_gset_neq by (auto; congruence).
        destruct ((index_of (x1, y1) <=? index_of c)
                  && (index_of c <? index_of (x1, y1) + n))
          eqn:In1.
        -- replace ((index_of (x, y) <=? index_of c)
                    && (index_of c <? index_of (x, y) + (n + 1)))
             with true by lia.
           replace (Z.to_nat (index_of c - index_of (x, y)))
             with (S (Z.to_nat (index_of c - index_of (x1, y1)))) by lia.
           reflexivity.
        -- replace ((index_of (x, y) <=? index_of c)
                    && (index_of c <? index_of (x, y) + (n + 1)))
             with false by lia.
           reflexivity.
Qed.

(** X26.  Typing a puzzle into the editor: from the top left corner, at most 81
    digit keys write their digits row by row, whatever the board held; the
    cells after the last digit keep their values, and the cursor ends on the
    cell after the last digit, or on the last cell of the board. *)
Theorem typing_fills_rows (o : Sudoku) (h : heap) (ds : list ascii) :
  wf_obj h o -> wf_grid (rows_of h (board_ o)) -> (length ds <= 81)%nat ->
  exists x' y' h',
    type_digits o ds (0, 0) h = Ok (x', y') h' /\
    index_of (x', y') = Z.min 80 (Z.of_nat (length ds)) /\
    forall c, inb c ->
      cell_of (rows_of h' (board_ o)) c
      = if index_of c <? Z.of_nat (length ds)
        then typed (nth (Z.to_nat (index_of c)) ds "0"%char)
        else cell_of (rows_of h (board_ o)) c.
Proof.
  intros W Wg L.
  assert (Hp : inb (0, 0)) by (unfold inb; simpl; lia).
  destruct (type_digits_from o ds 0 0 h W Wg Hp)
    as (x' & y' & h' & R & _ & I & _ & C).
  { unfold index_of. cbn [fst snd]. lia. }
  exists x', y', h'. split; [assumption|].
  change (index_of (0, 0)) with 0 in *. rewrite Z.add_0_l in *.
  split; [assumption|].
  intros c Hc. rewrite (C c Hc).
  assert (Ic : 0 <= index_of c).
  { destruct Hc as [Hx Hy]. unfold index_of. lia. }
  replace (0 <=? index_of c) with true by lia. cbn [andb].
  now rewrite Z.sub_0_r.
Qed.

Lemma typing_fills_rows_witness :
  exists x' y' h',
    type_digits scenarioB_obj ["4"; "2"]%char (0, 0) scenarioB_heap3
    = Ok (x', y') h' /\
    index_of (x', y') = Z.min 80 (Z.of_nat (length ["4"; "2"]%char)) /\
    forall c, inb c ->
      cell_of (rows_of h' (board_ scenarioB_obj)) c
      = if index_of c <? Z.of_nat (length ["4"; "2"]%char)
        then typed (nth (Z.to_nat (index_of c)) ["4"; "2"]%char "0"%char)
        else cell_of (rows_of scenarioB_heap3 (board_ scenarioB_obj)) c.
Proof.
  apply (typing_fills_rows scenarioB_obj scenarioB_heap3 ["4"; "2"]%char
           scenarioB_obj_wf).
  - apply scenarioB_obj_good.
  - simpl. lia.
Defined.
